(** * visionQuest-offline: the local analysis aggregator and the record
    lifecycle, embedded from [src/services/localAiService.ts] and from the
    [App] component.

    JavaScript values are modelled as follows.
    - A string is the list of its UTF-16 code units ([jsstring]); literals of
      the source are written as Rocq strings and decoded by [lit].
    - A number is a rational ([Q]), the value of a finite double; [NaN]
      and infinite inputs are left out.  Where a rounding can change what
      the program answers, in the position of a face and in the exposure
      time, the operations are those of binary64: the exact result rounded
      by [toBinary64], a decimal literal such as [0.33] being the double
      nearest to it, and an overflow giving an infinity.  Scores and
      colour counts are only compared, and the average of the integer ages
      is taken exactly.
    - A promise settles to an [Outcome] or stays pending ([Promise]); the
      thrown value of a rejection is read through its [message] only.
    - An optional property is an [option]; an object used as a table or as
      a counter is the list of its entries in property order.
    - [Array.prototype.sort] is the stable sort that the language
      prescribes; both comparators of the program order consistently.
    - State updates ([setImages(prev => ...)]) are functions from the record
      list to the record list, applied in the order they are issued. *)

From Stdlib Require Import PrimFloat FloatOps SpecFloat.
From Stdlib Require Import List ZArith NArith QArith Qround Qabs Qpower.
From Stdlib Require Import Lia Lqa Bool.
From Stdlib Require Import String Ascii Sorted Permutation.
From Stdlib Require Import DecimalString.
Import ListNotations.

Local Open Scope Z_scope.

(* ------------------------------------------------------------------ *)
(** ** JavaScript values *)

Module JS.

(** UTF-16 code units. *)
Definition jsstring := list N.

Definition code (c : ascii) : N := N_of_ascii c.

(** Decoding of a UTF-8 byte sequence (a literal of this file) into code
    units; every literal of the source lies in the Basic Multilingual Plane,
    so one, two and three byte sequences suffice. *)
Fixpoint utf16_of_utf8 (bs : list N) : jsstring :=
  match bs with
  | [] => []
  | b0 :: t =>
      if (b0 <? 128)%N then b0 :: utf16_of_utf8 t
      else if (b0 <? 224)%N then
        match t with
        | b1 :: t' => ((b0 mod 32) * 64 + b1 mod 64)%N :: utf16_of_utf8 t'
        | [] => [b0]
        end
      else
        match t with
        | b1 :: b2 :: t' =>
            ((b0 mod 16) * 4096 + (b1 mod 64) * 64 + b2 mod 64)%N
              :: utf16_of_utf8 t'
        | _ => [b0]
        end
  end.

Definition lit (s : string) : jsstring :=
  utf16_of_utf8 (map code (list_ascii_of_string s)).

Definition unit_eqb : N -> N -> bool := N.eqb.

Fixpoint eqb (s t : jsstring) : bool :=
  match s, t with
  | [], [] => true
  | a :: s', b :: t' => unit_eqb a b && eqb s' t'
  | _, _ => false
  end.

(** Truthiness of a string: [""] is the only falsy one. *)
Definition truthy (s : jsstring) : bool :=
  match s with [] => false | _ => true end.

(** [s || d] on strings. *)
Definition or_else (s d : jsstring) : jsstring :=
  if truthy s then s else d.

(** A JavaScript number. *)
Definition number := Q.

Definition ltb (a b : number) : bool := negb (Qle_bool b a).
Definition gtb (a b : number) : bool := ltb b a.
Definition geb (a b : number) : bool := Qle_bool b a.

(** A non-negative integer as a number. *)
Definition ofN (n : N) : number := inject_Z (Z.of_N n).

(** [Math.round]: the nearest integer, halves rounded up. *)
Definition round (x : number) : Z := Qfloor (x + (1 # 2))%Q.

(** The settled value of a promise.  A rejection carries the thrown value,
    an object of which the program only reads the [message] property: an
    [Error] has one, the event of a failed image load has none. *)
Record Failure := { message : option jsstring }.

Inductive Outcome (A : Type) :=
| Fulfilled (a : A)
| Rejected (e : Failure).
Arguments Fulfilled {A} a.
Arguments Rejected {A} e.

Definition bind {A B} (o : Outcome A) (k : A -> Outcome B) : Outcome B :=
  match o with
  | Fulfilled a => k a
  | Rejected e => Rejected e
  end.

(** A promise: it settles, or it stays pending for ever. *)
Inductive Promise (A : Type) :=
| Settled (o : Outcome A)
| Pending.
Arguments Settled {A} o.
Arguments Pending {A}.

Coercion Settled : Outcome >-> Promise.

(** [p.catch(() => d)] *)
Definition catch {A} (p : Promise A) (d : A) : Promise A :=
  match p with
  | Settled (Fulfilled a) => Settled (Fulfilled a)
  | Settled (Rejected _) => Settled (Fulfilled d)
  | Pending => Pending
  end.

(** [Promise.resolve(t)] for a thenable [t] whose [then] takes the
    fulfilment handler only and never calls back when [run] rejects: the
    promise follows [t] to its value, or stays pending. *)
Definition resolveThenable {A} (run : Outcome A) : Promise A :=
  match run with
  | Fulfilled a => Settled (Fulfilled a)
  | Rejected _ => Pending
  end.

(** [await p] followed by [k]. *)
Definition await {A B} (p : Promise A) (k : A -> Promise B) : Promise B :=
  match p with
  | Settled (Fulfilled a) => k a
  | Settled (Rejected e) => Settled (Rejected e)
  | Pending => Pending
  end.

(** *** Binary64 arithmetic

    A finite number of the program is a rational that a double stands for.
    Where the program computes with such numbers and the rounding of the
    result can be seen, the operation is the exact one followed by
    [toBinary64]: rounding to the nearest double, ties to the even
    significand, with gradual underflow, and to an infinity from
    [2^1024 - 2^970] on. *)
Inductive binary64 :=
| Finite (q : number)
| Infinity (positive : bool).

Definition pow2 (e : Z) : Q := (2 ^ e)%Q.

(** [floor (log2 q)] for a positive [q]. *)
Definition exponentOf (q : Q) : Z :=
  let e := Z.log2 (Qnum q) - Z.log2 (Zpos (Qden q)) in
  if Qle_bool (pow2 e) q then e else e - 1.

(** The nearest integer, ties to the even one. *)
Definition nearestEven (q : Q) : Z :=
  let f := Qfloor q in
  match Qcompare (q - inject_Z f) (1 # 2) with
  | Lt => f
  | Gt => f + 1
  | Eq => if Z.even f then f else f + 1
  end.

(** Rounding to 53 significant bits, or to a multiple of [2^-1074] below
    [2^-1022], with an unbounded exponent above. *)
Definition rounded (q : Q) : Q :=
  let a := Qabs q in
  if Qeq_bool a 0 then 0%Q
  else
    let ulp := pow2 (Z.max (exponentOf a - 52) (-1074)) in
    let v := (inject_Z (nearestEven (a / ulp)) * ulp)%Q in
    Qred (if Qle_bool 0 q then v else - v).

Definition toBinary64 (q : Q) : binary64 :=
  let v := rounded q in
  if Qle_bool (pow2 1024) (Qabs v) then Infinity (Qle_bool 0 q)
  else Finite v.

(** The error of one rounding is at most [eps] of the exact value plus
    [tiny]: [2^-53], and half the spacing of the doubles next to zero. *)
Definition eps : Q := 1 # 9007199254740992.
Definition tiny : Q := pow2 (-1075).

(** A decimal literal of the source: the double nearest to it. *)
Definition nearest (q : Q) : number := rounded q.

(** [a < b] *)
Definition lt64 (a b : binary64) : bool :=
  match a, b with
  | Finite x, Finite y => ltb x y
  | Finite _, Infinity s => s
  | Infinity s, Finite _ => negb s
  | Infinity s, Infinity s' => negb s && s'
  end.

(** The exact value of a double of the kernel, to compare [toBinary64]
    with the arithmetic of the machine on concrete numbers. *)
Definition valueOf (f : PrimFloat.float) : option binary64 :=
  match FloatOps.Prim2SF f with
  | SpecFloat.S754_zero _ => Some (Finite 0%Q)
  | SpecFloat.S754_finite s m e =>
      Some (Finite (Qred ((if s then -1 else 1) * inject_Z (Zpos m)
                          * pow2 e)%Q))
  | SpecFloat.S754_infinity s => Some (Infinity (negb s))
  | SpecFloat.S754_nan => None
  end.

(** *** Strings *)

Definition LF : N := 10.

(** [s.split(sep)] for a one-unit separator: never the empty list. *)
Fixpoint split (sep : N) (s : jsstring) : list jsstring :=
  match s with
  | [] => [[]]
  | c :: s' =>
      if (c =? sep)%N then [] :: split sep s'
      else match split sep s' with
           | l :: ls => (c :: l) :: ls
           | [] => [[c]]
           end
  end.

(** [ls.join(sep)] *)
Fixpoint join (sep : jsstring) (ls : list jsstring) : jsstring :=
  match ls with
  | [] => []
  | l :: ls' =>
      match ls' with
      | [] => l
      | _ :: _ => l ++ sep ++ join sep ls'
      end
  end.

(** White space and line terminators of ECMAScript, as removed by [trim]. *)
Definition isWhiteSpace (c : N) : bool :=
  ((9 <=? c) && (c <=? 13) || (c =? 32) || (c =? 160) || (c =? 5760)
   || (8192 <=? c) && (c <=? 8202) || (c =? 8232) || (c =? 8233)
   || (c =? 8239) || (c =? 8287) || (c =? 12288) || (c =? 65279))%N.

Fixpoint trimStart (s : jsstring) : jsstring :=
  match s with
  | [] => []
  | c :: s' => if isWhiteSpace c then trimStart s' else s
  end.

Definition trimEnd (s : jsstring) : jsstring := rev (trimStart (rev s)).

Definition trim (s : jsstring) : jsstring := trimEnd (trimStart s).

(** [s.charAt(0)] and [s.slice(1)] *)
Definition charAt0 (s : jsstring) : jsstring := firstn 1 s.
Definition slice1 (s : jsstring) : jsstring := skipn 1 s.

(** Decimal rendering of an integer, as a template literal prints it. *)
Definition ofInteger (z : Z) : jsstring :=
  map code (list_ascii_of_string (NilZero.string_of_int (Z.to_int z))).

(** [Array.from(new Set(l))]: first occurrences, in order. *)
Fixpoint dedupe (seen : list jsstring) (l : list jsstring) : list jsstring :=
  match l with
  | [] => []
  | a :: l' =>
      if existsb (eqb a) seen then dedupe seen l'
      else a :: dedupe (a :: seen) l'
  end.

Definition fromSet (l : list jsstring) : list jsstring := dedupe [] l.

(** Lookup of a string key in an object literal used as a table. *)
Fixpoint lookup {V} (k : jsstring) (table : list (jsstring * V)) : option V :=
  match table with
  | [] => None
  | (k', v) :: table' => if eqb k k' then Some v else lookup k table'
  end.

(** *** 32-bit integer operators *)

Definition toInt32 (z : Z) : Z := (z + 2 ^ 31) mod 2 ^ 32 - 2 ^ 31.

(** [a << k] *)
Definition shl (a k : Z) : Z := toInt32 (Z.shiftl (toInt32 a) (k mod 32)).

(** *** [Array.prototype.sort]: a stable sort; [a] is moved behind [b]
    exactly when [cmp a b > 0]. *)
Section Sort.
Context {A : Type} (cmp : A -> A -> number).

Fixpoint insert (a : A) (l : list A) : list A :=
  match l with
  | [] => [a]
  | b :: l' => if gtb (cmp a b) 0%Q then b :: insert a l' else a :: l
  end.

Definition sort (l : list A) : list A := fold_right insert [] l.

(** The order a stable sort establishes: by the comparator first and, among
    elements it holds equal, by their order [before] in the input. *)
Definition ranked (before : A -> A -> Prop) (a b : A) : Prop :=
  (cmp a b < 0)%Q \/ ((cmp a b == 0)%Q /\ before a b).
End Sort.

(** *** [n.toString(16)] for a non-negative integer *)

Definition hexDigit (d : Z) : N :=
  if d <? 10 then Z.to_N (48 + d) else Z.to_N (87 + d).

Fixpoint toString16_aux (fuel : nat) (n : Z) (acc : jsstring) : jsstring :=
  match fuel with
  | O => acc
  | S fuel' =>
      let acc' := hexDigit (n mod 16) :: acc in
      if n / 16 =? 0 then acc' else toString16_aux fuel' (n / 16) acc'
  end.

Definition toString16 (n : Z) : jsstring :=
  toString16_aux (S (Z.to_nat (Z.log2 n))) n [].

End JS.

Notation "x <- c ;; k" := (JS.bind c (fun x => k))
  (at level 61, c at next level, right associativity).

(* ------------------------------------------------------------------ *)
(** ** Types of the analysis ([types.ts]) *)

Import JS.

Inductive Language := pl | en.

Inductive Position := PosLeft | PosCenter | PosRight.

Module Box.
Record t := { x : number; y : number; width : number; height : number }.
End Box.

Module FaceDetail.
Record t := {
  age : Z;
  gender : jsstring;
  genderProbability : number;
  emotion : jsstring;
  emotionScore : number;
  position : Position;
  box : Box.t
}.
End FaceDetail.

Module Exif.
Record t := {
  make : option jsstring;
  model : option jsstring;
  dateTime : option jsstring;
  exposureTime : option jsstring;
  fNumber : option jsstring;
  iso : option number
}.
End Exif.

Module Location.
Record t := { lat : number; lng : number }.
End Location.

Record ImageAnalysis := {
  objects : list jsstring;
  labels : list jsstring;
  description : jsstring;
  confidenceScore : number;
  dominantColors : list jsstring;
  ageEstimate : option jsstring;
  emotionEstimate : option jsstring;
  faces : option (list FaceDetail.t);
  markedUpImageUrl : option jsstring;
  scenery : option jsstring;
  ocrText : option jsstring;
  exif : option Exif.t;
  location : option Location.t
}.

Module Status.
Inductive t := pending | analyzing | completed | error.
End Status.

Module ImageRecord.
Record t := {
  id : jsstring;
  name : jsstring;
  url : jsstring;
  base64 : jsstring;
  mimeType : jsstring;
  size : number;
  status : Status.t;
  analysis : option ImageAnalysis;
  error : option jsstring
}.
End ImageRecord.

(* ------------------------------------------------------------------ *)
(** ** What the providers hand to the aggregator *)

(** One RGBA pixel of an [ImageData] buffer, whose length is a multiple of
    four by construction. *)
Record Pixel := { red : Byte.byte; green : Byte.byte; blue : Byte.byte;
                  alpha : Byte.byte }.

(** The analysis canvas: its width (an [unsigned long]) and, when a 2D
    context can be had, its pixels in row order; there is none when the
    width or the height is 0. *)
Module Canvas.
Record t := { width : N; imageData : option (list Pixel) }.
End Canvas.

(** coco-ssd *)
Module Detection.
Record t := { class : jsstring; score : number }.
End Detection.

(** mobilenet *)
Module ScenePrediction.
Record t := { className : jsstring; probability : number }.
End ScenePrediction.

(** face-api: [fd.detection.box], [fd.age], [fd.gender],
    [fd.genderProbability] and the entries of [fd.expressions] in property
    order, when that property is set. *)
Module RawFace.
Record t := {
  box : Box.t;
  age : number;
  gender : jsstring;
  genderProbability : number;
  expressions : option (list (jsstring * number))
}.
End RawFace.

(** tesseract.js: the three awaited calls of [performOCR]. *)
Module TextRecognizer.
Record t := {
  createWorker : Outcome unit;
  recognize : Outcome jsstring;
  terminate : Outcome unit
}.
End TextRecognizer.

(** Built-ins of the host whose results the program passes on unread. *)
Record Host := {
  toUpperCase : jsstring -> jsstring;
  toLowerCase : jsstring -> jsstring;
  (** [String(n)] and [`${n}`] for a number that need not be an integer *)
  numberToString : number -> jsstring;
  (** the [try] block that draws boxes and landmarks on the canvas: the
      canvas afterwards, and the data URL unless something threw *)
  drawFaces : Canvas.t -> list RawFace.t -> Canvas.t * option jsstring;
  (** the [TypeError] of reading a property of [undefined] *)
  typeError : Failure;
  (** the [IndexSizeError] of [getImageData] for a width or height of 0 *)
  indexSizeError : Failure
}.

(** The face-api task that line 196 hands to [Promise.resolve].  Building
    the task may throw.  Otherwise it is a thenable whose [then] takes the
    fulfilment handler only: it passes on what [run()] is fulfilled with,
    and calls nothing when [run()] rejects. *)
Inductive FaceTask :=
| Throws (e : Failure)
| Task (run : Outcome (list RawFace.t)).

(** Everything one call of [analyzeImageLocal] receives from outside. *)
Record Inputs := {
  (** [modelsLoaded], or else the outcome of [initModels()] *)
  modelsReady : Outcome unit;
  (** [loadImage(url)] followed by [getResizedCanvas] *)
  mlCanvas : Outcome Canvas.t;
  (** [objectModel], and what [detect] settles to *)
  objectModel : option (Outcome (list Detection.t));
  (** [sceneModel], and what [classify] settles to *)
  sceneModel : option (Outcome (list ScenePrediction.t));
  (** when both [detect] and [classify] reject: whether the rejection of
      [classify] comes first *)
  classifyRejectsFirst : bool;
  faceAnalyzer : FaceTask;
  (** the worker of tesseract.js for the language of the call *)
  textRecognizer : Language -> TextRecognizer.t
}.

(* ------------------------------------------------------------------ *)
(** ** [services/localAiService.ts] *)

Module LocalAi.

Definition categoryTranslations : list (jsstring * jsstring) :=
  map (fun kv => (lit (fst kv), lit (snd kv)))
  [ ("person", "osoba"); ("dog", "pies"); ("cat", "kot");
    ("car", "samochód"); ("motorcycle", "motocykl"); ("bus", "autobus");
    ("train", "pociąg"); ("truck", "ciężarówka"); ("boat", "łódź");
    ("traffic light", "sygnalizacja świetlna"); ("fire hydrant", "hydrant");
    ("stop", "znak stop"); ("parking meter", "parkometr");
    ("bench", "ławka"); ("bird", "ptak"); ("horse", "koń");
    ("sheep", "owca"); ("cow", "krowa"); ("elephant", "słoń");
    ("bear", "niedźwiedź"); ("zebra", "zebra"); ("giraffe", "żyrafa");
    ("backpack", "plecak"); ("umbrella", "parasol"); ("handbag", "torebka");
    ("tie", "krawat"); ("suitcase", "walizka"); ("frisbee", "frisbee");
    ("skis", "narty"); ("snowboard", "snowboard");
    ("sports ball", "piłka sportowa"); ("kite", "latawiec");
    ("baseball bat", "kij baseballowy"); ("baseball glove", "rękawica");
    ("skateboard", "deskorolka"); ("surfboard", "deska surfingowa");
    ("tennis racket", "rakieta"); ("bottle", "butelka");
    ("wine glass", "kieliszek"); ("cup", "kubek"); ("fork", "widelec");
    ("knife", "nóż"); ("spoon", "łyżka"); ("bowl", "miska");
    ("banana", "banan"); ("apple", "jabłko"); ("sandwich", "kanapka");
    ("orange", "pomarańcza"); ("broccoli", "brokuły");
    ("carrot", "marchewka"); ("hot dog", "hot dog"); ("pizza", "pizza");
    ("donut", "pączek"); ("cake", "ciasto"); ("chair", "krzesło");
    ("couch", "kanapa"); ("potted plant", "roślina doniczkowa");
    ("bed", "łóżko"); ("dining table", "stół"); ("toilet", "toaleta");
    ("tv", "telewizor"); ("laptop", "laptop"); ("mouse", "mysz");
    ("remote", "pilot"); ("keyboard", "klawiatura");
    ("cell phone", "telefon"); ("microwave", "mikrofalówka");
    ("oven", "piekarnik"); ("toaster", "toster"); ("sink", "zlew");
    ("refrigerator", "lodówka"); ("book", "książka"); ("clock", "zegar");
    ("vase", "wazon"); ("scissors", "nożyczki");
    ("teddy bear", "pluszowy miś"); ("hair drier", "suszarka");
    ("toothbrush", "szczoteczka") ]%string.

Definition sceneTranslations : list (jsstring * jsstring) :=
  map (fun kv => (lit (fst kv), lit (snd kv)))
  [ ("seashore", "wybrzeże / plaża"); ("lakeside", "nad jeziorem");
    ("mountain", "góry"); ("valley", "dolina"); ("forest", "las");
    ("library", "biblioteka"); ("office", "biuro");
    ("restaurant", "restauracja"); ("street", "ulica"); ("park", "park");
    ("garden", "ogród"); ("living room", "salon"); ("kitchen", "kuchnia");
    ("bedroom", "sypialnia"); ("classroom", "sala lekcyjna");
    ("gym", "siłownia"); ("hospital", "szpital") ]%string.

(** The [pl] and [en] renderings of an emotion. *)
Definition emotionTranslations : list (jsstring * (jsstring * jsstring)) :=
  map (fun kv => (lit (fst kv), (lit (fst (snd kv)), lit (snd (snd kv)))))
  [ ("neutral", ("Neutralny", "Neutral")); ("happy", ("Radość", "Happy"));
    ("sad", ("Smutek", "Sad")); ("angry", ("Gniew", "Angry"));
    ("fearful", ("Strach", "Fearful"));
    ("disgusted", ("Obrzydzenie", "Disgusted"));
    ("surprised", ("Zaskoczenie", "Surprised")) ]%string.

(** [table[k] || k], for the labels a detector can report (none of them
    is the name of a property that every object inherits). *)
Definition translate (table : list (jsstring * jsstring)) (k : jsstring)
  : jsstring :=
  match lookup k table with
  | Some v => or_else v k
  | None => k
  end.

(** [emotionTranslations[e] || { pl: e, en: e }], read at [lang]. *)
Definition emotionLabel (lang : Language) (e : jsstring) : jsstring :=
  let emTrans := match lookup e emotionTranslations with
                 | Some t => t
                 | None => (e, e)
                 end in
  match lang with pl => fst emTrans | en => snd emTrans end.

(** *** [extractExifData] *)

(** The fields read from the object [exifr.parse] resolves to. *)
Inductive RawDate :=
| DateObject (localeString : jsstring)   (* a [Date], with its rendering *)
| DateString (s : jsstring)
| DateMissing.

Module RawExif.
Record t := {
  latitude : option number;
  longitude : option number;
  Make : option jsstring;
  Model : option jsstring;
  DateTimeOriginal : RawDate;
  ISO : option number;
  ExposureTime : option number;
  FNumber : option number
}.
End RawExif.

(** The [Partial<ImageAnalysis>] that [extractExifData] resolves to: [{}],
    or an object whose own keys are [exif] and [location], the latter
    possibly holding [undefined]. *)
Inductive ExifData :=
| NoExif
| Extracted (exif : Exif.t) (location : option Location.t).

Definition exifOf (d : ExifData) : option Exif.t :=
  match d with NoExif => None | Extracted e _ => Some e end.

Definition locationOf (d : ExifData) : option Location.t :=
  match d with NoExif => None | Extracted _ l => l end.

(** [`${n}`] for an integer: its decimal digits up to [2^53]; beyond, the
    host prints the shortest digits that read back as the same double, and
    from [10^21] on in exponent form. *)
Definition integerToString (h : Host) (z : Z) : jsstring :=
  if Z.abs z <=? 2 ^ 53 then ofInteger z else numberToString h (inject_Z z).

(** [1 / e] in binary64; the zero of a number is the positive one. *)
Definition reciprocal (e : number) : binary64 :=
  if Qeq_bool e 0%Q then Infinity true else toBinary64 (1 / e)%Q.

Definition exposureString (h : Host) (e : number) : jsstring :=
  if ltb e 1%Q then
    lit "1/" ++ match reciprocal e with
                | Finite r => integerToString h (round r)
                | Infinity true => lit "Infinity"
                | Infinity false => lit "-Infinity"
                end
  else numberToString h e.

Definition extractExifData (h : Host)
    (parsed : Outcome (option RawExif.t)) : ExifData :=
  match parsed with
  | Rejected _ => NoExif
  | Fulfilled None => NoExif
  | Fulfilled (Some output) =>
      Extracted
        {| Exif.make := RawExif.Make output;
           Exif.model := RawExif.Model output;
           Exif.dateTime :=
             Some match RawExif.DateTimeOriginal output with
                  | DateObject s => s
                  | DateString s => s
                  | DateMissing => []
                  end;
           Exif.iso := RawExif.ISO output;
           Exif.exposureTime :=
             option_map (exposureString h) (RawExif.ExposureTime output);
           Exif.fNumber :=
             match RawExif.FNumber output with
             | Some f => if Qeq_bool f 0%Q then None
                         else Some (lit "f/" ++ numberToString h f)
             | None => None
             end |}
        match RawExif.latitude output, RawExif.longitude output with
        | Some latitude, Some longitude =>
            Some {| Location.lat := latitude; Location.lng := longitude |}
        | _, _ => None
        end
  end.

(** *** [performOCR] *)

Definition polishLetters : jsstring := lit "ąęćłńóśźżĄĘĆŁŃÓŚŹŻ".

(** The complement of the class replaced by the regular expression. *)
Definition alphaNumeric (c : N) : bool :=
  ((97 <=? c) && (c <=? 122) || (65 <=? c) && (c <=? 90)
   || (48 <=? c) && (c <=? 57))%N
  || existsb (N.eqb c) polishLetters.

Definition lengthOf (s : jsstring) : number :=
  inject_Z (Z.of_nat (List.length s)).

Definition keepLine (line : jsstring) : option jsstring :=
  let trimmedLine := trim line in
  if negb (truthy trimmedLine) then None
  else
    let alphaNumOnly := filter alphaNumeric trimmedLine in
    if geb (lengthOf alphaNumOnly) 2%Q
       && geb (lengthOf alphaNumOnly / lengthOf trimmedLine)%Q 0.3%Q
    then Some trimmedLine
    else None.

(** [lines.map(...).filter(Boolean)] *)
Fixpoint filteredLines (lines : list jsstring) : list jsstring :=
  match lines with
  | [] => []
  | line :: lines' =>
      match keepLine line with
      | Some l => if truthy l then l :: filteredLines lines'
                  else filteredLines lines'
      | None => filteredLines lines'
      end
  end.

Definition cleanText (text : jsstring) : jsstring :=
  let lines := split LF text in
  let cleanedText := trim (join [LF] (filteredLines lines)) in
  if geb (lengthOf cleanedText) 3%Q then cleanedText else [].

Definition performOCR (tr : TextRecognizer.t) : jsstring :=
  match (_ <- TextRecognizer.createWorker tr ;;
         text <- TextRecognizer.recognize tr ;;
         _ <- TextRecognizer.terminate tr ;;
         Fulfilled (cleanText text)) with
  | Fulfilled s => s
  | Rejected _ => []
  end.

(** *** [getDominantColors] *)

Definition channel (b : Byte.byte) : Z := Z.of_N (Byte.to_N b).

Definition hexOf (p : Pixel) : jsstring :=
  lit "#" ++ slice1 (toString16 (shl 1 24 + shl (channel (red p)) 16
                                 + shl (channel (green p)) 8
                                 + channel (blue p))).

(** The pixels at byte offsets [0], [4000], [8000], ...: [skip] pixels are
    passed over before the next one is taken. *)
Fixpoint everyFrom (skip : nat) (data : list Pixel) : list Pixel :=
  match data with
  | [] => []
  | p :: data' =>
      match skip with
      | O => p :: everyFrom 999 data'
      | S skip' => everyFrom skip' data'
      end
  end.

Definition sampled (data : list Pixel) : list Pixel := everyFrom 0 data.

(** [colors[hex] = (colors[hex] || 0) + 1] on an object whose entries are
    kept in insertion order. *)
Fixpoint bump (hex : jsstring) (colors : list (jsstring * Z))
  : list (jsstring * Z) :=
  match colors with
  | [] => [(hex, 0 + 1)]
  | (k, n) :: colors' =>
      if eqb hex k then (k, (if n =? 0 then 0 else n) + 1) :: colors'
      else (k, n) :: bump hex colors'
  end.

Definition tally (hexes : list jsstring) : list (jsstring * Z) :=
  fold_left (fun colors hex => bump hex colors) hexes [].

Definition byCountDescending (a b : jsstring * Z) : number :=
  inject_Z (snd b - snd a).

(** Lines 333-346.  [getImageData] throws for a canvas without pixels. *)
Definition getDominantColors (h : Host) (canvas : Canvas.t)
  : Outcome (list jsstring) :=
  match Canvas.imageData canvas with
  | None => Fulfilled [lit "#000000"]
  | Some [] => Rejected (indexSizeError h)
  | Some imageData =>
      let colors := tally (map hexOf (sampled imageData)) in
      Fulfilled (map fst (firstn 3 (sort byCountDescending colors)))
  end.

(** *** [analyzeImageLocal] *)

(** Lines 226-232: the position of a face from its box and the width of the
    analysis canvas, in binary64: [box.x + (box.width / 2)] is rounded
    twice, [imageWidth * 0.33] and [imageWidth * 0.66] once, the two
    literals being the doubles nearest to them. *)
Definition centerX (box : Box.t) : binary64 :=
  match toBinary64 (Box.width box / 2)%Q with
  | Finite half => toBinary64 (Box.x box + half)%Q
  | Infinity s => Infinity s
  end.

Definition positionOf (box : Box.t) (imageWidth : number) : Position :=
  if lt64 (centerX box) (toBinary64 (imageWidth * nearest 0.33)%Q)
  then PosLeft
  else if lt64 (toBinary64 (imageWidth * nearest 0.66)%Q) (centerX box)
       then PosRight
       else PosCenter.

(** The same test on the doubles of the kernel, to run it on concrete
    numbers; the two literals are the doubles nearest to 0.33 and 0.66. *)
Definition positionOf64 (x width imageWidth : PrimFloat.float) : Position :=
  let centerX := PrimFloat.add x (PrimFloat.div width 2%float) in
  if PrimFloat.ltb centerX
       (PrimFloat.mul imageWidth 0x1.51eb851eb851fp-2%float)
  then PosLeft
  else if PrimFloat.ltb
            (PrimFloat.mul imageWidth 0x1.51eb851eb851fp-1%float) centerX
       then PosRight
       else PosCenter.

Definition byScoreDescending (a b : jsstring * number) : number :=
  (snd b - snd a)%Q.

(** Lines 235-242.  Reading [sortedEmotions[0][0]] of an object without
    entries throws. *)
Definition topEmotion (h : Host)
    (expressions : option (list (jsstring * number)))
  : Outcome (jsstring * number) :=
  match expressions with
  | None => Fulfilled (lit "neutral", 0%Q)
  | Some entries =>
      match sort byScoreDescending entries with
      | first :: _ => Fulfilled first
      | [] => Rejected (typeError h)
      end
  end.

Definition faceDetail (h : Host) (imageWidth : N) (fd : RawFace.t)
  : Outcome FaceDetail.t :=
  let box := RawFace.box fd in
  let position := positionOf box (ofN imageWidth) in
  top <- topEmotion h (RawFace.expressions fd) ;;
  Fulfilled {| FaceDetail.age := round (RawFace.age fd);
               FaceDetail.gender := RawFace.gender fd;
               FaceDetail.genderProbability := RawFace.genderProbability fd;
               FaceDetail.emotion := fst top;
               FaceDetail.emotionScore := snd top;
               FaceDetail.position := position;
               FaceDetail.box := box |}.

(** The [forEach] that pushes one [FaceDetail] per detection, in order. *)
Fixpoint collectFaces (h : Host) (imageWidth : N)
    (faceDetections : list RawFace.t) : Outcome (list FaceDetail.t) :=
  match faceDetections with
  | [] => Fulfilled []
  | fd :: rest =>
      face <- faceDetail h imageWidth fd ;;
      faces <- collectFaces h imageWidth rest ;;
      Fulfilled (face :: faces)
  end.

Definition byBoxX (a b : FaceDetail.t) : number :=
  (Box.x (FaceDetail.box a) - Box.x (FaceDetail.box b))%Q.

Definition isMale (gender : jsstring) : bool := eqb gender (lit "male").

Definition sumOfAges (faces : list FaceDetail.t) : Z :=
  fold_left (fun acc curr => acc + FaceDetail.age curr) faces 0.

Definition countOf {A} (l : list A) : Z := Z.of_nat (List.length l).

(** Lines 265-278 *)
Definition ageSummary (lang : Language) (faces : list FaceDetail.t)
  : jsstring :=
  match faces with
  | [] => []
  | firstFace :: _ =>
      let avgAge := (inject_Z (sumOfAges faces) / inject_Z (countOf faces))%Q in
      let genderTrans :=
        if isMale (FaceDetail.gender firstFace)
        then match lang with pl => lit "Mężczyzna" | en => lit "Male" end
        else match lang with pl => lit "Kobieta" | en => lit "Female" end in
      match lang with
      | pl =>
          (if 1 <? countOf faces
           then lit "Wykryto " ++ ofInteger (countOf faces) ++ lit " twarze. "
           else [])
          ++ lit "Osoba ok. " ++ ofInteger (round avgAge) ++ lit " lat ("
          ++ genderTrans ++ lit ")"
      | en =>
          (if 1 <? countOf faces
           then lit "Detected " ++ ofInteger (countOf faces) ++ lit " faces. "
           else [])
          ++ lit "Person approx. " ++ ofInteger (round avgAge)
          ++ lit " years (" ++ genderTrans ++ lit ")"
      end
  end.

(** Lines 266, 280-285 *)
Definition emotionSummary (lang : Language) (faces : list FaceDetail.t)
  : jsstring :=
  match faces with
  | [] => []
  | firstFace :: _ =>
      if gtb (FaceDetail.emotionScore firstFace) 0.1%Q
      then emotionLabel lang (FaceDetail.emotion firstFace) ++ lit " ("
           ++ ofInteger (round (FaceDetail.emotionScore firstFace * 100)%Q)
           ++ lit "%)"
      else []
  end.

(** Lines 303-313 *)
Definition faceDesc (lang : Language) (f : FaceDetail.t) : jsstring :=
  let g := if isMale (FaceDetail.gender f)
           then match lang with pl => lit "Mężczyzna" | en => lit "Man" end
           else match lang with pl => lit "Kobieta" | en => lit "Woman" end in
  let p := match FaceDetail.position f with
           | PosLeft =>
               match lang with pl => lit "po lewej" | en => lit "on left" end
           | PosRight =>
               match lang with pl => lit "po prawej" | en => lit "on right" end
           | PosCenter =>
               match lang with pl => lit "w środku" | en => lit "center" end
           end in
  let e := emotionLabel lang (FaceDetail.emotion f) in
  g ++ lit " (" ++ p ++ lit ", " ++ e ++ lit ")".

(** Lines 291-316 *)
Definition describe (lang : Language) (scenery : jsstring)
    (detections : list Detection.t) (objects : list jsstring)
    (faces : list FaceDetail.t) : jsstring :=
  let sceneStr := match lang with
                  | pl => lit "Sceneria: " ++ scenery ++ lit ". "
                  | en => lit "Scene: " ++ scenery ++ lit ". "
                  end in
  let objStr :=
    match objects with
    | [] => []
    | _ :: _ =>
        match lang with
        | pl => lit "Wykryto: " ++ join (lit ", ") (fromSet objects)
                ++ lit ". "
        | en => lit "Detected: "
                ++ join (lit ", ") (fromSet (map Detection.class detections))
                ++ lit ". "
        end
    end in
  let faceStr :=
    match faces with
    | [] => []
    | _ :: _ =>
        let faceDescs := map (faceDesc lang) faces in
        match lang with
        | pl => lit "Twarze: " ++ join (lit "; ") faceDescs ++ lit "."
        | en => lit "Faces: " ++ join (lit "; ") faceDescs ++ lit "."
        end
    end in
  sceneStr ++ objStr ++ faceStr.

(** [l.charAt(0).toUpperCase() + l.slice(1)] *)
Definition capitalize (h : Host) (l : jsstring) : jsstring :=
  toUpperCase h (charAt0 l) ++ slice1 l.

Definition COMMA : N := 44.

(** [scenePredictions[0]?.className.split(',')[0].toLowerCase() || ""] *)
Definition topSceneOf (h : Host) (scenePredictions : list ScenePrediction.t)
  : jsstring :=
  match scenePredictions with
  | first :: _ =>
      or_else
        (toLowerCase h (hd [] (split COMMA (ScenePrediction.className first))))
        []
  | [] => []
  end.

(** [scenePredictions[0]?.probability || 0.8] *)
Definition confidenceOf (scenePredictions : list ScenePrediction.t) : number :=
  match scenePredictions with
  | first :: _ =>
      if Qeq_bool (ScenePrediction.probability first) 0%Q then 0.8%Q
      else ScenePrediction.probability first
  | [] => 0.8%Q
  end.

(** Lines 209-223: the overlay is drawn on the analysis canvas itself, which
    is the canvas the colours are sampled from afterwards. *)
Definition markUp (h : Host) (mlCanvas : Canvas.t)
    (faceDetections : list RawFace.t) : Canvas.t * jsstring :=
  match faceDetections with
  | [] => (mlCanvas, [])
  | _ :: _ =>
      let (drawn, dataUrl) := drawFaces h mlCanvas faceDetections in
      (drawn, match dataUrl with Some u => u | None => [] end)
  end.

(** Lines 200-330: what is made of the four results once [Promise.all] is
    fulfilled. *)
Definition assemble (h : Host) (lang : Language) (mlCanvas : Canvas.t)
    (detections : list Detection.t)
    (scenePredictions : list ScenePrediction.t)
    (faceDetections : list RawFace.t) (ocrText : jsstring)
  : Outcome ImageAnalysis :=
  let objects :=
    map (fun d => translate categoryTranslations (Detection.class d))
        detections in
  let topScene := topSceneOf h scenePredictions in
  let scenery := translate sceneTranslations topScene in
  let imageWidth := Canvas.width mlCanvas in
  let (drawn, markedUpImageUrl) := markUp h mlCanvas faceDetections in
  pushed <- collectFaces h imageWidth faceDetections ;;
  let faces := sort byBoxX pushed in
  let ageEstimate := ageSummary lang faces in
  let emotionEstimate := emotionSummary lang faces in
  colors <- getDominantColors h drawn ;;
  let description := describe lang scenery detections objects faces in
  Fulfilled
    {| objects := objects;
       labels := map (capitalize h) (fromSet (scenery :: objects));
       description := description;
       confidenceScore := confidenceOf scenePredictions;
       dominantColors := colors;
       ageEstimate := Some ageEstimate;
       emotionEstimate := Some emotionEstimate;
       faces := Some faces;
       markedUpImageUrl := Some markedUpImageUrl;
       scenery := Some (capitalize h scenery);
       ocrText := if truthy ocrText then Some ocrText else None;
       exif := None;
       location := None |}.

(** Lines 193-198.  A throw while the face task is built leaves the
    function before [Promise.all] is called.  Otherwise [Promise.all]
    rejects with the rejection that comes first, whatever the other promises
    do, and is fulfilled once all four are; [performOCR] does not reject,
    and the promise made of the face task is fulfilled with the detections
    or stays pending, so that its [catch] handler has nothing to handle. *)
Definition promiseAll (i : Inputs) (ocrText : jsstring)
  : Promise (list Detection.t * list ScenePrediction.t * list RawFace.t
             * jsstring) :=
  let detect := match objectModel i with
                | Some detect => detect
                | None => Fulfilled []
                end in
  let classify := match sceneModel i with
                  | Some classify => classify
                  | None => Fulfilled []
                  end in
  match faceAnalyzer i with
  | Throws e => Rejected e
  | Task run =>
      match detect, classify with
      | Rejected e, Rejected e' =>
          Rejected (if classifyRejectsFirst i then e' else e)
      | Rejected e, Fulfilled _ => Rejected e
      | Fulfilled _, Rejected e' => Rejected e'
      | Fulfilled detections, Fulfilled scenePredictions =>
          match catch (resolveThenable run) [] with
          | Settled (Fulfilled faceDetections) =>
              Fulfilled (detections, scenePredictions, faceDetections,
                         ocrText)
          | Settled (Rejected e) => Rejected e
          | Pending => Pending
          end
      end
  end.

(** The aggregator. *)
Definition analyzeImageLocal (h : Host) (lang : Language) (i : Inputs)
  : Promise ImageAnalysis :=
  await (modelsReady i) (fun _ =>
  await (mlCanvas i) (fun mlCanvas =>
  await (promiseAll i (performOCR (textRecognizer i lang))) (fun results =>
  let '(detections, scenePredictions, faceDetections, ocrText) := results in
  Settled (assemble h lang mlCanvas detections scenePredictions
             faceDetections ocrText)))).

End LocalAi.

(* ------------------------------------------------------------------ *)
(** ** The record lifecycle of [App] *)

Module App.

Import LocalAi.

Definition sameId (recordId : jsstring) (img : ImageRecord.t) : bool :=
  eqb (ImageRecord.id img) recordId.

Definition withStatus (img : ImageRecord.t) (s : Status.t)
    (a : option ImageAnalysis) (e : option jsstring) : ImageRecord.t :=
  {| ImageRecord.id := ImageRecord.id img;
     ImageRecord.name := ImageRecord.name img;
     ImageRecord.url := ImageRecord.url img;
     ImageRecord.base64 := ImageRecord.base64 img;
     ImageRecord.mimeType := ImageRecord.mimeType img;
     ImageRecord.size := ImageRecord.size img;
     ImageRecord.status := s;
     ImageRecord.analysis := a;
     ImageRecord.error := e |}.

(** Lines 379-381 *)
Definition setAnalyzing (recordId : jsstring) (prev : list ImageRecord.t)
  : list ImageRecord.t :=
  map (fun img =>
         if sameId recordId img
         then withStatus img Status.analyzing (ImageRecord.analysis img) None
         else img) prev.

(** Lines 387-393 *)
Definition setCompleted (recordId : jsstring) (analysis : ImageAnalysis)
    (prev : list ImageRecord.t) : list ImageRecord.t :=
  map (fun img =>
         if sameId recordId img
         then withStatus img Status.completed (Some analysis) (ImageRecord.error img)
         else img) prev.

(** [error.message || t.unknownError] *)
Definition messageOf (unknownError : jsstring) (error : Failure) : jsstring :=
  match message error with
  | Some m => or_else m unknownError
  | None => unknownError
  end.

(** Lines 413-419 *)
Definition setError (unknownError : jsstring) (recordId : jsstring)
    (error : Failure) (prev : list ImageRecord.t) : list ImageRecord.t :=
  map (fun img =>
         if sameId recordId img
         then withStatus img Status.error (ImageRecord.analysis img)
                (Some (messageOf unknownError error))
         else img) prev.

(** [{ ...img.analysis, ...exifData }]: the own keys of [exifData] are
    written over those of the analysis, whatever they hold. *)
Definition spread (a : ImageAnalysis) (exifData : ExifData) : ImageAnalysis :=
  match exifData with
  | NoExif => a
  | Extracted e l =>
      {| objects := objects a;
         labels := labels a;
         description := description a;
         confidenceScore := confidenceScore a;
         dominantColors := dominantColors a;
         ageEstimate := ageEstimate a;
         emotionEstimate := emotionEstimate a;
         faces := faces a;
         markedUpImageUrl := markedUpImageUrl a;
         scenery := scenery a;
         ocrText := ocrText a;
         exif := Some e;
         location := l |}
  end.

(** [exifData.exif || exifData.location] *)
Definition hasMetadata (exifData : ExifData) : bool :=
  match exifOf exifData, locationOf exifData with
  | None, None => false
  | _, _ => true
  end.

(** Lines 397-409: the callback run when the background extraction
    resolves. *)
Definition mergeExif (recordId : jsstring) (exifData : ExifData)
    (prev : list ImageRecord.t) : list ImageRecord.t :=
  if hasMetadata exifData then
    map (fun img =>
           if negb (sameId recordId img) then img
           else match ImageRecord.analysis img with
                | None => img
                | Some a =>
                    withStatus img (ImageRecord.status img)
                      (Some (spread a exifData)) (ImageRecord.error img)
                end) prev
  else prev.

(** Lines 377-421, up to the start of the background extraction: [result] is
    the promise that [analyzeImageLocal] returned; while it is pending the
    function waits at line 384. *)
Definition analyzeSingleRecord (unknownError : jsstring)
    (recordId : jsstring) (result : Promise ImageAnalysis)
    (images : list ImageRecord.t) : list ImageRecord.t :=
  let started := setAnalyzing recordId images in
  match result with
  | Settled (Fulfilled analysis) => setCompleted recordId analysis started
  | Settled (Rejected error) => setError unknownError recordId error started
  | Pending => started
  end.

(** Line 481 *)
Definition clearAll (images : list ImageRecord.t) : list ImageRecord.t := [].

End App.

(* ------------------------------------------------------------------ *)
(** ** Sample inputs *)

Module Demo.

Import LocalAi.

(** A host whose case mapping knows the ASCII letters only. *)
Definition upper (s : jsstring) : jsstring :=
  map (fun c => if ((97 <=? c) && (c <=? 122))%N then (c - 32)%N else c) s.

Definition lower (s : jsstring) : jsstring :=
  map (fun c => if ((65 <=? c) && (c <=? 90))%N then (c + 32)%N else c) s.

Definition host : Host :=
  {| toUpperCase := upper;
     toLowerCase := lower;
     numberToString := fun n => ofInteger (Qfloor n);
     drawFaces := fun canvas _ => (canvas, Some (lit "data:image/jpeg;base64,"));
     typeError :=
       {| message := Some (lit "Cannot read properties of undefined") |};
     indexSizeError :=
       {| message := Some (lit "The source width is 0.") |} |}.

Definition px (r g b : Byte.byte) : Pixel :=
  {| red := r; green := g; blue := b; alpha := Byte.xff |}.

(** 3001 pixels: a thousand red ones, two thousand blue ones and a green
    one, so that the sample is red, blue, blue, green. *)
Definition stripes : list Pixel :=
  repeat (px Byte.xff Byte.x00 Byte.x00) 1000
  ++ repeat (px Byte.x00 Byte.x00 Byte.xff) 2000
  ++ [px Byte.x00 Byte.xff Byte.x00].

Definition striped : Canvas.t :=
  {| Canvas.width := 3001; Canvas.imageData := Some stripes |}.

Definition canvas (w : N) : Canvas.t :=
  {| Canvas.width := w;
     Canvas.imageData := Some [px Byte.xff Byte.x00 Byte.x00] |}.

Definition score (emotion : string) (p : number) : jsstring * number :=
  (lit emotion, p).

Definition rawFace (x w age : number) (gender : string)
    (expressions : list (jsstring * number)) : RawFace.t :=
  {| RawFace.box := {| Box.x := x; Box.y := 10; Box.width := w;
                       Box.height := 50 |};
     RawFace.age := age;
     RawFace.gender := lit gender;
     RawFace.genderProbability := 0.9;
     RawFace.expressions := Some expressions |}%Q.

Definition worker (text : string) : TextRecognizer.t :=
  {| TextRecognizer.createWorker := Fulfilled tt;
     TextRecognizer.recognize := Fulfilled (lit text);
     TextRecognizer.terminate := Fulfilled tt |}.

Definition boom : Failure := {| message := Some (lit "detector failed") |}.

(** A face task that delivers its detections. *)
Definition detects (fds : list RawFace.t) : FaceTask := Task (Fulfilled fds).

Definition dog : Detection.t :=
  {| Detection.class := lit "dog"; Detection.score := 0.9%Q |}.

Definition park : ScenePrediction.t :=
  {| ScenePrediction.className := lit "park";
     ScenePrediction.probability := 0.7%Q |}.

(** A recognition with two lines of noise among three lines of text. *)
Definition noisy : jsstring :=
  lit "  EXIT 12 " ++ [LF] ++ lit "~~ | ~~" ++ [LF] ++ lit "a" ++ [LF]
  ++ lit "Wyjście" ++ [LF] ++ lit "" ++ [LF] ++ lit "--ab--".

Definition noisyText : Inputs :=
  {| modelsReady := Fulfilled tt;
     mlCanvas := Fulfilled (canvas 600);
     objectModel := Some (Fulfilled [dog]);
     sceneModel := Some (Fulfilled [park]);
     classifyRejectsFirst := false;
     faceAnalyzer := detects [];
     textRecognizer := fun _ =>
       {| TextRecognizer.createWorker := Fulfilled tt;
          TextRecognizer.recognize := Fulfilled noisy;
          TextRecognizer.terminate := Fulfilled tt |} |}.

(** An image of three colours, without faces. *)
Definition stripedImage : Inputs :=
  {| modelsReady := Fulfilled tt;
     mlCanvas := Fulfilled striped;
     objectModel := Some (Fulfilled [dog]);
     sceneModel := Some (Fulfilled [park]);
     classifyRejectsFirst := false;
     faceAnalyzer := detects [];
     textRecognizer := fun _ => worker "" |}.

(** The recognition itself rejects. *)
Definition recognitionFails : Inputs :=
  {| modelsReady := Fulfilled tt;
     mlCanvas := Fulfilled (canvas 600);
     objectModel := Some (Fulfilled [dog]);
     sceneModel := Some (Fulfilled [park]);
     classifyRejectsFirst := false;
     faceAnalyzer := detects [];
     textRecognizer := fun _ =>
       {| TextRecognizer.createWorker := Fulfilled tt;
          TextRecognizer.recognize := Rejected boom;
          TextRecognizer.terminate := Fulfilled tt |} |}.

(** Two faces at [x = 500] and [x = 100] on a canvas 600 wide. *)
Definition twoFaces : Inputs :=
  {| modelsReady := Fulfilled tt;
     mlCanvas := Fulfilled (canvas 600);
     objectModel := Some (Fulfilled [dog]);
     sceneModel := Some (Fulfilled [park]);
     classifyRejectsFirst := false;
     faceAnalyzer :=
       detects [ rawFace 500 50 (61 # 2) "female"
                     [score "neutral" 0.2; score "happy" 0.7];
                   rawFace 100 50 41 "male"
                     [score "neutral" 0.05; score "sad" 0.05] ]%Q;
     textRecognizer := fun _ => worker "EXIT 12" |}.

(** One face whose centre, [23 + 20 / 2], is [0.33] of a width of 100. *)
Definition boundaryFace : Inputs :=
  {| modelsReady := Fulfilled tt;
     mlCanvas := Fulfilled (canvas 100);
     objectModel := Some (Fulfilled [dog]);
     sceneModel := Some (Fulfilled [park]);
     classifyRejectsFirst := false;
     faceAnalyzer := detects [ rawFace 23 20 30 "male" [score "happy" 0.9] ]%Q;
     textRecognizer := fun _ => worker "" |}.

(** The face task fails when it is run; the other three providers
    answer. *)
Definition faceAnalyzerFails : Inputs :=
  {| modelsReady := Fulfilled tt;
     mlCanvas := Fulfilled (canvas 600);
     objectModel := Some (Fulfilled [dog]);
     sceneModel := Some (Fulfilled [park]);
     classifyRejectsFirst := false;
     faceAnalyzer := Task (Rejected boom);
     textRecognizer := fun _ => worker "EXIT 12" |}.

(** Building the face task throws; the other three providers answer. *)
Definition faceAnalyzerThrows : Inputs :=
  {| modelsReady := Fulfilled tt;
     mlCanvas := Fulfilled (canvas 600);
     objectModel := Some (Fulfilled [dog]);
     sceneModel := Some (Fulfilled [park]);
     classifyRejectsFirst := false;
     faceAnalyzer := Throws boom;
     textRecognizer := fun _ => worker "EXIT 12" |}.

(** The object detector rejects; the other three providers answer. *)
Definition objectDetectorFails : Inputs :=
  {| modelsReady := Fulfilled tt;
     mlCanvas := Fulfilled (canvas 600);
     objectModel := Some (Rejected boom);
     sceneModel := Some (Fulfilled [park]);
     classifyRejectsFirst := false;
     faceAnalyzer := detects [];
     textRecognizer := fun _ => worker "EXIT 12" |}.

(** The scene classifier rejects; the other three providers answer. *)
Definition sceneClassifierFails : Inputs :=
  {| modelsReady := Fulfilled tt;
     mlCanvas := Fulfilled (canvas 600);
     objectModel := Some (Fulfilled [dog]);
     sceneModel := Some (Rejected boom);
     classifyRejectsFirst := false;
     faceAnalyzer := detects [];
     textRecognizer := fun _ => worker "EXIT 12" |}.

Definition record (id : string) (s : Status.t) (a : option ImageAnalysis)
  : ImageRecord.t :=
  {| ImageRecord.id := lit id;
     ImageRecord.name := lit "photo.jpg";
     ImageRecord.url := lit "blob:photo";
     ImageRecord.base64 := [];
     ImageRecord.mimeType := lit "image/jpeg";
     ImageRecord.size := 1024%Q;
     ImageRecord.status := s;
     ImageRecord.analysis := a;
     ImageRecord.error := None |}.

Definition analysis : ImageAnalysis :=
  {| objects := [lit "pies"];
     labels := [lit "Park"; lit "Pies"];
     description := lit "Sceneria: park. Wykryto: pies. ";
     confidenceScore := 0.7%Q;
     dominantColors := [lit "#ff0000"];
     ageEstimate := Some [];
     emotionEstimate := Some [];
     faces := Some [];
     markedUpImageUrl := Some [];
     scenery := Some (lit "Park");
     ocrText := None;
     exif := None;
     location := None |}.

(** What [exifr] reads from a file with camera fields and a GPS position,
    and from one with camera fields only. *)
Definition rawWithGps : RawExif.t :=
  {| RawExif.latitude := Some (521 # 10);
     RawExif.longitude := Some 21%Q;
     RawExif.Make := Some (lit "Canon");
     RawExif.Model := Some (lit "EOS");
     RawExif.DateTimeOriginal := DateString (lit "2024-05-01");
     RawExif.ISO := Some 100%Q;
     RawExif.ExposureTime := Some (nearest (1 # 250));
     RawExif.FNumber := Some 4%Q |}.

Definition rawWithoutGps : RawExif.t :=
  {| RawExif.latitude := None;
     RawExif.longitude := None;
     RawExif.Make := Some (lit "Canon");
     RawExif.Model := Some (lit "EOS");
     RawExif.DateTimeOriginal := DateString (lit "2024-05-01");
     RawExif.ISO := Some 100%Q;
     RawExif.ExposureTime := Some (nearest (1 # 250));
     RawExif.FNumber := Some 4%Q |}.

Definition withGps : ExifData :=
  extractExifData host (Fulfilled (Some rawWithGps)).

Definition withoutGps : ExifData :=
  extractExifData host (Fulfilled (Some rawWithoutGps)).

(** An analysis that already carries a location. *)
Definition located : ImageAnalysis := App.spread analysis withGps.

Definition unknownError : jsstring := lit "Unknown error".

End Demo.

(* ------------------------------------------------------------------ *)
(** ** Vocabulary of the statements *)

Module Spec.

Import LocalAi.

(** A summary field is present when it is not the empty string. *)
Definition present (s : option jsstring) : Prop :=
  exists t, s = Some t /\ t <> [].

(** Ascending order of the box abscissae. *)
Definition leftOf (a b : FaceDetail.t) : Prop :=
  (Box.x (FaceDetail.box a) <= Box.x (FaceDetail.box b))%Q.

(** The centre of a box, exactly. *)
Definition centre (box : Box.t) : Q := (Box.x box + Box.width box / 2)%Q.

(** A size that is far from the overflow of binary64. *)
Definition moderate (q : Q) : Prop := (Qabs q <= pow2 1000)%Q.

(** What the roundings of lines 227-232 can make of the comparison of the
    centre with a threshold: [2^-50] of the sizes that enter it. *)
Definition margin (box : Box.t) (imageWidth : number) : Q :=
  ((Qabs (Box.x box) + Qabs (Box.width box) + imageWidth)
   * (1 # 1125899906842624))%Q.

(** What the provider returned when it answered, nothing otherwise. *)
Definition detectedFaces (i : Inputs) : list RawFace.t :=
  match faceAnalyzer i with
  | Task (Fulfilled fds) => fds
  | Task (Rejected _) | Throws _ => []
  end.

(** A hex colour: [#] followed by six lower-case hexadecimal digits. *)
Definition isHexDigit (c : N) : bool :=
  ((48 <=? c) && (c <=? 57) || (97 <=? c) && (c <=? 102))%N.

Definition isHexColor (s : jsstring) : bool :=
  match s with
  | c :: digits =>
      (c =? 35)%N && (List.length digits =? 6)%nat && forallb isHexDigit digits
  | [] => false
  end.

(** How often a colour occurs in the sample, and where it occurs first. *)
Definition occurrences (sample : list jsstring) (hex : jsstring) : nat :=
  List.length (filter (eqb hex) sample).

Fixpoint firstAt (hex : jsstring) (sample : list jsstring) : nat :=
  match sample with
  | [] => O
  | h :: sample' => if eqb hex h then O else S (firstAt hex sample')
  end.

(** [a] is ranked before [b]: it is more frequent in the sample, or as
    frequent and encountered first. *)
Definition outranks (sample : list jsstring) (a b : jsstring) : Prop :=
  (occurrences sample b < occurrences sample a)%nat \/
  (occurrences sample a = occurrences sample b /\
   firstAt a sample < firstAt b sample)%nat.

(** Membership, decided by the string comparison of the program. *)
Definition inb (h : jsstring) (l : list jsstring) : bool :=
  existsb (eqb h) l.

(** The entry of a colour in the tally. *)
Definition entry (sample : list jsstring) (k : jsstring) : jsstring * Z :=
  (k, Z.of_nat (occurrences sample k)).

(** All sampled colours, ranked. *)
Definition ranking (sample : list jsstring) : list jsstring :=
  map fst (sort byCountDescending (tally sample)).

(** A line as the text filter retains it: trimmed, not empty, with at least
    two alphanumeric code units that make up at least 30% of it. *)
Definition alphaNumCount (line : jsstring) : nat :=
  List.length (filter alphaNumeric line).

Definition retained (line : jsstring) : Prop :=
  line <> [] /\ trim line = line /\
  (2 <= alphaNumCount line)%nat /\
  (3 * List.length line <= 10 * alphaNumCount line)%nat.

(** A string that [trim] leaves alone at its start, at its end. *)
Definition startsClean (s : jsstring) : Prop :=
  match s with
  | c :: _ => isWhiteSpace c = false
  | [] => False
  end.

Definition endsClean (s : jsstring) : Prop := startsClean (rev s).

(** Some awaited call of the text recognizer rejects. *)
Definition ocrFails (tr : TextRecognizer.t) : Prop :=
  (exists e, TextRecognizer.createWorker tr = Rejected e) \/
  (exists e, TextRecognizer.recognize tr = Rejected e) \/
  (exists e, TextRecognizer.terminate tr = Rejected e).

(** The average of the (rounded) ages of a face sequence. *)
Definition averageAge (fs : list FaceDetail.t) : number :=
  (inject_Z (fold_right Z.add 0%Z (map FaceDetail.age fs))
   / inject_Z (Z.of_nat (List.length fs)))%Q.

(** The sentence of the age summary, after the optional face count. *)
Definition ageSentence (lang : Language) (age : Z) (male : bool) : jsstring :=
  match lang with
  | pl => lit "Osoba ok. " ++ ofInteger age ++ lit " lat ("
          ++ (if male then lit "Mężczyzna" else lit "Kobieta") ++ lit ")"
  | en => lit "Person approx. " ++ ofInteger age ++ lit " years ("
          ++ (if male then lit "Male" else lit "Female") ++ lit ")"
  end.

(** The score a raw face reports for its strongest expression: an entry of
    the distribution that no other entry exceeds, or [neutral] with score 0
    when the face has no distribution. *)
Definition topOf (fd : RawFace.t) (emotion : jsstring) (score : number)
  : Prop :=
  match RawFace.expressions fd with
  | Some entries =>
      In (emotion, score) entries /\
      Forall (fun entry => (snd entry <= score)%Q) entries
  | None => emotion = lit "neutral" /\ score = 0%Q
  end.

(** The record set with every record of that identity removed. *)
Definition without (recordId : jsstring) (images : list ImageRecord.t)
  : list ImageRecord.t :=
  filter (fun img => negb (App.sameId recordId img)) images.

(** Two records that differ at most in status, analysis and error. *)
Definition sameUpload (img img' : ImageRecord.t) : Prop :=
  ImageRecord.id img' = ImageRecord.id img /\
  ImageRecord.name img' = ImageRecord.name img /\
  ImageRecord.url img' = ImageRecord.url img /\
  ImageRecord.base64 img' = ImageRecord.base64 img /\
  ImageRecord.mimeType img' = ImageRecord.mimeType img /\
  ImageRecord.size img' = ImageRecord.size img.

(** What the handling of a failure makes of a record: a record of that
    identity is put in [error] with the message of the failure, any other
    record is left alone; the analysis is kept either way. *)
Definition failed (unknownError recordId : jsstring) (err : Failure)
    (img img' : ImageRecord.t) : Prop :=
  sameUpload img img' /\
  ImageRecord.analysis img' = ImageRecord.analysis img /\
  (ImageRecord.id img = recordId ->
   ImageRecord.status img' = Status.error /\
   ImageRecord.error img' = Some (App.messageOf unknownError err)) /\
  (ImageRecord.id img <> recordId -> img' = img).

(** Two analyses that differ at most in [exif] and [location]. *)
Definition sameVisualFields (a a' : ImageAnalysis) : Prop :=
  objects a' = objects a /\
  labels a' = labels a /\
  description a' = description a /\
  confidenceScore a' = confidenceScore a /\
  dominantColors a' = dominantColors a /\
  ageEstimate a' = ageEstimate a /\
  emotionEstimate a' = emotionEstimate a /\
  faces a' = faces a /\
  markedUpImageUrl a' = markedUpImageUrl a /\
  scenery a' = scenery a /\
  ocrText a' = ocrText a.

End Spec.

(* ------------------------------------------------------------------ *)
(** ** The model loader of [localAiService.ts] *)

Module Models.
Section Loader.
Context {ObjectDetection MobileNet : Type}.

(** Lines 10-12: the module-level variables. *)
Record State := {
  objectModel : option ObjectDetection;
  sceneModel : option MobileNet;
  modelsLoaded : bool
}.

Definition initial : State :=
  {| objectModel := None; sceneModel := None; modelsLoaded := false |}.

(** What the awaited calls of [initModels] settle to: [tf.ready()], whether
    [tf.getBackend()] is ['webgl'], [tf.setBackend('webgl')],
    [cocoSsd.load()], [mobilenet.load(...)], and the [Promise.all] of the four
    face-api networks. *)
Record Loads := {
  tfReady : Outcome unit;
  backendIsWebgl : bool;
  setBackend : Outcome unit;
  cocoSsdLoad : Outcome ObjectDetection;
  mobilenetLoad : Outcome MobileNet;
  faceNets : Outcome unit
}.

(** Lines 58-87.  A failing [setBackend] is caught and only logged; any
    other failure is logged and thrown again, after the assignments that
    preceded it. *)
Definition initModels (st : State) (l : Loads) : State * Outcome unit :=
  if modelsLoaded st then (st, Fulfilled tt)
  else
    match tfReady l with
    | Rejected error => (st, Rejected error)
    | Fulfilled _ =>
        match cocoSsdLoad l with
        | Rejected error => (st, Rejected error)
        | Fulfilled om =>
            let st1 := {| objectModel := Some om;
                          sceneModel := sceneModel st;
                          modelsLoaded := modelsLoaded st |} in
            match mobilenetLoad l with
            | Rejected error => (st1, Rejected error)
            | Fulfilled sm =>
                let st2 := {| objectModel := objectModel st1;
                              sceneModel := Some sm;
                              modelsLoaded := modelsLoaded st1 |} in
                match faceNets l with
                | Rejected error => (st2, Rejected error)
                | Fulfilled _ =>
                    ({| objectModel := objectModel st2;
                        sceneModel := sceneModel st2;
                        modelsLoaded := true |}, Fulfilled tt)
                end
            end
        end
    end.

(** Line 161: [if (!modelsLoaded) await initModels()]. *)
Definition ensureModels (st : State) (l : Loads) : State * Outcome unit :=
  if negb (modelsLoaded st) then initModels st l else (st, Fulfilled tt).

(** A sequence of calls, each with what its loads settle to. *)
Definition afterCalls (st : State) (ls : list Loads) : State :=
  fold_left (fun st l => fst (ensureModels st l)) ls st.

End Loader.
Arguments State : clear implicits.
Arguments Loads : clear implicits.

(** The part of [Inputs] that a call of [analyzeImageLocal] takes from the
    loader: a model is what its [detect] or [classify] settles to on the
    canvas of that call. *)
Definition inputsOf
    (st : State (Outcome (list Detection.t))
                (Outcome (list ScenePrediction.t)))
    (l : Loads (Outcome (list Detection.t))
               (Outcome (list ScenePrediction.t)))
    (canvas : Outcome Canvas.t) (classifyFirst : bool) (faceTask : FaceTask)
    (tr : Language -> TextRecognizer.t) : Inputs :=
  let (st', ready) := ensureModels st l in
  Build_Inputs ready canvas (objectModel st') (sceneModel st') classifyFirst
    faceTask tr.

End Models.

(* ------------------------------------------------------------------ *)
(** ** The handlers of [App] *)

Module File.
Record t := { name : jsstring; type : jsstring; size : number }.
End File.

Module Controller.

Import LocalAi App.

(** The state of the component.  The [fileStore] map is written by
    [processFiles] and cleared by [clearAll] and never read; it is left out. *)
Record State := {
  images : list ImageRecord.t;
  selectedImageId : option jsstring;
  isProcessing : bool;
  isModelLoading : bool
}.

Definition initial : State :=
  {| images := []; selectedImageId := None; isProcessing := false;
     isModelLoading := true |}.

Definition withImages (st : State) (imgs : list ImageRecord.t) : State :=
  {| images := imgs;
     selectedImageId := selectedImageId st;
     isProcessing := isProcessing st;
     isModelLoading := isModelLoading st |}.

Definition withProcessing (st : State) (b : bool) : State :=
  {| images := images st;
     selectedImageId := selectedImageId st;
     isProcessing := b;
     isModelLoading := isModelLoading st |}.

(** Lines 365-375: [loadAi], with what [initModels()] settles to.  A failure
    is logged and the flag stays as it is. *)
Definition loadAi (init : Outcome unit) (st : State) : State :=
  match init with
  | Fulfilled _ =>
      {| images := images st;
         selectedImageId := selectedImageId st;
         isProcessing := isProcessing st;
         isModelLoading := false |}
  | Rejected _ => st
  end.

(** What the host hands out for the k-th record of a submission:
    [Math.random().toString(36).substr(2, 9)] and
    [URL.createObjectURL(file)]. *)
Definition Supply := nat -> jsstring * jsstring.

(** Lines 427-440 *)
Definition newRecord (file : File.t) (minted : jsstring * jsstring)
  : ImageRecord.t :=
  {| ImageRecord.id := fst minted;
     ImageRecord.name := File.name file;
     ImageRecord.url := snd minted;
     ImageRecord.base64 := [];
     ImageRecord.mimeType := File.type file;
     ImageRecord.size := File.size file;
     ImageRecord.status := Status.pending;
     ImageRecord.analysis := None;
     ImageRecord.error := None |}.

Fixpoint newRecordsFrom (k : nat) (supply : Supply) (files : list File.t)
  : list ImageRecord.t :=
  match files with
  | [] => []
  | file :: files' =>
      newRecord file (supply k) :: newRecordsFrom (S k) supply files'
  end.

(** The [for ... of] loops of lines 444-446 and 464-466: one attempt per
    record, one after the other; [run record] is what
    [analyzeImageLocal(record.url, lang)] settles to for that attempt. *)
Definition analyzeEach (unknownError : jsstring)
    (run : ImageRecord.t -> Outcome ImageAnalysis)
    (records : list ImageRecord.t) (imgs : list ImageRecord.t)
  : list ImageRecord.t :=
  fold_left
    (fun imgs record =>
       analyzeSingleRecord unknownError (ImageRecord.id record) (run record)
         imgs)
    records imgs.

(** Lines 423-449 *)
Definition processFiles (unknownError : jsstring)
    (run : ImageRecord.t -> Outcome ImageAnalysis) (supply : Supply)
    (files : list File.t) (st : State) : State :=
  if isModelLoading st then st
  else
    let newRecords := newRecordsFrom 0 supply files in
    let submitted := newRecords ++ images st in
    withProcessing
      (withImages st (analyzeEach unknownError run newRecords submitted))
      false.

(** [s.startsWith(prefix)] *)
Fixpoint startsWith (prefix s : jsstring) : bool :=
  match prefix, s with
  | [], _ => true
  | p :: prefix', c :: s' => (c =? p)%N && startsWith prefix' s'
  | _ :: _, [] => false
  end.

(** Lines 470-475 *)
Definition handleFileSelection (unknownError : jsstring)
    (run : ImageRecord.t -> Outcome ImageAnalysis) (supply : Supply)
    (files : list File.t) (st : State) : State :=
  let validFiles :=
    filter (fun f => startsWith (lit "image/") (File.type f)) files in
  match validFiles with
  | [] => st
  | _ :: _ => processFiles unknownError run supply validFiles st
  end.

(** [images.find(i => i.id === id)] *)
Fixpoint find (id : jsstring) (imgs : list ImageRecord.t)
  : option ImageRecord.t :=
  match imgs with
  | [] => None
  | img :: imgs' => if sameId id img then Some img else find id imgs'
  end.

(** Lines 451-457 *)
Definition handleRetry (unknownError : jsstring)
    (run : ImageRecord.t -> Outcome ImageAnalysis) (id : jsstring)
    (st : State) : State :=
  match find id (images st) with
  | None => st
  | Some record =>
      withProcessing
        (withImages st
           (analyzeSingleRecord unknownError id (run record) (images st)))
        false
  end.

Definition isError (img : ImageRecord.t) : bool :=
  match ImageRecord.status img with Status.error => true | _ => false end.

Definition isCompleted (img : ImageRecord.t) : bool :=
  match ImageRecord.status img with Status.completed => true | _ => false end.

(** Lines 459-468 *)
Definition handleRetryAllFailed (unknownError : jsstring)
    (run : ImageRecord.t -> Outcome ImageAnalysis) (st : State) : State :=
  let failedImages := filter isError (images st) in
  match failedImages with
  | [] => st
  | _ :: _ =>
      withProcessing
        (withImages st
           (analyzeEach unknownError run failedImages (images st)))
        false
  end.

(** Lines 477-484, with the answer to [window.confirm]. *)
Definition clearAll (confirmed : bool) (st : State) : State :=
  if confirmed then
    {| images := [];
       selectedImageId := None;
       isProcessing := isProcessing st;
       isModelLoading := isModelLoading st |}
  else st.

(** Line 486 *)
Definition hasFailedItems (st : State) : bool :=
  existsb isError (images st).

(** Line 363: [images.find(img => img.id === selectedImageId) || null] *)
Definition selectedImage (st : State) : option ImageRecord.t :=
  match selectedImageId st with
  | Some id => find id (images st)
  | None => None
  end.

(** Line 560: the number of completed records shown in the statistics. *)
Definition completedCount (st : State) : nat :=
  List.length (filter isCompleted (images st)).

End Controller.

(* ------------------------------------------------------------------ *)
(** ** What [AnalysisSidebar] and [ImageCard] show *)

Module AnalysisSidebar.

(** Truthiness of an optional string. *)
Definition shown (s : option jsstring) : option jsstring :=
  match s with
  | Some t => if truthy t then Some t else None
  | None => None
  end.

Definition isShown (s : option jsstring) : bool :=
  match shown s with Some _ => true | None => false end.

(** [!!record.analysis?.markedUpImageUrl] *)
Definition hasMarkup (record : ImageRecord.t) : bool :=
  match ImageRecord.analysis record with
  | Some a => isShown (markedUpImageUrl a)
  | None => false
  end.

(** [(hasMarkup && showMarkup) ? record.analysis?.markedUpImageUrl :
    record.url]; the optional string is [None] for [undefined]. *)
Definition displayUrl (record : ImageRecord.t) (showMarkup : bool)
  : option jsstring :=
  if hasMarkup record && showMarkup then
    match ImageRecord.analysis record with
    | Some a => markedUpImageUrl a
    | None => None
    end
  else Some (ImageRecord.url record).

(** The face section: the cards of the face sequence, or else the legacy
    summaries that are not empty, or else nothing. *)
Inductive FaceSection :=
| FaceCards (faces : list FaceDetail.t)
| LegacySummaries (age emotion : option jsstring)
| NoFaceSection.

Definition faceSection (a : ImageAnalysis) : FaceSection :=
  match faces a with
  | Some (face :: rest) => FaceCards (face :: rest)
  | _ =>
      if isShown (ageEstimate a) || isShown (emotionEstimate a)
      then LegacySummaries (shown (ageEstimate a)) (shown (emotionEstimate a))
      else NoFaceSection
  end.

(** [exif && (exif.make || exif.model)] *)
Definition showsExif (a : ImageAnalysis) : bool :=
  match exif a with
  | Some e => isShown (Exif.make e) || isShown (Exif.model e)
  | None => false
  end.

(** [record.analysis.location &&]: the coordinates and the map. *)
Definition showsMap (a : ImageAnalysis) : bool :=
  match location a with Some _ => true | None => false end.

(** The body of the sidebar, by the status of the record. *)
Inductive Body :=
| Scanning
| Failure (message : jsstring)
| Results (a : ImageAnalysis)
| Blank.

Definition body (unknownError : jsstring) (record : ImageRecord.t) : Body :=
  match ImageRecord.status record with
  | Status.analyzing => Scanning
  | Status.error =>
      Failure (match shown (ImageRecord.error record) with
               | Some m => m
               | None => unknownError
               end)
  | _ =>
      match ImageRecord.analysis record with
      | Some a => Results a
      | None => Blank
      end
  end.

End AnalysisSidebar.

Module ImageCard.

(** The label of the card: [labels[0]] of the analysis, when there is
    one. *)
Definition badge (record : ImageRecord.t) : option jsstring :=
  match ImageRecord.analysis record with
  | Some a =>
      match labels a with
      | first :: _ => Some first
      | [] => None
      end
  | None => None
  end.

End ImageCard.

(* ------------------------------------------------------------------ *)
(** ** The remote analysis service ([analyzeImage]) *)

(** What [JSON.parse] returns. *)
Module Json.

Local Unset Elimination Schemes.
Inductive t :=
| JNull
| JBool (b : bool)
| JNumber (n : number)
| JString (s : jsstring)
| JArray (items : list t)
| JObject (fields : list (jsstring * t)).
Local Set Elimination Schemes.

(** [v.key], for one of the six keys that are read: [None] when reading
    throws, [Some None] for [undefined]. *)
Definition get (key : jsstring) (v : t) : option (option t) :=
  match v with
  | JNull => None
  | JObject fields => Some (lookup key fields)
  | _ => Some None
  end.

Definition truthy (v : option t) : bool :=
  match v with
  | None | Some JNull => false
  | Some (JBool b) => b
  | Some (JNumber n) => negb (Qeq_bool n 0%Q)
  | Some (JString s) => JS.truthy s
  | Some (JArray _) | Some (JObject _) => true
  end.

End Json.

Module Gemini.

Import Json.

(** The object that is returned.  Its type in the source is
    [ImageAnalysis]; at run time the arrays hold whatever the response
    held, and [description] and [ageEstimate] hold any truthy value of the
    response or the empty string. *)
Record Result := {
  objects : list Json.t;
  labels : list Json.t;
  description : Json.t;
  confidenceScore : number;
  dominantColors : list Json.t;
  ageEstimate : Json.t
}.

(** [Array.isArray(v) ? v : []] *)
Definition arrayOrEmpty (v : option Json.t) : list Json.t :=
  match v with Some (JArray items) => items | _ => [] end.

(** [v || ""] *)
Definition orEmptyString (v : option Json.t) : Json.t :=
  match v with
  | Some x => if truthy v then x else JString []
  | None => JString []
  end.

(** [typeof v === 'number' ? v : 0] *)
Definition numberOrZero (v : option Json.t) : number :=
  match v with Some (JNumber n) => n | _ => 0%Q end.

Definition failed : Failure :=
  {| message := Some (lit "Failed to analyze image with AI.") |}.

(** [response.text || '{}'] *)
Definition textOf (text : option jsstring) : jsstring :=
  match text with Some s => or_else s (lit "{}") | None => lit "{}" end.

(** Lines 742-750 *)
Definition resultOf (parsed : Json.t) : option Result :=
  match get (lit "objects") parsed,
        get (lit "labels") parsed,
        get (lit "description") parsed,
        get (lit "confidenceScore") parsed,
        get (lit "dominantColors") parsed,
        get (lit "ageEstimate") parsed with
  | Some o, Some l, Some d, Some c, Some dc, Some age =>
      Some {| objects := arrayOrEmpty o;
              labels := arrayOrEmpty l;
              description := orEmptyString d;
              confidenceScore := numberOrZero c;
              dominantColors := arrayOrEmpty dc;
              ageEstimate := orEmptyString age |}
  | _, _, _, _, _, _ => None
  end.

(** Lines 728-758: [response] is what [generateContent] settles to, read
    through its [text]; [parse] is [JSON.parse].  Whatever is thrown inside
    the [try] is logged and replaced. *)
Definition analyzeImage (response : Outcome (option jsstring))
    (parse : jsstring -> Outcome Json.t) : Outcome Result :=
  match response with
  | Rejected _ => Rejected failed
  | Fulfilled text =>
      match parse (textOf text) with
      | Rejected _ => Rejected failed
      | Fulfilled parsed =>
          match resultOf parsed with
          | Some result => Fulfilled result
          | None => Rejected failed
          end
      end
  end.

End Gemini.

(* ------------------------------------------------------------------ *)
(** ** Further vocabulary *)

Module More.

Import LocalAi.

(** The loader never claims to be loaded without both models. *)
Definition consistent {O M : Type} (st : Models.State O M) : Prop :=
  Models.modelsLoaded st = true ->
  Models.objectModel st <> None /\ Models.sceneModel st <> None.

(** What the object detector and the scene classifier deliver to
    [Promise.all]. *)
Definition detectionsOf (i : Inputs) : Outcome (list Detection.t) :=
  match objectModel i with Some detect => detect | None => Fulfilled [] end.

Definition scenesOf (i : Inputs) : Outcome (list ScenePrediction.t) :=
  match sceneModel i with Some classify => classify | None => Fulfilled [] end.

(** A detection whose expression object has no entry. *)
Definition hasNoExpression (fd : RawFace.t) : Prop :=
  RawFace.expressions fd = Some [].

(** Reading a colour string back: the value of a hexadecimal digit, of a
    digit string, and the three channels that the six digits after [#]
    stand for. *)
Definition digitValue (c : N) : Z :=
  if (c <=? 57)%N then Z.of_N c - 48 else Z.of_N c - 87.

Definition parseHex (digits : jsstring) : Z :=
  fold_left (fun v c => 16 * v + digitValue c) digits 0.

Definition channelsOf (hex : jsstring) : Z * Z * Z :=
  let n := parseHex (slice1 hex) in
  (n / 65536, (n / 256) mod 256, n mod 256).

Definition isDigit (c : N) : Prop := 0 <= digitValue c < 16.

(** [l] is what is left of [l'] when some elements are taken out. *)
Inductive Subsequence {A : Type} : list A -> list A -> Prop :=
| sub_nil : Subsequence [] []
| sub_take (a : A) (l l' : list A) :
    Subsequence l l' -> Subsequence (a :: l) (a :: l')
| sub_skip (a : A) (l l' : list A) :
    Subsequence l l' -> Subsequence l (a :: l').

(** What one attempt makes of one record: a record of another identity is
    left alone; a record of that identity ends completed with the new
    analysis and without error message, or in error with the message of the
    failure and the analysis it had, or it stays in [analyzing] with the
    analysis it had while the call is pending. *)
Definition settled (unknownError recordId : jsstring)
    (result : Promise ImageAnalysis) (img : ImageRecord.t) : ImageRecord.t :=
  if App.sameId recordId img then
    match result with
    | Settled (Fulfilled a) =>
        App.withStatus img Status.completed (Some a) None
    | Settled (Rejected e) =>
        App.withStatus img Status.error (ImageRecord.analysis img)
          (Some (App.messageOf unknownError e))
    | Pending =>
        App.withStatus img Status.analyzing (ImageRecord.analysis img) None
    end
  else img.

(** A record as a submission leaves it: settled by its own attempt. *)
Definition outcomeOf (unknownError : jsstring)
    (run : ImageRecord.t -> Outcome ImageAnalysis) (record : ImageRecord.t)
  : ImageRecord.t :=
  settled unknownError (ImageRecord.id record) (run record) record.

(** What a sequence of attempts, one per record of [records], makes of one
    record. *)
Definition settledByAll (unknownError : jsstring)
    (run : ImageRecord.t -> Outcome ImageAnalysis)
    (records : list ImageRecord.t) (img : ImageRecord.t) : ImageRecord.t :=
  fold_left
    (fun img record =>
       settled unknownError (ImageRecord.id record) (run record) img)
    records img.

Definition isImage (file : File.t) : bool :=
  Controller.startsWith (lit "image/") (File.type file).

(** Everything of an analysis that the language of the call does not
    enter, directly or through the recognition. *)
Definition sameSignals (a b : ImageAnalysis) : Prop :=
  objects a = objects b /\
  labels a = labels b /\
  confidenceScore a = confidenceScore b /\
  dominantColors a = dominantColors b /\
  faces a = faces b /\
  markedUpImageUrl a = markedUpImageUrl b /\
  scenery a = scenery b /\
  exif a = exif b /\
  location a = location b.

(** The model loading, the canvas, the object detector and the scene
    classifier all answer. *)
Definition providersAnswer (i : Inputs) : Prop :=
  (exists u, modelsReady i = Fulfilled u) /\
  (exists canvas, mlCanvas i = Fulfilled canvas) /\
  (exists detections, detectionsOf i = Fulfilled detections) /\
  (exists scenePredictions, scenesOf i = Fulfilled scenePredictions).

(** A canvas that [getImageData] can read: one with pixels, or one without
    a 2D context, for which it is not called. *)
Definition readable (canvas : Canvas.t) : Prop :=
  Canvas.imageData canvas <> Some [].

(** The canvas the colours are sampled from: the analysis canvas with the
    overlay of the detected faces. *)
Definition sampledCanvas (h : Host) (i : Inputs) : option Canvas.t :=
  match mlCanvas i with
  | Fulfilled canvas => Some (fst (LocalAi.markUp h canvas (Spec.detectedFaces i)))
  | Rejected _ => None
  end.

End More.

(* ------------------------------------------------------------------ *)
(** ** Further sample inputs *)

Module DemoMore.

Import LocalAi.

(** A detection whose expression object has no entry, after a regular
    one. *)
Definition blankFace : RawFace.t :=
  {| RawFace.box := {| Box.x := 300; Box.y := 10; Box.width := 40;
                       Box.height := 40 |};
     RawFace.age := 20;
     RawFace.gender := lit "female";
     RawFace.genderProbability := 0.8;
     RawFace.expressions := Some [] |}%Q.

Definition withBlankFace : Inputs :=
  {| modelsReady := Fulfilled tt;
     mlCanvas := Fulfilled (Demo.canvas 600);
     objectModel := Some (Fulfilled [Demo.dog]);
     sceneModel := Some (Fulfilled [Demo.park]);
     classifyRejectsFirst := false;
     faceAnalyzer :=
       Demo.detects [ Demo.rawFace 100 50 41 "male" [Demo.score "happy" 0.9];
                   blankFace ]%Q;
     textRecognizer := fun _ => Demo.worker "EXIT 12" |}.

(** Three faces reported from left to right, two of them at the same x. *)
Definition orderedFaces : Inputs :=
  {| modelsReady := Fulfilled tt;
     mlCanvas := Fulfilled (Demo.canvas 600);
     objectModel := Some (Fulfilled [Demo.dog; Demo.dog]);
     sceneModel := Some (Fulfilled []);
     classifyRejectsFirst := false;
     faceAnalyzer :=
       Demo.detects [ Demo.rawFace 100 50 41 "male" [Demo.score "happy" 0.9];
                   Demo.rawFace 250 60 30 "female" [Demo.score "sad" 0.6];
                   Demo.rawFace 250 40 8 "male" [Demo.score "angry" 0.3] ]%Q;
     textRecognizer := fun _ => Demo.worker "" |}.

(** What [exifr] resolves to for a file that has none of the fields read. *)
Definition bare : RawExif.t :=
  {| RawExif.latitude := None;
     RawExif.longitude := None;
     RawExif.Make := None;
     RawExif.Model := None;
     RawExif.DateTimeOriginal := DateMissing;
     RawExif.ISO := None;
     RawExif.ExposureTime := None;
     RawExif.FNumber := None |}.

(** Three dropped files, one of them not an image, and what the host mints
    for the records. *)
Definition file (name type : string) : File.t :=
  {| File.name := lit name; File.type := lit type; File.size := 1024%Q |}.

Definition dropped : list File.t :=
  [file "cat.png" "image/png"; file "notes.txt" "text/plain";
   file "dog.jpg" "image/jpeg"].

Definition supply : Controller.Supply :=
  fun k =>
    match k with
    | O => (lit "k3x9", lit "blob:1")
    | S O => (lit "p07q", lit "blob:2")
    | _ => (lit "zz41", lit "blob:3")
    end.

(** An attempt that succeeds for every record but the one named
    [dog.jpg]. *)
Definition run (record : ImageRecord.t) : Outcome ImageAnalysis :=
  if eqb (ImageRecord.name record) (lit "dog.jpg")
  then Rejected Demo.boom
  else Fulfilled Demo.analysis.

Definition ready : Controller.State :=
  {| Controller.images :=
       [Demo.record "a1" Status.error (Some Demo.located)];
     Controller.selectedImageId := None;
     Controller.isProcessing := false;
     Controller.isModelLoading := false |}.

(** Loads of which the face networks fail, and loads that all succeed. *)
Definition flaky : Models.Loads Z Z :=
  {| Models.tfReady := Fulfilled tt;
     Models.backendIsWebgl := true;
     Models.setBackend := Fulfilled tt;
     Models.cocoSsdLoad := Fulfilled 1;
     Models.mobilenetLoad := Fulfilled 2;
     Models.faceNets := Rejected Demo.boom |}.

Definition sound : Models.Loads Z Z :=
  {| Models.tfReady := Fulfilled tt;
     Models.backendIsWebgl := false;
     Models.setBackend := Rejected Demo.boom;
     Models.cocoSsdLoad := Fulfilled 3;
     Models.mobilenetLoad := Fulfilled 4;
     Models.faceNets := Fulfilled tt |}.

(** A [JSON.parse] for three response texts. *)
Definition parse (text : jsstring) : Outcome Json.t :=
  if eqb text (lit "{}") then Fulfilled (Json.JObject [])
  else if eqb text (lit "null") then Fulfilled Json.JNull
  else if eqb text (lit "{ description: 7, labels: [1] }") then
    Rejected {| message := Some (lit "Unexpected token d in JSON") |}
  else if eqb text (lit "{ conforming }") then
    Fulfilled
      (Json.JObject
         [(lit "objects", Json.JArray [Json.JString (lit "dog")]);
          (lit "labels", Json.JArray []);
          (lit "description", Json.JString []);
          (lit "confidenceScore", Json.JNumber 0.5%Q);
          (lit "dominantColors", Json.JArray [Json.JString (lit "#ffffff")]);
          (lit "ageEstimate", Json.JString (lit "25-30"))])
  else Fulfilled (Json.JArray []).

End DemoMore.

(* ------------------------------------------------------------------ *)
(** ** Facts about the JavaScript layer *)

Module JSFacts.

Lemma eqb_eq (s t : jsstring) : eqb s t = true <-> s = t.
Proof.
  revert t; induction s as [|a s IH]; intros [|b t]; simpl; split;
    try congruence; try reflexivity.
  - intros H. apply andb_true_iff in H as [Hab Hst].
    apply N.eqb_eq in Hab. apply IH in Hst. congruence.
  - intros H. injection H as -> ->. unfold unit_eqb.
    rewrite N.eqb_refl. simpl. apply IH. reflexivity.
Qed.

Example lit_decodes_utf8 :
  lit "łódź" = [322; 243; 100; 378]%N.
Proof. reflexivity. Qed.

Example toString16_examples :
  toString16 255 = lit "ff" /\ toString16 0 = lit "0" /\
  toString16 (shl 1 24 + shl 255 16 + shl 0 8 + 10) = lit "1ff000a".
Proof. repeat split. Qed.

Example ofInteger_examples :
  ofInteger 0 = lit "0" /\ ofInteger 120 = lit "120" /\
  ofInteger (-12) = lit "-12".
Proof. repeat split. Qed.

Example split_trim_examples :
  split LF (lit "ab" ++ [LF] ++ lit "cd" ++ [LF]) = [lit "ab"; lit "cd"; []]
  /\ split LF [] = [[]]
  /\ trim (lit "  a b  ") = lit "a b"
  /\ join (lit ", ") [lit "a"; lit "b"; lit "c"] = lit "a, b, c".
Proof. repeat split. Qed.

Example round_examples :
  round (5 # 2) = 3 /\ round (-5 # 2) = -2 /\ round (61 # 2) = 31
  /\ round (7 # 5) = 1.
Proof. repeat split. Qed.

Example sort_is_stable :
  sort (fun a b : jsstring * Z => inject_Z (snd b - snd a))
    [(lit "a", 1); (lit "b", 2); (lit "c", 1); (lit "d", 2)]
  = [(lit "b", 2); (lit "d", 2); (lit "a", 1); (lit "c", 1)].
Proof. reflexivity. Qed.

Lemma eqb_refl (s : jsstring) : eqb s s = true.
Proof. apply eqb_eq. reflexivity. Qed.

Lemma eqb_neq (s t : jsstring) : eqb s t = false <-> s <> t.
Proof.
  split.
  - intros H E. apply eqb_eq in E. congruence.
  - intros H. destruct (eqb s t) eqn:E; [|reflexivity].
    apply eqb_eq in E. contradiction.
Qed.

Lemma Fulfilled_inj {A} (a b : A) : Fulfilled a = Fulfilled b -> a = b.
Proof. congruence. Qed.

Lemma ltb_lt (a b : number) : ltb a b = true <-> (a < b)%Q.
Proof.
  unfold ltb. rewrite negb_true_iff. split.
  - intros H. apply Qnot_le_lt. intros Hle.
    apply Qle_bool_iff in Hle. congruence.
  - intros H. destruct (Qle_bool b a) eqn:E; [|reflexivity].
    apply Qle_bool_iff in E. exfalso. exact (Qlt_not_le _ _ H E).
Qed.

Lemma ltb_ge (a b : number) : ltb a b = false <-> (b <= a)%Q.
Proof.
  unfold ltb. rewrite negb_false_iff. apply Qle_bool_iff.
Qed.

Lemma gtb_gt (a b : number) : gtb a b = true <-> (b < a)%Q.
Proof. apply ltb_lt. Qed.

Lemma gtb_le (a b : number) : gtb a b = false <-> (a <= b)%Q.
Proof. apply ltb_ge. Qed.

Lemma geb_ge (a b : number) : geb a b = true <-> (b <= a)%Q.
Proof. apply Qle_bool_iff. Qed.

Lemma truthy_iff (s : jsstring) : truthy s = true <-> s <> [].
Proof. destruct s; simpl; split; congruence. Qed.

(** *** The stable sort *)

Section SortFacts.
Context {A : Type} (cmp : A -> A -> number).

Lemma insert_perm (a : A) (l : list A) :
  Permutation (a :: l) (insert cmp a l).
Proof.
  induction l as [|b l IH]; simpl.
  - apply Permutation_refl.
  - destruct (gtb (cmp a b) 0%Q).
    + eapply perm_trans; [apply perm_swap|].
      apply perm_skip. exact IH.
    + apply Permutation_refl.
Qed.

Lemma sort_perm (l : list A) : Permutation l (sort cmp l).
Proof.
  induction l as [|a l IH]; simpl.
  - apply perm_nil.
  - eapply perm_trans; [|apply insert_perm].
    apply perm_skip. exact IH.
Qed.

Lemma sort_Forall (P : A -> Prop) (l : list A) :
  Forall P l -> Forall P (sort cmp l).
Proof.
  intros H. eapply Permutation_Forall; [apply sort_perm|exact H].
Qed.

Lemma sort_In (a : A) (l : list A) : In a (sort cmp l) <-> In a l.
Proof.
  split; apply Permutation_in;
    [apply Permutation_sym|]; apply sort_perm.
Qed.

(** A comparator that orders consistently. *)
Hypothesis cmp_flip : forall a b, (0 < cmp a b)%Q -> (cmp b a < 0)%Q.
Hypothesis cmp_trans :
  forall a b c, (cmp a b <= 0)%Q -> (cmp b c <= 0)%Q -> (cmp a c <= 0)%Q.

(** [before] is the order of the input; the output is ordered by the
    comparator first and by [before] among equals. *)
Variable before : A -> A -> Prop.

Lemma ranked_le (a b : A) : ranked cmp before a b -> (cmp a b <= 0)%Q.
Proof. intros [H|[H _]]; lra. Qed.

Lemma insert_ranked (a : A) (l : list A) :
  Forall (before a) l ->
  StronglySorted (ranked cmp before) l ->
  StronglySorted (ranked cmp before) (insert cmp a l).
Proof.
  induction l as [|b l IH]; intros Hbefore Hsorted; simpl.
  - constructor; constructor.
  - inversion Hbefore as [|? ? Hab Hal]; subst.
    inversion Hsorted as [|? ? Hl Hbl]; subst.
    destruct (gtb (cmp a b) 0%Q) eqn:E.
    + apply gtb_gt in E. constructor.
      * apply IH; assumption.
      * eapply Permutation_Forall; [apply insert_perm|].
        constructor; [|exact Hbl].
        left. apply cmp_flip. exact E.
    + apply gtb_le in E. constructor; [exact Hsorted|].
      assert (Hranked : forall c, before a c -> (cmp a c <= 0)%Q ->
                                  ranked cmp before a c).
      { intros c Hac Hle. destruct (Qlt_le_dec (cmp a c) 0) as [Hlt|Hge].
        - left. exact Hlt.
        - right. split; [lra|exact Hac]. }
      constructor; [apply Hranked; assumption|].
      rewrite Forall_forall in *. intros c Hc.
      apply Hranked; [apply Hal; exact Hc|].
      apply cmp_trans with b; [exact E|].
      apply ranked_le. apply Hbl. exact Hc.
Qed.

Lemma sort_ranked (l : list A) :
  StronglySorted before l ->
  StronglySorted (ranked cmp before) (sort cmp l).
Proof.
  induction l as [|a l IH]; intros H; simpl.
  - constructor.
  - inversion H as [|? ? Hl Hal]; subst.
    apply insert_ranked; [|apply IH; exact Hl].
    apply sort_Forall. exact Hal.
Qed.
End SortFacts.

Lemma StronglySorted_weaken {A} (R S : A -> A -> Prop) (l : list A) :
  (forall a b, In a l -> In b l -> R a b -> S a b) ->
  StronglySorted R l -> StronglySorted S l.
Proof.
  induction l as [|a l IH]; intros HRS H.
  - constructor.
  - inversion H as [|? ? Hl Hal]; subst. constructor.
    + apply IH; [|exact Hl]. intros b c Hb Hc. apply HRS; right; assumption.
    + rewrite Forall_forall in *. intros b Hb.
      apply HRS; [left; reflexivity|right; exact Hb|apply Hal; exact Hb].
Qed.

Lemma StronglySorted_any {A} (l : list A) :
  StronglySorted (fun _ _ => True) l.
Proof.
  induction l; constructor; [assumption|].
  apply Forall_forall. intros; exact I.
Qed.

(** *** Binary64 rounding *)

Lemma pow2_pos e : (0 < pow2 e)%Q.
Proof. apply Qpower_0_lt. reflexivity. Qed.

Lemma pow2_add a b : (pow2 (a + b) == pow2 a * pow2 b)%Q.
Proof. apply Qpower_plus. discriminate. Qed.

Lemma pow2_le a b : a <= b -> (pow2 a <= pow2 b)%Q.
Proof. intros H. apply Qpower_le_compat_l; [exact H|discriminate]. Qed.

Lemma pow2_inject z : 0 <= z -> (pow2 z == inject_Z (2 ^ z))%Q.
Proof. intros H. unfold pow2. rewrite Zpower_Qpower by exact H. reflexivity. Qed.

Lemma pow2_succ a : (pow2 (a + 1) == 2 * pow2 a)%Q.
Proof. rewrite pow2_add. change (pow2 1) with 2%Q. ring. Qed.

(* a positive rational is above 2^(log2 num - log2 den - 1) *)
Lemma pow2_log2_below (n d : positive) :
  (pow2 (Z.log2 (Zpos n) - Z.log2 (Zpos d) - 1) <= Zpos n # d)%Q.
Proof.
  set (ln := Z.log2 (Zpos n)). set (ld := Z.log2 (Zpos d)).
  assert (Hn : 2 ^ ln <= Zpos n) by (apply Z.log2_spec; lia).
  assert (Hd : Zpos d < 2 ^ (ld + 1)).
  { replace (ld + 1) with (Z.succ ld) by lia. apply Z.log2_spec. lia. }
  assert (Hln : 0 <= ln) by apply Z.log2_nonneg.
  assert (Hld : 0 <= ld) by apply Z.log2_nonneg.
  (* pow2 (ln - ld - 1) * pow2 (ld+1) == pow2 ln *)
  assert (E : (pow2 (ln - ld - 1) * pow2 (ld + 1) == pow2 ln)%Q).
  { rewrite <- pow2_add. replace (ln - ld - 1 + (ld + 1)) with ln by lia. reflexivity. }
  assert (Hp : (0 < pow2 (ln - ld - 1))%Q) by apply pow2_pos.
  assert (Hd' : (inject_Z (Zpos d) <= pow2 (ld + 1))%Q).
  { rewrite pow2_inject by lia. rewrite <- Zle_Qle. lia. }
  assert (Hn' : (pow2 ln <= inject_Z (Zpos n))%Q).
  { rewrite pow2_inject by lia. rewrite <- Zle_Qle. lia. }
  assert (Hq : (Zpos n # d == inject_Z (Zpos n) / inject_Z (Zpos d))%Q).
  { rewrite Qmake_Qdiv. reflexivity. }
  rewrite Hq.
  apply Qle_shift_div_l; [reflexivity|].
  apply Qle_trans with (pow2 (ln - ld - 1) * pow2 (ld + 1))%Q.
  - apply Qmult_le_l; [exact Hp|exact Hd'].
  - rewrite E. exact Hn'.
Qed.

Lemma exponentOf_le q : (0 < q)%Q -> (pow2 (exponentOf q) <= q)%Q.
Proof.
  intros Hq. unfold exponentOf.
  destruct (Qle_bool (pow2 (Z.log2 (Qnum q) - Z.log2 (Z.pos (Qden q)))) q) eqn:E.
  - apply Qle_bool_iff. exact E.
  - destruct q as [n d]. cbn [Qnum Qden] in *.
    destruct n as [|n|n]; try (exfalso; revert Hq; unfold Qlt; simpl; lia).
    apply pow2_log2_below.
Qed.

Lemma nearestEven_error q : (Qabs (inject_Z (nearestEven q) - q) <= 1 # 2)%Q.
Proof.
  unfold nearestEven.
  pose proof (Qfloor_le q) as Hlo. pose proof (Qlt_floor q) as Hhi.
  rewrite inject_Z_plus in Hhi. change (inject_Z 1) with 1%Q in Hhi.
  apply Qabs_Qle_condition.
  destruct (Qcompare_spec (q - inject_Z (Qfloor q)) (1 # 2)) as [E|E|E].
  - destruct (Z.even (Qfloor q));
      [|rewrite inject_Z_plus; change (inject_Z 1) with 1%Q]; lra.
  - lra.
  - rewrite inject_Z_plus. change (inject_Z 1) with 1%Q. lra.
Qed.

Lemma rounded_error q :
  (Qabs (rounded q - q) <= Qabs q * pow2 (-53) + pow2 (-1075))%Q.
Proof.
  unfold rounded.
  destruct (Qeq_bool (Qabs q) 0) eqn:E0.
  - apply Qeq_bool_iff in E0.
    assert (Hq : (q == 0)%Q).
    { revert E0. apply Qabs_case; intros; lra. }
    rewrite Hq. vm_compute. discriminate.
  - assert (Ha : (0 < Qabs q)%Q).
    { pose proof (Qabs_nonneg q). apply Qeq_bool_neq in E0. lra. }
    set (a := Qabs q) in *.
    set (t := Z.max (exponentOf a - 52) (-1074)).
    set (m := inject_Z (nearestEven (a / pow2 t))).
    rewrite Qred_correct.
    pose proof (pow2_pos t) as Hulp.
    pose proof (nearestEven_error (a / pow2 t)) as Hm. fold m in Hm.
    apply Qabs_Qle_condition in Hm.
    (* |m * ulp - a| <= ulp / 2 *)
    assert (Hdiv : (a / pow2 t * pow2 t == a)%Q).
    { field. lra. }
    assert (Herr : (- ((1 # 2) * pow2 t) <= m * pow2 t - a <= (1 # 2) * pow2 t)%Q).
    { assert (E : ((m - a / pow2 t) * pow2 t == m * pow2 t - a)%Q).
      { rewrite <- Hdiv at 2. ring. }
      rewrite <- E. clear E Hdiv.
      set (x := (a / pow2 t)%Q) in *. set (u := pow2 t) in *.
      set (y := ((m - x) * u)%Q).
      assert (H1 : (- (1 # 2) * u <= y)%Q).
      { apply Qmult_le_compat_r; lra. }
      assert (H2 : (y <= (1 # 2) * u)%Q).
      { apply Qmult_le_compat_r; lra. }
      clearbody y. clear - H1 H2. clearbody u. lra. }
    (* ulp <= a * 2^-52 + 2^-1074 *)
    assert (Hulp2 : ((1 # 2) * pow2 t <= a * pow2 (-53) + pow2 (-1075))%Q).
    { pose proof (exponentOf_le a Ha) as He.
      pose proof (pow2_pos (-53)) as H53. pose proof (pow2_pos (-1075)) as H75.
      unfold t.
      destruct (Z.max_spec (exponentOf a - 52) (-1074)) as [[_ ->]|[_ ->]].
      - assert (0 <= a * pow2 (-53))%Q by (apply Qmult_le_0_compat; lra).
        assert (E : (pow2 (-1074) == 2 * pow2 (-1075))%Q).
        { replace (-1074) with (-1075 + 1) by lia. apply pow2_succ. }
        rewrite E. lra.
      - assert (E : (pow2 (exponentOf a - 52)
                     == 2 * (pow2 (exponentOf a) * pow2 (-53)))%Q).
        { replace (exponentOf a - 52) with ((exponentOf a + -53) + 1) by lia.
          rewrite pow2_succ, pow2_add. reflexivity. }
        rewrite E.
        assert (pow2 (exponentOf a) * pow2 (-53) <= a * pow2 (-53))%Q.
        { apply Qmult_le_compat_r; lra. }
        lra. }
    apply Qabs_Qle_condition.
    destruct (Qle_bool 0 q) eqn:Es.
    + apply Qle_bool_iff in Es.
      assert (Haq : (a == q)%Q) by (apply Qabs_pos; exact Es).
      lra.
    + assert (Es' : (q < 0)%Q).
      { apply Qnot_le_lt. intros H. apply Qle_bool_iff in H. congruence. }
      assert (Haq : (a == - q)%Q) by (apply Qabs_neg; lra).
      lra.
Qed.

Lemma eps_pow2 : (pow2 (-53) == eps)%Q.
Proof. vm_compute. reflexivity. Qed.

Lemma tiny_small : (0 < tiny)%Q /\ (tiny <= 1 # 1329227995784915872903807060280344576)%Q.
Proof.
  split; [apply pow2_pos|].
  apply Qle_trans with (pow2 (-120)); [apply pow2_le; lia|].
  vm_compute. discriminate.
Qed.

Lemma pow2_1020 : (pow2 1020 == pow2 1000 * 1048576)%Q.
Proof.
  change 1020 with (1000 + 20). rewrite pow2_add. apply Qmult_comp;
    [reflexivity|]. vm_compute. reflexivity.
Qed.

Lemma pow2_1024 : (pow2 1024 == pow2 1020 * 16)%Q.
Proof.
  change 1024 with (1020 + 4). rewrite pow2_add. apply Qmult_comp;
    [reflexivity|]. vm_compute. reflexivity.
Qed.

Lemma pow2_ge_1 e : 0 <= e -> (1 <= pow2 e)%Q.
Proof. intros H. change 1%Q with (pow2 0). apply pow2_le. exact H. Qed.

(** Away from overflow a rounding is finite and near the exact value. *)
Lemma toBinary64_near q :
  (Qabs q <= pow2 1020)%Q ->
  exists v,
    toBinary64 q = Finite v /\
    (q - (Qabs q * eps + tiny) <= v <= q + (Qabs q * eps + tiny))%Q.
Proof.
  intros Hq. exists (rounded q).
  pose proof (rounded_error q) as Herr. rewrite eps_pow2 in Herr.
  fold tiny in Herr. apply Qabs_diff_Qle_condition in Herr.
  assert (Hnear : (rounded q - (Qabs q * eps + tiny) <= q
                   <= rounded q + (Qabs q * eps + tiny))%Q) by exact Herr.
  clear Herr. split; [|lra].
  unfold toBinary64. cbv zeta.
  destruct (Qle_bool (pow2 1024) (Qabs (rounded q))) eqn:E; [|reflexivity].
  exfalso. apply Qle_bool_iff in E.
  pose proof tiny_small as [Ht0 Ht]. pose proof pow2_1024 as H24.
  pose proof (pow2_ge_1 1020 ltac:(lia)) as H1.
  pose proof (Qabs_nonneg q) as Ha.
  assert (Hq' : (- Qabs q <= q <= Qabs q)%Q)
    by (apply Qabs_Qle_condition; lra).
  assert (Hr : (Qabs (rounded q) <= 2 * pow2 1020)%Q).
  { apply Qabs_Qle_condition. unfold eps in *. lra. }
  lra.
Qed.

End JSFacts.

(* ------------------------------------------------------------------ *)
(** ** Facts about the aggregator *)

Module LocalAiFacts.

Import LocalAi JSFacts Spec.

Lemma faceDetail_fields h w fd f :
  faceDetail h w fd = Fulfilled f ->
  FaceDetail.box f = RawFace.box fd /\
  FaceDetail.position f = positionOf (RawFace.box fd) (ofN w) /\
  FaceDetail.age f = round (RawFace.age fd) /\
  FaceDetail.gender f = RawFace.gender fd /\
  topEmotion h (RawFace.expressions fd)
    = Fulfilled (FaceDetail.emotion f, FaceDetail.emotionScore f).
Proof.
  unfold faceDetail. destruct (topEmotion h (RawFace.expressions fd))
    as [[e sc]|err]; simpl; [|discriminate].
  intros H. injection H as <-. simpl. repeat split; reflexivity.
Qed.

(** Every pushed face stems from one detection, in the order of the
    detections. *)
Lemma collectFaces_Forall2 h w fds fs :
  collectFaces h w fds = Fulfilled fs ->
  Forall2 (fun fd f => faceDetail h w fd = Fulfilled f) fds fs.
Proof.
  revert fs. induction fds as [|fd fds IH]; simpl; intros fs H.
  - injection H as <-. constructor.
  - destruct (faceDetail h w fd) as [f|] eqn:Ef; simpl in H; [|discriminate].
    destruct (collectFaces h w fds) as [fs'|]; simpl in H; [|discriminate].
    injection H as <-. constructor; [exact Ef|apply IH; reflexivity].
Qed.

Lemma collectFaces_Forall h w fds fs (P : FaceDetail.t -> Prop) :
  (forall fd f, In fd fds -> faceDetail h w fd = Fulfilled f -> P f) ->
  collectFaces h w fds = Fulfilled fs -> Forall P fs.
Proof.
  intros HP H. apply collectFaces_Forall2 in H.
  induction H as [|fd f fds fs Hf _ IH]; constructor.
  - apply (HP fd); [left; reflexivity|exact Hf].
  - apply IH. intros fd' f' Hin. apply HP. right. exact Hin.
Qed.

(** What a fulfilled [Promise.all] was given. *)
Lemma promiseAll_Fulfilled i ocrText results :
  promiseAll i ocrText = Fulfilled results ->
  exists detections scenePredictions,
    match objectModel i with Some d => d | None => Fulfilled [] end
    = Fulfilled detections /\
    match sceneModel i with Some c => c | None => Fulfilled [] end
    = Fulfilled scenePredictions /\
    faceAnalyzer i = Task (Fulfilled (detectedFaces i)) /\
    results = (detections, scenePredictions, detectedFaces i, ocrText).
Proof.
  unfold promiseAll, detectedFaces.
  destruct (faceAnalyzer i) as [e|[fds|e]]; [discriminate| |];
    destruct (match objectModel i with Some d => d | None => Fulfilled [] end)
      as [detections|e1];
    destruct (match sceneModel i with Some c => c | None => Fulfilled [] end)
      as [scenePredictions|e2]; try discriminate.
  intros H. injection H as <-. exists detections, scenePredictions.
  repeat split.
Qed.

(** What the part after [Promise.all] has done when it returns. *)
Lemma assemble_Fulfilled h lang canvas detections scenePredictions fds text a :
  assemble h lang canvas detections scenePredictions fds text = Fulfilled a ->
  exists pushed colors,
    collectFaces h (Canvas.width canvas) fds = Fulfilled pushed /\
    getDominantColors h (fst (markUp h canvas fds)) = Fulfilled colors /\
    let objs := map (fun d => translate categoryTranslations
                                 (Detection.class d)) detections in
    let scene := translate sceneTranslations
                   (topSceneOf h scenePredictions) in
    let fs := sort byBoxX pushed in
    a = {| objects := objs;
           labels := map (capitalize h) (fromSet (scene :: objs));
           description := describe lang scene detections objs fs;
           confidenceScore := confidenceOf scenePredictions;
           dominantColors := colors;
           ageEstimate := Some (ageSummary lang fs);
           emotionEstimate := Some (emotionSummary lang fs);
           faces := Some fs;
           markedUpImageUrl := Some (snd (markUp h canvas fds));
           scenery := Some (capitalize h scene);
           ocrText := if truthy text then Some text else None;
           exif := None;
           location := None |}.
Proof.
  unfold assemble.
  destruct (markUp h canvas fds) as [drawn url] eqn:Emark.
  destruct (collectFaces h (Canvas.width canvas) fds) as [pushed|] eqn:Ec;
    simpl; [|discriminate].
  destruct (getDominantColors h drawn) as [colors|] eqn:Eg;
    simpl; [|discriminate].
  intros H. injection H as <-. exists pushed, colors.
  split; [reflexivity|]. split; reflexivity.
Qed.

(** What a fulfilled call of the aggregator was given. *)
Lemma analyzeImageLocal_inv h lang i a :
  analyzeImageLocal h lang i = Fulfilled a ->
  exists u canvas detections scenePredictions,
    modelsReady i = Fulfilled u /\
    mlCanvas i = Fulfilled canvas /\
    match objectModel i with Some d => d | None => Fulfilled [] end
    = Fulfilled detections /\
    match sceneModel i with Some c => c | None => Fulfilled [] end
    = Fulfilled scenePredictions /\
    faceAnalyzer i = Task (Fulfilled (detectedFaces i)) /\
    assemble h lang canvas detections scenePredictions (detectedFaces i)
      (performOCR (textRecognizer i lang)) = Fulfilled a.
Proof.
  unfold analyzeImageLocal.
  destruct (modelsReady i) as [u|]; simpl; [|discriminate].
  destruct (mlCanvas i) as [canvas|]; simpl; [|discriminate].
  destruct (promiseAll i (performOCR (textRecognizer i lang)))
    as [[results|]|] eqn:Eall; simpl; try discriminate.
  apply promiseAll_Fulfilled in Eall
    as (detections & scenePredictions & Hd & Hs & Hf & ->).
  intros H. injection H as H.
  exists u, canvas, detections, scenePredictions.
  repeat split; assumption.
Qed.

(** What a fulfilled call of the aggregator has done. *)
Lemma analyzeImageLocal_Fulfilled h lang i a :
  analyzeImageLocal h lang i = Fulfilled a ->
  exists canvas pushed,
    mlCanvas i = Fulfilled canvas /\
    collectFaces h (Canvas.width canvas) (detectedFaces i) = Fulfilled pushed /\
    faces a = Some (sort byBoxX pushed) /\
    ageEstimate a = Some (ageSummary lang (sort byBoxX pushed)) /\
    emotionEstimate a = Some (emotionSummary lang (sort byBoxX pushed)) /\
    getDominantColors h (fst (markUp h canvas (detectedFaces i)))
    = Fulfilled (dominantColors a) /\
    ocrText a = (if truthy (performOCR (textRecognizer i lang))
                 then Some (performOCR (textRecognizer i lang)) else None).
Proof.
  intros Ha. apply analyzeImageLocal_inv in Ha
    as (u & canvas & detections & scenePredictions & _ & Hc & _ & _ & _ & Ha).
  apply assemble_Fulfilled in Ha as (pushed & colors & Hp & Hg & Ha).
  cbv zeta in Ha. subst a. exists canvas, pushed.
  repeat split; assumption.
Qed.

End LocalAiFacts.

(* ------------------------------------------------------------------ *)
(** ** The position of a face *)

Import LocalAi JSFacts Spec LocalAiFacts.

Lemma ofN_nonneg (n : N) : (0 <= ofN n)%Q.
Proof.
  unfold ofN. change 0%Q with (inject_Z 0). rewrite <- Zle_Qle. lia.
Qed.

Lemma nearest_033 : nearest 0.33 = (5944751508129055 # 18014398509481984)%Q.
Proof. vm_compute. reflexivity. Qed.

Lemma nearest_066 : nearest 0.66 = (5944751508129055 # 9007199254740992)%Q.
Proof. vm_compute. reflexivity. Qed.

Section PositionFacts.
Variables (box : Box.t) (w : number).
Hypothesis Hx : moderate (Box.x box).
Hypothesis Hwidth : moderate (Box.width box).
Hypothesis Hw1 : (1 <= w)%Q.
Hypothesis Hw : moderate w.

Let sizes : Q := (Qabs (Box.x box) + Qabs (Box.width box))%Q.

(** The centre as the program computes it is within a relative [2^-51] of
    the box sizes of the exact centre. *)
Lemma centerX_near :
  exists c,
    centerX box = Finite c /\
    (centre box - (sizes * (1 # 2251799813685248) + 3 * tiny) <= c
     <= centre box + (sizes * (1 # 2251799813685248) + 3 * tiny))%Q.
Proof.
  pose proof Hx as Hx0. pose proof Hwidth as Hwidth0.
  unfold moderate, centre, centerX, Qdiv in *. subst sizes.
  change (/ 2)%Q with (1 # 2)%Q.
  pose proof tiny_small as [Ht0 Ht]. pose proof pow2_1020 as H20.
  pose proof (pow2_ge_1 1000 ltac:(lia)) as H1.
  generalize dependent (Box.x box). intros x _ Hx0.
  generalize dependent (Box.width box). intros wd _ Hwidth0.
  pose proof (Qabs_nonneg x) as Hax. pose proof (Qabs_nonneg wd) as Hawd.
  assert (Hx' : (- Qabs x <= x <= Qabs x)%Q)
    by (apply Qabs_Qle_condition; lra).
  assert (Hwd' : (- Qabs wd <= wd <= Qabs wd)%Q)
    by (apply Qabs_Qle_condition; lra).
  assert (Hhalf : (Qabs (wd * (1 # 2)) <= Qabs wd * (1 # 2))%Q).
  { apply Qabs_Qle_condition. lra. }
  destruct (toBinary64_near (wd * (1 # 2))) as (half & Ehalf64 & Hnear).
  { lra. }
  rewrite Ehalf64.
  assert (Hhalf' : (Qabs half <= Qabs wd + tiny)%Q).
  { apply Qabs_Qle_condition. unfold eps in *. lra. }
  assert (Hsum : (Qabs (x + half) <= Qabs x + Qabs wd + tiny)%Q).
  { apply Qabs_Qle_condition in Hhalf'. apply Qabs_Qle_condition. lra. }
  destruct (toBinary64_near (x + half)) as (c & Ec & Hc).
  { lra. }
  exists c. split; [exact Ec|].
  pose proof (Qabs_nonneg (x + half)) as Hasum.
  pose proof (Qabs_nonneg (wd * (1 # 2))) as Hahalf.
  unfold eps in *. lra.
Qed.

(** A threshold as the program computes it is within [3 * 2^-52] of the
    width of the exact one. *)
Lemma threshold_near (k : Q) (k64 : Q) :
  ((1 # 4) <= k <= 1)%Q ->
  (k - (1 # 4503599627370496) <= k64 <= k + (1 # 4503599627370496))%Q ->
  exists t,
    toBinary64 (w * k64) = Finite t /\
    (w * k - w * (3 # 4503599627370496) <= t
     <= w * k + w * (3 # 4503599627370496))%Q.
Proof.
  intros Hk Hk64. unfold moderate in *.
  pose proof tiny_small as [Ht0 Ht]. pose proof pow2_1020 as H20.
  assert (Haw : (Qabs w == w)%Q) by (apply Qabs_pos; lra).
  rewrite Haw in Hw.
  assert (Hprod : (0 <= w * k64 <= w * 2)%Q).
  { split.
    - apply Qmult_le_0_compat; lra.
    - apply Qmult_le_l; lra. }
  assert (Hdiff : (w * k - w * (1 # 4503599627370496) <= w * k64
                   <= w * k + w * (1 # 4503599627370496))%Q).
  { split.
    - setoid_replace (w * k - w * (1 # 4503599627370496))%Q
        with (w * (k - (1 # 4503599627370496)))%Q by ring.
      apply Qmult_le_l; lra.
    - setoid_replace (w * k + w * (1 # 4503599627370496))%Q
        with (w * (k + (1 # 4503599627370496)))%Q by ring.
      apply Qmult_le_l; lra. }
  assert (Habs : (Qabs (w * k64) == w * k64)%Q) by (apply Qabs_pos; lra).
  destruct (toBinary64_near (w * k64)) as (t & Et & Hnear).
  { rewrite Habs. lra. }
  exists t. split; [exact Et|].
  rewrite Habs in Hnear. unfold eps in *.
  set (p := (w * k64)%Q) in *. set (q := (w * k)%Q) in *.
  clearbody p q. lra.
Qed.

(** The comparison of the centre with a threshold, against the exact
    one. *)
Lemma compared_with_threshold (k k64 : Q) :
  ((1 # 4) <= k <= 1)%Q ->
  (k - (1 # 4503599627370496) <= k64 <= k + (1 # 4503599627370496))%Q ->
  let c := centre box in
  let m := margin box w in
  let t := toBinary64 (w * k64) in
  ((c < w * k - m)%Q -> lt64 (centerX box) t = true) /\
  ((w * k + m < c)%Q -> lt64 t (centerX box) = true) /\
  (lt64 (centerX box) t = true -> (c < w * k + m)%Q) /\
  (lt64 t (centerX box) = true -> (w * k - m < c)%Q) /\
  (lt64 (centerX box) t = false -> (w * k - m < c)%Q) /\
  (lt64 t (centerX box) = false -> (c < w * k + m)%Q).
Proof.
  intros Hk Hk64. cbv zeta.
  destruct centerX_near as (c & -> & Hc).
  destruct (threshold_near k k64 Hk Hk64) as (t & -> & Ht).
  unfold margin. fold sizes. cbn [lt64].
  pose proof tiny_small as [Ht0 Htiny].
  assert (Hsizes : (0 <= sizes)%Q).
  { subst sizes. pose proof (Qabs_nonneg (Box.x box)).
    pose proof (Qabs_nonneg (Box.width box)). lra. }
  set (exact := centre box) in *. set (p := (w * k)%Q) in *.
  clearbody exact p sizes.
  split; [intros H; apply (proj2 (ltb_lt _ _)); lra|].
  split; [intros H; apply (proj2 (ltb_lt _ _)); lra|].
  split; [intros H; apply (proj1 (ltb_lt _ _)) in H; lra|].
  split; [intros H; apply (proj1 (ltb_lt _ _)) in H; lra|].
  split; intros H; apply (proj1 (ltb_ge _ _)) in H; lra.
Qed.

(** The position against the exact thresholds. *)
Lemma positionOf_margins :
  let c := centre box in
  let m := margin box w in
  ((c < w * 0.33 - m)%Q -> positionOf box w = PosLeft) /\
  ((w * 0.33 + m < c < w * 0.66 - m)%Q -> positionOf box w = PosCenter) /\
  ((w * 0.66 + m < c)%Q -> positionOf box w = PosRight) /\
  (positionOf box w = PosLeft -> (c < w * 0.33 + m)%Q) /\
  (positionOf box w = PosCenter ->
   (w * 0.33 - m < c < w * 0.66 + m)%Q) /\
  (positionOf box w = PosRight -> (w * 0.66 - m < c)%Q).
Proof.
  cbv zeta. unfold positionOf. rewrite nearest_033, nearest_066.
  destruct (compared_with_threshold 0.33
              (5944751508129055 # 18014398509481984))
    as (L1 & L2 & L3 & L4 & L5 & L6); [lra|lra|].
  destruct (compared_with_threshold 0.66
              (5944751508129055 # 9007199254740992))
    as (R1 & R2 & R3 & R4 & R5 & R6); [lra|lra|].
  cbv zeta in *.
  assert (Hm : (0 <= margin box w)%Q).
  { unfold margin. pose proof (Qabs_nonneg (Box.x box)) as Hax.
    pose proof (Qabs_nonneg (Box.width box)) as Haw. lra. }
  set (c := centerX box) in *.
  set (t33 := toBinary64 (w * (5944751508129055 # 18014398509481984))) in *.
  set (t66 := toBinary64 (w * (5944751508129055 # 9007199254740992))) in *.
  set (m := margin box w) in *. set (exact := centre box) in *.
  clearbody c t33 t66 m exact.
  destruct (lt64 c t33) eqn:E33; destruct (lt64 t66 c) eqn:E66;
    try (specialize (L3 eq_refl)); try (specialize (L5 eq_refl));
    try (specialize (R4 eq_refl)); try (specialize (R6 eq_refl));
    (split; [intros G|split; [intros G|split; [intros G|
     split; [intros G|split; intros G]]]]);
    try discriminate G; try reflexivity; try lra;
    try (apply L1 in G; discriminate G);
    try (apply R2 in G; discriminate G);
    exfalso; lra.
Qed.

End PositionFacts.


Lemma moderate_small (q : Q) :
  Qle_bool (Qabs q) 1267650600228229401496703205376%Q = true -> moderate q.
Proof.
  intros H. apply Qle_bool_iff in H. unfold moderate.
  apply Qle_trans with (1 := H).
  apply Qle_trans with (pow2 100); [vm_compute; discriminate|].
  apply pow2_le. lia.
Qed.



(** Within the margin the roundings decide.  Three boxes are given in
    decimals with their centre exactly on a threshold of the canvas: the
    first, at 0.33 of a width of 640, is reported left; the second, at 0.33
    of a width of 768, is reported centre; the third, at 0.66 of a width of
    1024, is reported centre.  The doubles of the kernel agree. *)
Example rounding_decides_within_the_margin :
  let box x := {| Box.x := nearest x; Box.y := 0%Q; Box.width := 40%Q;
                  Box.height := 40%Q |} in
  ((191.2 + 40 / 2 == 640 * 0.33)%Q /\
   positionOf (box 191.2%Q) 640%Q = PosLeft /\
   positionOf64 191.2 40 640 = PosLeft) /\
  ((233.44 + 40 / 2 == 768 * 0.33)%Q /\
   positionOf (box 233.44%Q) 768%Q = PosCenter /\
   positionOf64 233.44 40 768 = PosCenter) /\
  ((655.84 + 40 / 2 == 1024 * 0.66)%Q /\
   positionOf (box 655.84%Q) 1024%Q = PosCenter /\
   positionOf64 655.84 40 1024 = PosCenter).
Proof. vm_compute. repeat split. Qed.

(* ------------------------------------------------------------------ *)
(** ** The record lifecycle *)

Import App.

Lemma sameId_true recordId img :
  sameId recordId img = true <-> ImageRecord.id img = recordId.
Proof. apply eqb_eq. Qed.

Lemma sameUpload_refl img : sameUpload img img.
Proof. repeat split. Qed.

Lemma sameUpload_withStatus img s a e : sameUpload img (withStatus img s a e).
Proof. repeat split. Qed.

Lemma messageOf_verbatim unknownError err m :
  message err = Some m -> m <> [] -> messageOf unknownError err = m.
Proof.
  intros Hm Hne. unfold messageOf. rewrite Hm.
  destruct m; [contradiction|reflexivity].
Qed.

Lemma messageOf_fallback unknownError err :
  message err = None \/ message err = Some [] ->
  messageOf unknownError err = unknownError.
Proof. intros [H|H]; unfold messageOf; rewrite H; reflexivity. Qed.

Lemma setError_failed unknownError recordId err prev :
  Forall2 (failed unknownError recordId err) prev
    (setError unknownError recordId err prev).
Proof.
  unfold setError.
  induction prev as [|img prev IH]; simpl; constructor; [|exact IH].
  unfold failed. destruct (sameId recordId img) eqn:E.
  - apply sameId_true in E.
    split; [apply sameUpload_withStatus|]. split; [reflexivity|].
    split; [intros _; split; reflexivity|]. intros Hne. contradiction.
  - apply eqb_neq in E.
    split; [apply sameUpload_refl|]. split; [reflexivity|].
    split; [intros Heq; contradiction|]. intros _. reflexivity.
Qed.

(** C8: when the aggregator rejects, the record of that identity, which the
    attempt has put in [analyzing], ends in [error] with the message of the
    failure, verbatim when it has a non-empty one and the fallback
    [unknownError] otherwise.  Its analysis is the one it had: the update
    that handles the failure keeps the analysis of whatever record list it
    is applied to, and so does the whole attempt.  The record keeps its
    other fields, and the other records are left as they were. *)
Theorem failed_analysis_sets_error unknownError recordId err images :
  Forall2 (fun img img' =>
             ImageRecord.id img = recordId ->
             ImageRecord.status img' = Status.analyzing /\
             ImageRecord.analysis img' = ImageRecord.analysis img)
    images (setAnalyzing recordId images)
  /\ (forall prev,
        Forall2 (failed unknownError recordId err) prev
          (setError unknownError recordId err prev))
  /\ Forall2 (failed unknownError recordId err) images
       (analyzeSingleRecord unknownError recordId (Rejected err) images)
  /\ (forall m, message err = Some m -> m <> [] ->
                messageOf unknownError err = m)
  /\ (message err = None \/ message err = Some [] ->
      messageOf unknownError err = unknownError).
Proof.
  split; [|split; [apply setError_failed|split;
           [|split; [apply messageOf_verbatim|apply messageOf_fallback]]]].
  - unfold setAnalyzing.
    induction images as [|img images IH]; simpl; constructor; [|exact IH].
    intros Hid. apply sameId_true in Hid. rewrite Hid.
    split; reflexivity.
  - unfold analyzeSingleRecord, setError, setAnalyzing.
    induction images as [|img images IH]; simpl; constructor; [|exact IH].
    unfold failed. destruct (sameId recordId img) eqn:E; simpl.
    + unfold sameId in *. simpl. rewrite E. simpl.
      apply eqb_eq in E.
      split; [unfold sameUpload; simpl; intuition reflexivity|].
      split; [reflexivity|].
      split; [intros _; split; reflexivity|]. intros Hne. contradiction.
    + rewrite E. apply eqb_neq in E.
      split; [apply sameUpload_refl|]. split; [reflexivity|].
      split; [intros Heq; contradiction|]. intros _. reflexivity.
Qed.

Lemma failed_analysis_sets_error_witness :
  let failure := {| message := Some (lit "WebGL context lost") |} in
  let before := [Demo.record "a1" Status.completed (Some Demo.analysis);
                 Demo.record "b2" Status.pending None] in
  message failure = Some (lit "WebGL context lost") /\
  lit "WebGL context lost" <> [] /\
  messageOf Demo.unknownError failure = lit "WebGL context lost" /\
  map (fun img => (ImageRecord.status img, ImageRecord.analysis img,
                   ImageRecord.error img))
      (analyzeSingleRecord Demo.unknownError (lit "a1") (Rejected failure)
         before)
  = [(Status.error, Some Demo.analysis, Some (lit "WebGL context lost"));
     (Status.pending, None, None)].
Proof.
  cbv zeta.
  split; [reflexivity|]. split; [discriminate|].
  split; [|vm_compute; reflexivity].
  apply (proj1 (proj2 (proj2 (proj2
           (failed_analysis_sets_error Demo.unknownError (lit "a1") _ []))))).
  - reflexivity.
  - discriminate.
Defined.

(** *** The background merge *)

Lemma spread_idempotent a d : spread (spread a d) d = spread a d.
Proof. destruct d; reflexivity. Qed.

Lemma spread_sameVisualFields a d : sameVisualFields a (spread a d).
Proof. destruct d; repeat split. Qed.

Lemma mergeExif_cons recordId d img images :
  mergeExif recordId d (img :: images)
  = hd img (mergeExif recordId d [img]) :: mergeExif recordId d images.
Proof. unfold mergeExif. destruct (hasMetadata d); reflexivity. Qed.

Lemma mergeExif_one recordId d img :
  mergeExif recordId d [img]
  = [ match ImageRecord.analysis img with
      | Some a =>
          if hasMetadata d && sameId recordId img
          then withStatus img (ImageRecord.status img) (Some (spread a d))
                 (ImageRecord.error img)
          else img
      | None => img
      end ].
Proof.
  unfold mergeExif. destruct (hasMetadata d); simpl.
  - destruct (sameId recordId img); simpl;
      destruct (ImageRecord.analysis img); reflexivity.
  - destruct (ImageRecord.analysis img); reflexivity.
Qed.

Lemma mergeExif_untracked recordId d images :
  mergeExif recordId d (without recordId images) = without recordId images.
Proof.
  unfold mergeExif, without. destruct (hasMetadata d); [|reflexivity].
  induction images as [|img images IH]; simpl; [reflexivity|].
  destruct (sameId recordId img) eqn:E; simpl; [exact IH|].
  rewrite E. simpl. rewrite IH. reflexivity.
Qed.

(** C7: merging the same extracted metadata a second time changes nothing
    any more, and merging into a record set that no longer holds the record
    (it was removed, or everything was cleared) or that holds it without an
    analysis returns the record set as it was. *)
Theorem merge_idempotent_and_stale_safe recordId d images :
  mergeExif recordId d (mergeExif recordId d images)
  = mergeExif recordId d images
  /\ mergeExif recordId d (without recordId images) = without recordId images
  /\ mergeExif recordId d (clearAll images) = clearAll images
  /\ ((forall img, In img images ->
                   ImageRecord.id img = recordId ->
                   ImageRecord.analysis img = None) ->
      mergeExif recordId d images = images).
Proof.
  split; [|split; [apply mergeExif_untracked|split]].
  - induction images as [|img images IH].
    + unfold mergeExif. destruct (hasMetadata d); reflexivity.
    + rewrite (mergeExif_cons recordId d img images).
      rewrite mergeExif_cons, IH. f_equal.
      rewrite mergeExif_one. simpl. rewrite mergeExif_one. simpl.
      destruct (ImageRecord.analysis img) as [a|] eqn:Ea; simpl.
      * destruct (hasMetadata d && sameId recordId img) eqn:E; simpl.
        -- unfold sameId in *. simpl. rewrite E.
           rewrite spread_idempotent. reflexivity.
        -- rewrite Ea, E. reflexivity.
      * rewrite Ea. reflexivity.
  - unfold clearAll, mergeExif. destruct (hasMetadata d); reflexivity.
  - induction images as [|img images IH]; intros Hstale.
    + unfold mergeExif. destruct (hasMetadata d); reflexivity.
    + rewrite mergeExif_cons, IH, mergeExif_one.
      * simpl. f_equal.
        destruct (ImageRecord.analysis img) as [a|] eqn:Ea; [|reflexivity].
        destruct (sameId recordId img) eqn:E;
          [|rewrite andb_false_r; reflexivity].
        apply sameId_true in E.
        rewrite (Hstale img (or_introl eq_refl) E) in Ea. discriminate.
      * intros img' Hin. apply Hstale. right. exact Hin.
Qed.

Lemma merge_idempotent_and_stale_safe_witness :
  let images := [Demo.record "a1" Status.analyzing None;
                 Demo.record "b2" Status.completed (Some Demo.analysis)] in
  (forall img, In img images -> ImageRecord.id img = lit "a1" ->
               ImageRecord.analysis img = None) /\
  mergeExif (lit "a1") Demo.withGps images = images /\
  mergeExif (lit "b2") Demo.withGps images <> images.
Proof.
  cbv zeta.
  assert (Hstale : forall img,
             In img [Demo.record "a1" Status.analyzing None;
                     Demo.record "b2" Status.completed (Some Demo.analysis)] ->
             ImageRecord.id img = lit "a1" ->
             ImageRecord.analysis img = None).
  { intros img [<-|[<-|[]]] Hid; [reflexivity|]. vm_compute in Hid.
    discriminate. }
  split; [exact Hstale|]. split; [|vm_compute; discriminate].
  exact (proj2 (proj2 (proj2
           (merge_idempotent_and_stale_safe (lit "a1") Demo.withGps _)))
           Hstale).
Defined.

(** C2, the claim as stated fails: an analysis that carries a location
    loses it when metadata with camera fields but without GPS coordinates is
    merged into it. *)
Lemma merge_overwrites_location :
  Demo.withoutGps
  = Extracted
      {| Exif.make := Some (lit "Canon"); Exif.model := Some (lit "EOS");
         Exif.dateTime := Some (lit "2024-05-01");
         Exif.exposureTime := Some (lit "1/250");
         Exif.fNumber := Some (lit "f/4"); Exif.iso := Some 100%Q |}
      None
  /\ location Demo.located
     = Some {| Location.lat := 521 # 10; Location.lng := 21%Q |}
  /\ location (spread Demo.located Demo.withoutGps) = None
  /\ map (fun img => option_map location (ImageRecord.analysis img))
         (mergeExif (lit "a1") Demo.withoutGps
            [Demo.record "a1" Status.completed (Some Demo.located)])
     = [Some None].
Proof. vm_compute. repeat split. Qed.

(** C2, as amended: the merge leaves every field of the analysis other than
    [exif] and [location] unchanged and leaves the record's status and error
    unchanged; when the extracted metadata is not empty its [exif] and
    [location] replace those of the analysis, so [exif] is present afterwards
    and [location] is the extracted one: present when the metadata has GPS
    coordinates and absent when it has none, whatever the analysis held
    before.  Empty metadata changes nothing. *)
Theorem merge_is_shallow h parsed a :
  let d := extractExifData h parsed in
  sameVisualFields a (spread a d)
  /\ (d = NoExif -> spread a d = a)
  /\ (d <> NoExif ->
      exif (spread a d) = exifOf d /\ exif (spread a d) <> None /\
      location (spread a d) = locationOf d)
  /\ (exif a <> None -> exif (spread a d) <> None)
  /\ (forall recordId images,
        Forall2
          (fun img img' =>
             sameUpload img img' /\
             ImageRecord.status img' = ImageRecord.status img /\
             ImageRecord.error img' = ImageRecord.error img /\
             (ImageRecord.analysis img' = ImageRecord.analysis img \/
              exists a0, ImageRecord.analysis img = Some a0 /\
                         ImageRecord.id img = recordId /\
                         ImageRecord.analysis img' = Some (spread a0 d)))
          images (mergeExif recordId d images)).
Proof.
  intros d. split; [apply spread_sameVisualFields|].
  split; [intros ->; reflexivity|].
  split; [|split].
  - intros Hd. destruct d as [|e l]; [contradiction|].
    simpl. repeat split. discriminate.
  - intros Ha. destruct d; simpl; [exact Ha|discriminate].
  - intros recordId images.
    induction images as [|img images IH].
    + unfold mergeExif. destruct (hasMetadata d); constructor.
    + rewrite mergeExif_cons, mergeExif_one. simpl.
      constructor; [|exact IH].
      destruct (ImageRecord.analysis img) as [a0|] eqn:Ea.
      * destruct (hasMetadata d && sameId recordId img) eqn:E.
        -- apply andb_true_iff in E as [_ E]. apply sameId_true in E.
           split; [apply sameUpload_withStatus|].
           split; [reflexivity|]. split; [reflexivity|].
           right. exists a0. repeat split; assumption.
        -- split; [apply sameUpload_refl|]. repeat split. left.
           congruence.
      * split; [apply sameUpload_refl|]. repeat split. left. congruence.
Qed.

Lemma merge_is_shallow_witness :
  let d := extractExifData Demo.host (Fulfilled (Some Demo.rawWithGps)) in
  d <> NoExif /\
  exif (spread Demo.analysis d) = exifOf d /\
  exif (spread Demo.analysis d) <> None /\
  location (spread Demo.analysis d)
  = Some {| Location.lat := 521 # 10; Location.lng := 21%Q |}.
Proof.
  cbv zeta.
  assert (Hd : extractExifData Demo.host (Fulfilled (Some Demo.rawWithGps))
               <> NoExif) by (vm_compute; discriminate).
  split; [exact Hd|].
  destruct (proj1 (proj2 (proj2
              (merge_is_shallow Demo.host (Fulfilled (Some Demo.rawWithGps))
                 Demo.analysis))) Hd) as (He & Hne & Hl).
  split; [exact He|]. split; [exact Hne|]. rewrite Hl. reflexivity.
Defined.

(* ------------------------------------------------------------------ *)
(** ** Failing detectors *)

Lemma rejected_detector_rejects_call h lang i u canvas run scenes e :
  modelsReady i = Fulfilled u ->
  mlCanvas i = Fulfilled canvas ->
  faceAnalyzer i = Task run ->
  objectModel i = Some (Rejected e) ->
  match sceneModel i with Some c => c | None => Fulfilled [] end
  = Fulfilled scenes ->
  analyzeImageLocal h lang i = Rejected e.
Proof.
  intros Hr Hc Hf Ho Hs. unfold analyzeImageLocal, promiseAll.
  rewrite Hr, Hc, Hf, Ho, Hs. reflexivity.
Qed.

Lemma rejected_classifier_rejects_call h lang i u canvas run detections e :
  modelsReady i = Fulfilled u ->
  mlCanvas i = Fulfilled canvas ->
  faceAnalyzer i = Task run ->
  match objectModel i with Some d => d | None => Fulfilled [] end
  = Fulfilled detections ->
  sceneModel i = Some (Rejected e) ->
  analyzeImageLocal h lang i = Rejected e.
Proof.
  intros Hr Hc Hf Ho Hs. unfold analyzeImageLocal, promiseAll.
  rewrite Hr, Hc, Hf, Ho, Hs. reflexivity.
Qed.

(** C3 at the failing inputs: when [detect] of the object detector rejects,
    or [classify] of the scene classifier, while the three other providers
    answer, the call rejects with that failure and the record ends in
    [error]; no analysis is delivered. *)
Lemma detector_failure_fails_the_call :
  analyzeImageLocal Demo.host pl Demo.objectDetectorFails
  = Rejected Demo.boom
  /\ analyzeImageLocal Demo.host pl Demo.sceneClassifierFails
     = Rejected Demo.boom
  /\ map (fun img => (ImageRecord.status img, ImageRecord.analysis img,
                      ImageRecord.error img))
         (analyzeSingleRecord Demo.unknownError (lit "a1")
            (analyzeImageLocal Demo.host pl Demo.objectDetectorFails)
            [Demo.record "a1" Status.pending None])
     = [(Status.error, None, Some (lit "detector failed"))].
Proof.
  split; [|split].
  - apply (rejected_detector_rejects_call _ _ _ tt (Demo.canvas 600)
             (Fulfilled []) [Demo.park]); reflexivity.
  - apply (rejected_classifier_rejects_call _ _ _ tt (Demo.canvas 600)
             (Fulfilled []) [Demo.dog]); reflexivity.
  - vm_compute. reflexivity.
Qed.

(** A face task that fails leaves [Promise.all] unsettled unless another
    provider rejects; a face task that cannot be built rejects the call. *)
Lemma failed_face_task_never_fulfils h lang i :
  (exists e, faceAnalyzer i = Task (Rejected e)) \/
  (exists e, faceAnalyzer i = Throws e) ->
  forall a, analyzeImageLocal h lang i <> Fulfilled a.
Proof.
  intros Hf a Ha. apply analyzeImageLocal_inv in Ha
    as (_ & _ & _ & _ & _ & _ & _ & _ & Htask & _).
  destruct Hf as [(e & He)|(e & He)]; rewrite He in Htask; discriminate.
Qed.

(** C6 at the failing inputs: when the face task fails while the three
    other providers answer, the promise made of it never settles, the
    handler of its [catch] is not run and the call stays pending, so that
    the record stays in [analyzing]; when building the task throws, the call
    rejects and the record ends in [error].  Either way no analysis is
    delivered. *)
Lemma face_failure_fails_the_call :
  analyzeImageLocal Demo.host pl Demo.faceAnalyzerFails = Pending
  /\ map (fun img => (ImageRecord.status img, ImageRecord.analysis img,
                      ImageRecord.error img))
         (analyzeSingleRecord Demo.unknownError (lit "a1")
            (analyzeImageLocal Demo.host pl Demo.faceAnalyzerFails)
            [Demo.record "a1" Status.pending None])
     = [(Status.analyzing, None, None)]
  /\ analyzeImageLocal Demo.host pl Demo.faceAnalyzerThrows
     = Rejected Demo.boom
  /\ map (fun img => (ImageRecord.status img, ImageRecord.analysis img,
                      ImageRecord.error img))
         (analyzeSingleRecord Demo.unknownError (lit "a1")
            (analyzeImageLocal Demo.host pl Demo.faceAnalyzerThrows)
            [Demo.record "a1" Status.pending None])
     = [(Status.error, None, Some (lit "detector failed"))]
  /\ (forall a, analyzeImageLocal Demo.host pl Demo.faceAnalyzerFails
                <> Fulfilled a).
Proof.
  split; [reflexivity|]. split; [vm_compute; reflexivity|].
  split; [reflexivity|]. split; [vm_compute; reflexivity|].
  apply failed_face_task_never_fulfils. left. eexists. reflexivity.
Qed.

(* ------------------------------------------------------------------ *)
(** ** The face sequence and its summaries *)

Lemma byBoxX_flip a b : (0 < byBoxX a b)%Q -> (byBoxX b a < 0)%Q.
Proof. unfold byBoxX. lra. Qed.

Lemma byBoxX_trans a b c :
  (byBoxX a b <= 0)%Q -> (byBoxX b c <= 0)%Q -> (byBoxX a c <= 0)%Q.
Proof. unfold byBoxX. lra. Qed.

Lemma sort_byBoxX_sorted fs : StronglySorted leftOf (sort byBoxX fs).
Proof.
  apply StronglySorted_weaken with (R := ranked byBoxX (fun _ _ => True)).
  - intros a b _ _ H.
    apply (ranked_le byBoxX (fun _ _ => True)) in H.
    unfold leftOf, byBoxX in *. lra.
  - apply sort_ranked;
      [exact byBoxX_flip|exact byBoxX_trans|apply StronglySorted_any].
Qed.

Lemma collectFaces_boxes h w fds fs :
  collectFaces h w fds = Fulfilled fs ->
  map FaceDetail.box fs = map RawFace.box fds.
Proof.
  intros H. apply collectFaces_Forall2 in H.
  induction H as [|fd f fds fs Hf _ IH]; simpl; [reflexivity|].
  apply faceDetail_fields in Hf as (-> & _). rewrite IH. reflexivity.
Qed.

(** C4: the faces of a returned analysis are in ascending order of their
    box x, whatever the order in which the face analyzer reported them; they
    are the reported boxes, each once. *)
Theorem faces_sorted_by_x h lang i a fs :
  analyzeImageLocal h lang i = Fulfilled a ->
  faces a = Some fs ->
  StronglySorted leftOf fs /\
  Sorted leftOf fs /\
  Permutation (map RawFace.box (detectedFaces i)) (map FaceDetail.box fs).
Proof.
  intros Ha Hfs.
  apply analyzeImageLocal_Fulfilled in Ha
    as (canvas & pushed & _ & Hpushed & Hfaces & _).
  rewrite Hfaces in Hfs. injection Hfs as <-.
  pose proof (sort_byBoxX_sorted pushed) as Hsorted.
  split; [exact Hsorted|]. split; [apply StronglySorted_Sorted, Hsorted|].
  rewrite <- (collectFaces_boxes _ _ _ _ Hpushed).
  apply Permutation_map, sort_perm.
Qed.

Lemma faces_sorted_by_x_witness :
  exists a fs,
    analyzeImageLocal Demo.host pl Demo.twoFaces = Fulfilled a /\
    faces a = Some fs /\
    map (fun fd => Box.x (RawFace.box fd)) (detectedFaces Demo.twoFaces)
    = [500; 100]%Q /\
    map (fun f => Box.x (FaceDetail.box f)) fs = [100; 500]%Q /\
    StronglySorted leftOf fs.
Proof.
  eexists. eexists.
  split; [vm_compute; reflexivity|].
  split; [reflexivity|]. split; [reflexivity|]. split; [reflexivity|].
  eapply (faces_sorted_by_x Demo.host pl Demo.twoFaces);
    [vm_compute|]; reflexivity.
Defined.

Lemma Qminus_le_0 (a b : Q) : (a - b <= 0)%Q -> (a <= b)%Q.
Proof. intros H. lra. Qed.

Lemma app_nonempty_l (s t : jsstring) : s <> [] -> s ++ t <> [].
Proof. destruct s; [contradiction|discriminate]. Qed.

Lemma app_nonempty_r (s t : jsstring) : t <> [] -> s ++ t <> [].
Proof.
  intros Ht H. apply app_eq_nil in H as [_ H]. contradiction.
Qed.

Lemma sumOfAges_fold fs :
  sumOfAges fs = fold_right Z.add 0 (map FaceDetail.age fs).
Proof.
  unfold sumOfAges.
  assert (H : forall acc,
             fold_left (fun acc curr => acc + FaceDetail.age curr) fs acc
             = acc + fold_right Z.add 0 (map FaceDetail.age fs)).
  { induction fs as [|f fs IH]; intros acc; simpl; [lia|].
    rewrite IH. lia. }
  rewrite H. lia.
Qed.

Lemma ageSentence_nonempty lang age male : ageSentence lang age male <> [].
Proof.
  destruct lang; unfold ageSentence; apply app_nonempty_l;
    vm_compute; discriminate.
Qed.

Lemma ageSummary_sentence lang first rest :
  exists prefix,
    ageSummary lang (first :: rest)
    = prefix ++ ageSentence lang (round (averageAge (first :: rest)))
                  (isMale (FaceDetail.gender first)).
Proof.
  unfold ageSummary, averageAge, countOf. rewrite sumOfAges_fold.
  destruct lang; destruct (isMale (FaceDetail.gender first));
    eexists; unfold ageSentence; reflexivity.
Qed.

Lemma emotionSummary_present lang first rest :
  emotionSummary lang (first :: rest) <> [] <->
  (0.1 < FaceDetail.emotionScore first)%Q.
Proof.
  unfold emotionSummary.
  destruct (gtb (FaceDetail.emotionScore first) 0.1%Q) eqn:E.
  - apply gtb_gt in E. split; [intros _; exact E|intros _].
    apply app_nonempty_r, app_nonempty_l. vm_compute. discriminate.
  - apply gtb_le in E. split; [congruence|]. intros H. exfalso. lra.
Qed.

Lemma byScoreDescending_flip a b :
  (0 < byScoreDescending a b)%Q -> (byScoreDescending b a < 0)%Q.
Proof. unfold byScoreDescending. lra. Qed.

Lemma byScoreDescending_trans a b c :
  (byScoreDescending a b <= 0)%Q -> (byScoreDescending b c <= 0)%Q ->
  (byScoreDescending a c <= 0)%Q.
Proof. unfold byScoreDescending. lra. Qed.

(** The reported emotion is an entry of the distribution that no other entry
    exceeds. *)
Lemma topEmotion_top h fd e sc :
  topEmotion h (RawFace.expressions fd) = Fulfilled (e, sc) ->
  topOf fd e sc.
Proof.
  unfold topEmotion, topOf.
  destruct (RawFace.expressions fd) as [entries|].
  - destruct (sort byScoreDescending entries) as [|first rest] eqn:Es;
      [discriminate|].
    intros H. injection H as ->.
    pose proof (sort_ranked byScoreDescending byScoreDescending_flip
                  byScoreDescending_trans (fun _ _ => True) entries
                  (StronglySorted_any entries)) as Hsorted.
    rewrite Es in Hsorted.
    inversion Hsorted as [|? ? _ Hfirst]; subst.
    split.
    + apply (sort_In byScoreDescending). rewrite Es. left. reflexivity.
    + apply Forall_forall. intros entry Hin.
      apply (sort_In byScoreDescending) in Hin. rewrite Es in Hin.
      destruct Hin as [<-|Hin]; [apply Qle_refl|].
      rewrite Forall_forall in Hfirst. apply Hfirst in Hin.
      apply (ranked_le byScoreDescending (fun _ _ => True)) in Hin.
      unfold byScoreDescending in Hin. cbn [snd] in Hin.
      apply Qminus_le_0. exact Hin.
  - intros H. injection H as <- <-. split; reflexivity.
Qed.

Lemma Forall2_In_r {A B} (R : A -> B -> Prop) l l' b :
  Forall2 R l l' -> In b l' -> exists a, In a l /\ R a b.
Proof.
  induction 1 as [|a b' l l' HR _ IH]; intros Hin; [contradiction|].
  destruct Hin as [<-|Hin].
  - exists a. split; [left; reflexivity|exact HR].
  - destruct (IH Hin) as (a' & Ha' & HR'). exists a'.
    split; [right; exact Ha'|exact HR'].
Qed.



(* ------------------------------------------------------------------ *)
(** ** The recognized text *)

Module TextFacts.

Lemma trimStart_clean s : trimStart s <> [] -> startsClean (trimStart s).
Proof.
  induction s as [|c s IH]; simpl; [congruence|].
  destruct (isWhiteSpace c) eqn:E; [exact IH|]. intros _. exact E.
Qed.

Lemma trimStart_id s : startsClean s -> trimStart s = s.
Proof. destruct s as [|c s]; simpl; [tauto|]. intros ->. reflexivity. Qed.

Lemma trimStart_snoc s c :
  isWhiteSpace c = false -> trimStart (s ++ [c]) = trimStart s ++ [c].
Proof.
  intros Hc. induction s as [|d s IH]; simpl.
  - rewrite Hc. reflexivity.
  - destruct (isWhiteSpace d); [exact IH|reflexivity].
Qed.

Lemma trimEnd_id s : endsClean s -> trimEnd s = s.
Proof.
  unfold endsClean, trimEnd. intros H.
  rewrite trimStart_id by exact H. apply rev_involutive.
Qed.

Lemma trim_id s : startsClean s -> endsClean s -> trim s = s.
Proof.
  intros Hs He. unfold trim. rewrite trimStart_id by exact Hs.
  apply trimEnd_id. exact He.
Qed.

Lemma trim_clean s : trim s <> [] -> startsClean (trim s) /\ endsClean (trim s).
Proof.
  unfold trim, trimEnd, endsClean. intros Hne.
  set (t := trimStart s) in *.
  assert (Hrev : trimStart (rev t) <> []).
  { intros H. apply Hne. rewrite H. reflexivity. }
  split.
  - assert (Ht : t <> []).
    { intros H. apply Hrev. rewrite H. reflexivity. }
    pose proof (trimStart_clean s Ht) as Hc. fold t in Hc.
    destruct t as [|c t']; [contradiction|]. simpl in Hc.
    simpl rev. rewrite trimStart_snoc by exact Hc.
    rewrite rev_app_distr. simpl. exact Hc.
  - rewrite rev_involutive. apply trimStart_clean. exact Hrev.
Qed.

Lemma trim_idempotent s : trim (trim s) = trim s.
Proof.
  destruct (trim s) as [|c t] eqn:E; [reflexivity|].
  rewrite <- E. apply trim_id; apply trim_clean; rewrite E; discriminate.
Qed.

Lemma trimStart_In c s : In c (trimStart s) -> In c s.
Proof.
  induction s as [|d s IH]; simpl; [tauto|].
  destruct (isWhiteSpace d); [|tauto]. intros H. right. apply IH, H.
Qed.

Lemma trim_In c s : In c (trim s) -> In c s.
Proof.
  unfold trim, trimEnd. intros H. apply in_rev in H.
  apply trimStart_In in H. apply in_rev in H. apply trimStart_In in H.
  exact H.
Qed.

Lemma startsClean_app s t : startsClean s -> startsClean (s ++ t).
Proof. destruct s; simpl; tauto. Qed.

Lemma endsClean_app s t : endsClean t -> endsClean (s ++ t).
Proof.
  unfold endsClean. rewrite rev_app_distr. apply startsClean_app.
Qed.

Lemma join_clean sep ls :
  ls <> [] -> Forall (fun l => startsClean l /\ endsClean l) ls ->
  startsClean (join sep ls) /\ endsClean (join sep ls).
Proof.
  induction ls as [|l ls IH]; intros Hne Hall; [contradiction|].
  inversion Hall as [|? ? [Hs He] Hrest]; subst. simpl.
  destruct ls as [|l' ls']; [tauto|].
  destruct IH as [_ IHe]; [discriminate|exact Hrest|].
  split; [apply startsClean_app; exact Hs|].
  apply endsClean_app, endsClean_app. exact IHe.
Qed.

(** Splitting what was joined. *)
Lemma split_line sep l : ~ In sep l -> split sep l = [l].
Proof.
  induction l as [|c l IH]; intros Hnot; simpl; [reflexivity|].
  destruct (N.eqb_spec c sep) as [->|Hne].
  - exfalso. apply Hnot. left. reflexivity.
  - rewrite IH; [reflexivity|]. intros H. apply Hnot. right. exact H.
Qed.

Lemma split_app sep l rest :
  ~ In sep l -> split sep (l ++ sep :: rest) = l :: split sep rest.
Proof.
  induction l as [|c l IH]; intros Hnot; simpl.
  - rewrite N.eqb_refl. reflexivity.
  - destruct (N.eqb_spec c sep) as [->|Hne].
    + exfalso. apply Hnot. left. reflexivity.
    + rewrite IH; [reflexivity|]. intros H. apply Hnot. right. exact H.
Qed.

Lemma split_join sep ls :
  ls <> [] -> Forall (fun l => ~ In sep l) ls ->
  split sep (join [sep] ls) = ls.
Proof.
  induction ls as [|l ls IH]; intros Hne Hall; [contradiction|].
  inversion Hall as [|? ? Hl Hrest]; subst.
  destruct ls as [|l' ls']; [simpl; apply split_line; exact Hl|].
  change (join [sep] (l :: l' :: ls'))
    with (l ++ sep :: join [sep] (l' :: ls')).
  rewrite split_app by exact Hl.
  rewrite IH; [reflexivity|discriminate|exact Hrest].
Qed.

Lemma split_no_separator sep s : Forall (fun l => ~ In sep l) (split sep s).
Proof.
  induction s as [|c s IH]; simpl.
  - constructor; [tauto|constructor].
  - destruct (N.eqb_spec c sep) as [->|Hne].
    + constructor; [tauto|exact IH].
    + destruct (split sep s) as [|l ls]; [repeat constructor; simpl; intuition|].
      inversion IH; subst. constructor; [|assumption].
      simpl. intros [H|H]; [congruence|contradiction].
Qed.

(** The 30% test, in integers. *)
Lemma ratio_at_least (n len : nat) :
  (0 < len)%nat ->
  geb (inject_Z (Z.of_nat n) / inject_Z (Z.of_nat len))%Q 0.3%Q = true ->
  (3 * len <= 10 * n)%nat.
Proof.
  intros Hlen H. apply geb_ge in H.
  assert (Hpos : (0 < inject_Z (Z.of_nat len))%Q).
  { change 0%Q with (inject_Z 0). rewrite <- Zlt_Qlt. lia. }
  assert (Hmul : (0.3 * inject_Z (Z.of_nat len) <= inject_Z (Z.of_nat n))%Q).
  { assert (Heq : (inject_Z (Z.of_nat n) / inject_Z (Z.of_nat len)
                    * inject_Z (Z.of_nat len) == inject_Z (Z.of_nat n))%Q).
    { rewrite Qmult_comm. apply Qmult_div_r. intros Hz.
      rewrite Hz in Hpos. exact (Qlt_irrefl 0 Hpos). }
    rewrite <- Heq.
    apply Qmult_le_compat_r; [exact H|apply Qlt_le_weak; exact Hpos]. }
  unfold Qle, Qmult, inject_Z in Hmul. cbn [Qnum Qden] in Hmul.
  rewrite Pos.mul_1_r in Hmul. lia.
Qed.

Lemma keepLine_retained line t : keepLine line = Some t -> retained t.
Proof.
  unfold keepLine, retained, alphaNumCount.
  destruct (truthy (trim line)) eqn:Et; simpl; [|discriminate].
  destruct (geb (lengthOf (filter alphaNumeric (trim line))) 2%Q) eqn:E2;
    simpl; [|discriminate].
  destruct (geb (lengthOf (filter alphaNumeric (trim line))
                 / lengthOf (trim line))%Q 0.3%Q) eqn:E3; [|discriminate].
  intros H. injection H as <-.
  apply truthy_iff in Et.
  split; [exact Et|]. split; [apply trim_idempotent|]. split.
  - apply geb_ge in E2. unfold lengthOf in E2.
    change 2%Q with (inject_Z 2) in E2. rewrite <- Zle_Qle in E2. lia.
  - apply ratio_at_least; [|exact E3].
    destruct (trim line); [contradiction|simpl; lia].
Qed.

Lemma keepLine_no_LF line t :
  ~ In LF line -> keepLine line = Some t -> ~ In LF t.
Proof.
  unfold keepLine. intros Hline.
  destruct (negb (truthy (trim line))); [discriminate|].
  destruct (_ && _); [|discriminate].
  intros H. injection H as <-. intros Hin. apply Hline, trim_In, Hin.
Qed.

Lemma filteredLines_Forall (P : jsstring -> Prop) lines :
  (forall line t, In line lines -> keepLine line = Some t -> P t) ->
  Forall P (filteredLines lines).
Proof.
  induction lines as [|line lines IH]; intros HP; simpl; [constructor|].
  assert (Hrest : Forall P (filteredLines lines)).
  { apply IH. intros l t Hin. apply HP. right. exact Hin. }
  destruct (keepLine line) as [t|] eqn:E; [|exact Hrest].
  destruct (truthy t); [|exact Hrest].
  constructor; [|exact Hrest]. apply (HP line); [left; reflexivity|exact E].
Qed.

Lemma retained_clean t : retained t -> startsClean t /\ endsClean t.
Proof.
  intros (Hne & Htrim & _). rewrite <- Htrim. apply trim_clean.
  rewrite Htrim. exact Hne.
Qed.

(** The text kept from a recognition: empty, or at least three code units
    long and made of retained lines. *)
Lemma cleanText_retained text :
  cleanText text = [] \/
  ((3 <= List.length (cleanText text))%nat /\
   Forall retained (split LF (cleanText text))).
Proof.
  unfold cleanText.
  set (kept := filteredLines (split LF text)).
  assert (Hret : Forall retained kept).
  { apply filteredLines_Forall. intros line t _. apply keepLine_retained. }
  assert (Hlf : Forall (fun l => ~ In LF l) kept).
  { apply filteredLines_Forall. intros line t Hin.
    apply keepLine_no_LF.
    pose proof (split_no_separator LF text) as H.
    rewrite Forall_forall in H. apply H. exact Hin. }
  destruct (geb (lengthOf (trim (join [LF] kept))) 3%Q) eqn:E;
    [|left; reflexivity].
  right. destruct kept as [|l ls] eqn:Ek; [discriminate E|].
  assert (Hclean : trim (join [LF] (l :: ls)) = join [LF] (l :: ls)).
  { apply trim_id; apply join_clean; try discriminate;
      (eapply Forall_impl; [|exact Hret]); intros t; apply retained_clean. }
  rewrite Hclean in *. split.
  - apply geb_ge in E. unfold lengthOf in E.
    change 3%Q with (inject_Z 3) in E. rewrite <- Zle_Qle in E. lia.
  - rewrite split_join; [exact Hret|discriminate|exact Hlf].
Qed.

Lemma performOCR_fails tr : ocrFails tr -> performOCR tr = [].
Proof.
  unfold performOCR.
  intros [[e H]|[[e H]|[e H]]]; rewrite H;
    destruct (TextRecognizer.createWorker tr); simpl; try reflexivity;
    destruct (TextRecognizer.recognize tr); simpl; try reflexivity;
    discriminate.
Qed.

Lemma performOCR_retained tr :
  performOCR tr = [] \/
  ((3 <= List.length (performOCR tr))%nat /\
   Forall retained (split LF (performOCR tr))).
Proof.
  unfold performOCR.
  destruct (TextRecognizer.createWorker tr); simpl; [|left; reflexivity].
  destruct (TextRecognizer.recognize tr); simpl; [|left; reflexivity].
  destruct (TextRecognizer.terminate tr); simpl; [|left; reflexivity].
  apply cleanText_retained.
Qed.

End TextFacts.

(** C10: the [ocrText] of a returned analysis is never the empty string; when
    present it has at least three code units and each of its lines is a
    trimmed line with at least two alphanumeric code units that make up at
    least 30% of it; when an awaited call of the recognizer rejects, the
    field is absent. *)
Theorem ocrText_absent_or_filtered h lang i a :
  analyzeImageLocal h lang i = Fulfilled a ->
  ocrText a <> Some [] /\
  (forall t, ocrText a = Some t ->
             (3 <= List.length t)%nat /\ Forall retained (split LF t)) /\
  (ocrFails (textRecognizer i lang) -> ocrText a = None).
Proof.
  intros Ha.
  apply analyzeImageLocal_Fulfilled in Ha
    as (_ & _ & _ & _ & _ & _ & _ & _ & Hocr).
  rewrite Hocr. clear Hocr.
  split; [|split].
  - destruct (performOCR (textRecognizer i lang)); simpl; discriminate.
  - intros t Ht.
    destruct (TextFacts.performOCR_retained (textRecognizer i lang)) as [E|H].
    + rewrite E in Ht. discriminate.
    + destruct (truthy (performOCR (textRecognizer i lang))); [|discriminate].
      injection Ht as <-. exact H.
  - intros Hfail. rewrite (TextFacts.performOCR_fails _ Hfail). reflexivity.
Qed.

(* ------------------------------------------------------------------ *)
(** ** The dominant colours *)

Module ColorFacts.

Lemma toInt32_small z : - 2 ^ 31 <= z < 2 ^ 31 -> toInt32 z = z.
Proof. intros H. unfold toInt32. rewrite Z.mod_small; lia. Qed.

Lemma shl_small a k :
  0 <= a -> 0 <= k < 32 -> a * 2 ^ k < 2 ^ 31 -> shl a k = a * 2 ^ k.
Proof.
  intros Ha Hk Hlt. unfold shl.
  assert (Hka : a <= a * 2 ^ k) by nia.
  rewrite (toInt32_small a) by lia.
  rewrite (Z.mod_small k 32) by lia.
  rewrite Z.shiftl_mul_pow2 by lia.
  apply toInt32_small. nia.
Qed.

Lemma channel_range b : 0 <= channel b < 256.
Proof.
  unfold channel. pose proof (Byte.to_N_bounded b) as H. lia.
Qed.

(** The number whose hexadecimal digits are printed. *)
Lemma packed_range p :
  2 ^ 24 <= shl 1 24 + shl (channel (red p)) 16 + shl (channel (green p)) 8
            + channel (blue p) < 2 ^ 25.
Proof.
  pose proof (channel_range (red p)) as Hr.
  pose proof (channel_range (green p)) as Hg.
  pose proof (channel_range (blue p)) as Hb.
  rewrite (shl_small (channel (red p)) 16) by lia.
  rewrite (shl_small (channel (green p)) 8) by lia.
  change (shl 1 24) with (2 ^ 24).
  change (2 ^ 24) with 16777216. change (2 ^ 25) with 33554432.
  change (2 ^ 16) with 65536. change (2 ^ 8) with 256. lia.
Qed.

Lemma hexDigit_ok d : 0 <= d < 16 -> isHexDigit (hexDigit d) = true.
Proof.
  intros Hd. unfold hexDigit, isHexDigit.
  destruct (Z.ltb_spec d 10).
  - assert (H1 : (48 <= Z.to_N (48 + d))%N) by lia.
    assert (H2 : (Z.to_N (48 + d) <= 57)%N) by lia.
    apply N.leb_le in H1, H2. rewrite H1, H2. reflexivity.
  - assert (H1 : (97 <= Z.to_N (87 + d))%N) by lia.
    assert (H2 : (Z.to_N (87 + d) <= 102)%N) by lia.
    apply N.leb_le in H1, H2. rewrite H1, H2. apply orb_true_r.
Qed.

(** A number of [k + 1] hexadecimal digits prints as that many digits,
    given fuel for them. *)
Lemma toString16_aux_digits (k : nat) :
  forall n fuel acc,
    16 ^ Z.of_nat k <= n < 16 ^ Z.of_nat (S k) ->
    (k < fuel)%nat ->
    exists digits,
      toString16_aux fuel n acc = digits ++ acc /\
      List.length digits = S k /\
      forallb isHexDigit digits = true.
Proof.
  induction k as [|k IH]; intros n fuel acc Hn Hfuel;
    (destruct fuel as [|fuel]; [lia|]); simpl toString16_aux.
  - change (16 ^ Z.of_nat 0) with 1 in Hn.
    change (16 ^ Z.of_nat 1) with 16 in Hn.
    rewrite Z.div_small by lia. simpl.
    exists [hexDigit (n mod 16)]. split; [reflexivity|].
    split; [reflexivity|]. simpl.
    rewrite hexDigit_ok; [reflexivity|]. apply Z.mod_pos_bound. lia.
  - rewrite !Nat2Z.inj_succ in Hn. rewrite !Z.pow_succ_r in Hn by lia.
    assert (Hpow : 0 < 16 ^ Z.of_nat k) by (apply Z.pow_pos_nonneg; lia).
    assert (Hq : 16 ^ Z.of_nat k <= n / 16 < 16 ^ Z.of_nat (S k)).
    { rewrite Nat2Z.inj_succ, Z.pow_succ_r by lia. split.
      - apply Z.div_le_lower_bound; lia.
      - apply Z.div_lt_upper_bound; lia. }
    destruct (Z.eqb_spec (n / 16) 0) as [E|_]; [lia|].
    destruct (IH (n / 16) fuel (hexDigit (n mod 16) :: acc) Hq)
      as (digits & Hdigits & Hlen & Hall); [lia|].
    exists (digits ++ [hexDigit (n mod 16)]).
    split; [rewrite Hdigits, <- app_assoc; reflexivity|].
    split; [rewrite length_app, Hlen; simpl; lia|].
    rewrite forallb_app, Hall. simpl.
    rewrite hexDigit_ok; [reflexivity|]. apply Z.mod_pos_bound. lia.
Qed.

Lemma hexOf_valid p : isHexColor (hexOf p) = true.
Proof.
  unfold hexOf. pose proof (packed_range p) as Hn.
  set (n := shl 1 24 + shl (channel (red p)) 16 + shl (channel (green p)) 8
            + channel (blue p)) in *.
  assert (Hlog : Z.log2 n = 24) by (apply Z.log2_unique; lia).
  unfold toString16. rewrite Hlog.
  destruct (toString16_aux_digits 6 n (S (Z.to_nat 24)) [])
    as (digits & -> & Hlen & Hall).
  - change (16 ^ Z.of_nat 6) with (2 ^ 24).
    change (16 ^ Z.of_nat 7) with (2 ^ 28).
    change (2 ^ 28) with 268435456. change (2 ^ 25) with 33554432 in Hn.
    lia.
  - change (Z.to_nat 24) with 24%nat. lia.
  - rewrite app_nil_r.
    destruct digits as [|d digits]; [discriminate|].
    simpl in Hall. apply andb_true_iff in Hall as [_ Hall].
    simpl in Hlen. injection Hlen as Hlen.
    change (lit "#") with [35%N]. unfold slice1. cbn [skipn app].
    unfold isHexColor. rewrite Hlen, Hall. reflexivity.
Qed.

(** The sample takes every thousandth pixel, from the first on. *)
Lemma everyFrom_nth data :
  forall skip k,
    nth_error (everyFrom skip data) k = nth_error data (skip + 1000 * k).
Proof.
  induction data as [|p data IH]; intros skip k.
  - simpl. destruct k; destruct (skip + _)%nat; reflexivity.
  - destruct skip as [|skip].
    + cbn [everyFrom]. destruct k as [|k].
      * reflexivity.
      * cbn [nth_error]. rewrite IH.
        replace (0 + 1000 * S k)%nat with (S (999 + 1000 * k)) by lia.
        reflexivity.
    + cbn [everyFrom]. rewrite IH.
      replace (S skip + 1000 * k)%nat with (S (skip + 1000 * k)) by lia.
      reflexivity.
Qed.

Lemma sampled_nth data k :
  nth_error (sampled data) k = nth_error data (1000 * k).
Proof. unfold sampled. rewrite everyFrom_nth. reflexivity. Qed.

(** *** The tally *)

Lemma inb_In h l : inb h l = true <-> In h l.
Proof.
  unfold inb. rewrite existsb_exists. split.
  - intros (k & Hk & E). apply eqb_eq in E. subst. exact Hk.
  - intros H. exists h. split; [exact H|apply eqb_refl].
Qed.

Lemma inb_not_In h l : inb h l = false <-> ~ In h l.
Proof.
  rewrite <- inb_In. destruct (inb h l); split; congruence.
Qed.

Lemma eqb_sym (s t : jsstring) : eqb s t = eqb t s.
Proof.
  destruct (eqb s t) eqn:E.
  - apply eqb_eq in E. subst. symmetry. apply eqb_refl.
  - symmetry. apply eqb_neq. apply eqb_neq in E. congruence.
Qed.

Lemma dedupe_snoc s :
  forall seen h,
    dedupe seen (s ++ [h])
    = dedupe seen s ++ (if inb h seen || inb h s then [] else [h]).
Proof.
  induction s as [|a s IH]; intros seen h; simpl.
  - rewrite orb_false_r. fold (inb h seen).
    destruct (inb h seen); reflexivity.
  - fold (inb a seen). destruct (inb a seen) eqn:Ea.
    + rewrite IH. f_equal. fold (inb h s).
      destruct (eqb h a) eqn:E; [|reflexivity].
      apply eqb_eq in E. subst. rewrite Ea. reflexivity.
    + rewrite IH. simpl. f_equal. f_equal. fold (inb h seen) (inb h s).
      destruct (eqb h a), (inb h seen), (inb h s); reflexivity.
Qed.

Lemma fromSet_snoc s h :
  fromSet (s ++ [h]) = fromSet s ++ (if inb h s then [] else [h]).
Proof. unfold fromSet. rewrite dedupe_snoc. reflexivity. Qed.

Lemma fromSet_In s k : In k (fromSet s) <-> In k s.
Proof.
  induction s as [|h s IH] using rev_ind; [simpl; tauto|].
  rewrite fromSet_snoc, !in_app_iff, IH.
  destruct (inb h s) eqn:E; simpl.
  - apply inb_In in E. intuition (subst; assumption).
  - tauto.
Qed.

Lemma fromSet_NoDup s : NoDup (fromSet s).
Proof.
  induction s as [|h s IH] using rev_ind; [constructor|].
  rewrite fromSet_snoc. destruct (inb h s) eqn:E.
  - rewrite app_nil_r. exact IH.
  - apply inb_not_In in E. apply NoDup_app; [exact IH|repeat constructor; simpl; tauto|].
    intros k Hk [<-|[]]. apply E, fromSet_In, Hk.
Qed.

Lemma occurrences_snoc s h k :
  occurrences (s ++ [h]) k
  = (occurrences s k + if eqb k h then 1 else 0)%nat.
Proof.
  unfold occurrences. rewrite filter_app, length_app. simpl.
  destruct (eqb k h); reflexivity.
Qed.

Lemma occurrences_absent s k : ~ In k s -> occurrences s k = O.
Proof.
  unfold occurrences. induction s as [|h s IH]; intros Hk; simpl;
    [reflexivity|].
  destruct (eqb k h) eqn:E.
  - apply eqb_eq in E. exfalso. apply Hk. left. congruence.
  - apply IH. intros H. apply Hk. right. exact H.
Qed.

Lemma bump_entries h (f : jsstring -> Z) keys :
  NoDup keys ->
  bump h (map (fun k => (k, f k)) keys)
  = map (fun k => (k, if eqb k h then f k + 1 else f k)) keys
    ++ (if inb h keys then [] else [(h, 1)]).
Proof.
  induction keys as [|k keys IH]; intros Hnd; simpl; [reflexivity|].
  inversion Hnd as [|? ? Hk Hrest]; subst.
  rewrite (eqb_sym k h). destruct (eqb h k) eqn:E; simpl.
  - apply eqb_eq in E. subst k. rewrite app_nil_r. f_equal.
    + f_equal. destruct (f h =? 0) eqn:E0; [|reflexivity].
      apply Z.eqb_eq in E0. rewrite E0. reflexivity.
    + apply map_ext_in. intros k' Hk'.
      destruct (eqb k' h) eqn:E'; [|reflexivity].
      apply eqb_eq in E'. subst. contradiction.
  - rewrite IH by exact Hrest. reflexivity.
Qed.

Lemma tally_snoc s h : tally (s ++ [h]) = bump h (tally s).
Proof. unfold tally. rewrite fold_left_app. reflexivity. Qed.

(** The tally holds each distinct colour once, in the order of first
    encounter, with the number of its occurrences. *)
Lemma tally_entries s : tally s = map (entry s) (fromSet s).
Proof.
  induction s as [|h s IH] using rev_ind; [reflexivity|].
  rewrite tally_snoc, IH. unfold entry at 1.
  rewrite (bump_entries h (fun k => Z.of_nat (occurrences s k)))
    by apply fromSet_NoDup.
  rewrite fromSet_snoc, map_app. f_equal.
  - apply map_ext. intros k. unfold entry. rewrite occurrences_snoc.
    destruct (eqb k h); f_equal; lia.
  - assert (Hinb : inb h (fromSet s) = inb h s).
    { destruct (inb h s) eqn:E.
      - apply inb_In, fromSet_In, inb_In, E.
      - apply inb_not_In. rewrite fromSet_In. apply inb_not_In, E. }
    rewrite Hinb. destruct (inb h s) eqn:E; [reflexivity|].
    apply inb_not_In in E. simpl. unfold entry.
    rewrite occurrences_snoc, eqb_refl, (occurrences_absent s h E).
    reflexivity.
Qed.

(** *** The order of first encounter *)

Lemma firstAt_app_in k s t : In k s -> firstAt k (s ++ t) = firstAt k s.
Proof.
  induction s as [|h s IH]; intros Hk; simpl; [contradiction|].
  destruct (eqb k h) eqn:E; [reflexivity|]. f_equal. apply IH.
  destruct Hk as [->|Hk]; [|exact Hk].
  rewrite eqb_refl in E. discriminate.
Qed.

Lemma firstAt_app_absent k s t :
  ~ In k s -> firstAt k (s ++ t) = (List.length s + firstAt k t)%nat.
Proof.
  induction s as [|h s IH]; intros Hk; simpl; [reflexivity|].
  destruct (eqb k h) eqn:E.
  - apply eqb_eq in E. exfalso. apply Hk. left. congruence.
  - f_equal. apply IH. intros H. apply Hk. right. exact H.
Qed.

Lemma firstAt_lt k s : In k s -> (firstAt k s < List.length s)%nat.
Proof.
  induction s as [|h s IH]; intros Hk; simpl; [contradiction|].
  destruct (eqb k h) eqn:E; [lia|].
  destruct Hk as [->|Hk]; [rewrite eqb_refl in E; discriminate|].
  apply IH in Hk. lia.
Qed.

Lemma StronglySorted_snoc {A} (R : A -> A -> Prop) l x :
  StronglySorted R l -> Forall (fun a => R a x) l ->
  StronglySorted R (l ++ [x]).
Proof.
  induction 1 as [|a l Hl IH Hal]; intros Hx; simpl.
  - repeat constructor.
  - inversion Hx; subst. constructor; [apply IH; assumption|].
    apply Forall_app. split; [exact Hal|]. repeat constructor. assumption.
Qed.

Lemma StronglySorted_map {A B} (f : A -> B) (R : B -> B -> Prop) l :
  StronglySorted (fun a b => R (f a) (f b)) l ->
  StronglySorted R (map f l).
Proof.
  induction 1 as [|a l Hl IH Hal]; simpl; constructor; [exact IH|].
  apply Forall_map. exact Hal.
Qed.

Lemma StronglySorted_app_cross {A} (R : A -> A -> Prop) l1 l2 a b :
  StronglySorted R (l1 ++ l2) -> In a l1 -> In b l2 -> R a b.
Proof.
  induction l1 as [|c l1 IH]; simpl; intros H Ha Hb; [contradiction|].
  inversion H as [|? ? Hl Hall]; subst.
  destruct Ha as [->|Ha]; [|apply IH; assumption].
  rewrite Forall_forall in Hall. apply Hall, in_or_app. right. exact Hb.
Qed.

Lemma StronglySorted_app_l {A} (R : A -> A -> Prop) l1 l2 :
  StronglySorted R (l1 ++ l2) -> StronglySorted R l1.
Proof.
  induction l1 as [|c l1 IH]; simpl; intros H; [constructor|].
  inversion H as [|? ? Hl Hall]; subst. constructor; [apply IH, Hl|].
  apply Forall_app in Hall. tauto.
Qed.

Lemma fromSet_first_encounter s :
  StronglySorted (fun a b => (firstAt a s < firstAt b s)%nat) (fromSet s).
Proof.
  induction s as [|h s IH] using rev_ind; [constructor|].
  assert (Hold : StronglySorted
                   (fun a b => (firstAt a (s ++ [h]) < firstAt b (s ++ [h]))%nat)
                   (fromSet s)).
  { eapply JSFacts.StronglySorted_weaken; [|exact IH].
    intros a b Ha Hb Hab.
    apply (proj1 (fromSet_In _ _)) in Ha. apply (proj1 (fromSet_In _ _)) in Hb.
    rewrite !firstAt_app_in by assumption. exact Hab. }
  rewrite fromSet_snoc. destruct (inb h s) eqn:E.
  - rewrite app_nil_r. exact Hold.
  - apply inb_not_In in E. apply StronglySorted_snoc; [exact Hold|].
    apply Forall_forall. intros a Ha. apply (proj1 (fromSet_In _ _)) in Ha.
    rewrite firstAt_app_in by exact Ha.
    rewrite firstAt_app_absent by exact E.
    pose proof (firstAt_lt a s Ha). lia.
Qed.

(** *** The ranking *)

Lemma byCountDescending_flip a b :
  (0 < byCountDescending a b)%Q -> (byCountDescending b a < 0)%Q.
Proof.
  unfold byCountDescending. change 0%Q with (inject_Z 0).
  rewrite <- !Zlt_Qlt. lia.
Qed.

Lemma byCountDescending_trans a b c :
  (byCountDescending a b <= 0)%Q -> (byCountDescending b c <= 0)%Q ->
  (byCountDescending a c <= 0)%Q.
Proof.
  unfold byCountDescending. change 0%Q with (inject_Z 0).
  rewrite <- !Zle_Qle. lia.
Qed.

Lemma ranking_In s k : In k (ranking s) <-> In k s.
Proof.
  unfold ranking. rewrite tally_entries. split.
  - intros H. apply in_map_iff in H as ((k', n) & E & H).
    simpl in E. subst k'.
    apply (proj1 (sort_In byCountDescending _ _)) in H.
    apply in_map_iff in H as (k'' & E & H). injection E as <- _.
    apply (proj1 (fromSet_In _ _)). exact H.
  - intros H. apply in_map_iff. exists (entry s k). split; [reflexivity|].
    apply (proj2 (sort_In byCountDescending _ _)). apply in_map.
    apply (proj2 (fromSet_In _ _)). exact H.
Qed.

Lemma ranking_sorted s : StronglySorted (outranks s) (ranking s).
Proof.
  unfold ranking. apply StronglySorted_map.
  set (before := fun a b : jsstring * Z =>
                   (firstAt (fst a) s < firstAt (fst b) s)%nat).
  apply JSFacts.StronglySorted_weaken
    with (R := ranked byCountDescending before).
  - intros a b Ha Hb Hab.
    apply (proj1 (sort_In byCountDescending _ _)) in Ha.
    apply (proj1 (sort_In byCountDescending _ _)) in Hb.
    rewrite tally_entries in Ha, Hb.
    apply in_map_iff in Ha as (ka & <- & _).
    apply in_map_iff in Hb as (kb & <- & _).
    unfold ranked, byCountDescending, before, entry, outranks in *.
    cbn [fst snd] in *. clear before.
    destruct Hab as [Hlt|[Heq Hfirst]].
    + left. change 0%Q with (inject_Z 0) in Hlt.
      rewrite <- Zlt_Qlt in Hlt. clear - Hlt. lia.
    + right. change 0%Q with (inject_Z 0) in Heq.
      apply (proj1 (inject_Z_injective _ _)) in Heq.
      split; [clear - Heq; lia|exact Hfirst].
  - apply sort_ranked;
      [exact byCountDescending_flip|exact byCountDescending_trans|].
    rewrite tally_entries. apply StronglySorted_map.
    exact (fromSet_first_encounter s).
Qed.

Lemma getDominantColors_ranking h width data :
  data <> [] ->
  getDominantColors h
    {| Canvas.width := width; Canvas.imageData := Some data |}
  = Fulfilled (firstn 3 (ranking (map hexOf (sampled data)))).
Proof.
  intros Hdata. unfold getDominantColors, ranking. cbn [Canvas.imageData].
  destruct data as [|p data]; [contradiction|].
  f_equal. symmetry. apply firstn_map.
Qed.

End ColorFacts.

Import ColorFacts.

Lemma firstn_In {A} (n : nat) (l : list A) (a : A) :
  In a (firstn n l) -> In a l.
Proof.
  intros H. rewrite <- (firstn_skipn n l). apply in_or_app. left. exact H.
Qed.

(** What [getDominantColors] returns for a canvas. *)
Lemma getDominantColors_ranked h canvas colors :
  getDominantColors h canvas = Fulfilled colors ->
  (List.length colors <= 3)%nat /\
  Forall (fun c => isHexColor c = true) colors /\
  match Canvas.imageData canvas with
  | None => colors = [lit "#000000"]
  | Some data =>
      let sample := map hexOf (sampled data) in
      (forall k, nth_error sample k
                 = option_map hexOf (nth_error data (1000 * k))) /\
      (forall c, In c colors -> In c sample) /\
      StronglySorted (outranks sample) colors /\
      (forall c, In c sample -> ~ In c colors ->
                 List.length colors = 3%nat /\
                 Forall (fun top => outranks sample top c) colors) /\
      match colors with
      | top :: _ =>
          forall c, In c sample ->
                    (occurrences sample c <= occurrences sample top)%nat
      | [] => sample = []
      end
  end.
Proof.
  destruct canvas as [w [data|]]; cbv zeta; cbn [Canvas.imageData].
  2: { intros H. injection H as <-. split; [simpl; lia|].
       split; [|reflexivity]. repeat constructor. }
  destruct data as [|p0 data0] eqn:Edata; [discriminate|].
  rewrite <- Edata.
  rewrite getDominantColors_ranking by (rewrite Edata; discriminate).
  intros H. apply Fulfilled_inj in H. subst colors. clear Edata p0 data0.
  set (sample := map hexOf (sampled data)).
  pose proof (ranking_sorted sample) as Hsorted.
  assert (Hsplit := firstn_skipn 3 (ranking sample)).
  split; [rewrite length_firstn; lia|].
  assert (Hin : forall c, In c (firstn 3 (ranking sample)) -> In c sample).
  { intros c Hc. apply ranking_In. apply firstn_In in Hc. exact Hc. }
  split.
  { apply Forall_forall. intros c Hc. apply Hin in Hc.
    apply in_map_iff in Hc as (p & <- & _). apply hexOf_valid. }
  split.
  { intros k. subst sample. rewrite nth_error_map, sampled_nth.
    reflexivity. }
  split; [exact Hin|].
  split.
  { apply StronglySorted_app_l with (l2 := skipn 3 (ranking sample)).
    rewrite Hsplit. exact Hsorted. }
  split.
  { intros c Hc Hnot.
    assert (Hlater : In c (skipn 3 (ranking sample))).
    { apply (proj2 (ranking_In sample c)) in Hc. rewrite <- Hsplit in Hc.
      apply in_app_or in Hc as [Hc|Hc]; [contradiction|exact Hc]. }
    split.
    - rewrite length_firstn.
      assert (Hlen : (3 < List.length (ranking sample))%nat).
      { destruct (Nat.lt_ge_cases 3 (List.length (ranking sample)))
          as [Hlt|Hge]; [exact Hlt|].
        rewrite skipn_all2 in Hlater by exact Hge. contradiction. }
      lia.
    - apply Forall_forall. intros top Htop.
      apply StronglySorted_app_cross
        with (l1 := firstn 3 (ranking sample))
             (l2 := skipn 3 (ranking sample)); try assumption.
      rewrite Hsplit. exact Hsorted. }
  destruct (ranking sample) as [|top rest] eqn:Er.
  - simpl. destruct sample as [|c sample'] eqn:Es; [reflexivity|].
    assert (Hc : In c (ranking (c :: sample'))).
    { apply ranking_In. left. reflexivity. }
    rewrite Er in Hc. contradiction.
  - simpl. intros c Hc.
    apply (proj2 (ranking_In sample c)) in Hc. rewrite Er in Hc.
    inversion Hsorted as [|? ? _ Htop]; subst.
    destruct Hc as [<-|Hc]; [lia|].
    rewrite Forall_forall in Htop. apply Htop in Hc.
    destruct Hc as [Hlt|[Heq _]]; lia.
Qed.

(** C9: the [dominantColors] of a returned analysis are what
    [getDominantColors] makes of the analysis canvas as it is after the face
    overlay was drawn (the canvas itself when no face was detected): at most
    three colours, each a [#] followed by six hexadecimal digits.  They are
    colours of the sample, which takes every thousandth pixel (a stride of
    4000 bytes), ranked by descending frequency in the sample and, among
    equally frequent ones, by first encounter; every sampled colour that is
    left out is ranked behind all three, and no sampled colour is more
    frequent than the first one. *)
Theorem dominant_colors_ranked h lang i a :
  analyzeImageLocal h lang i = Fulfilled a ->
  exists canvas,
    mlCanvas i = Fulfilled canvas /\
    (detectedFaces i = [] ->
     fst (markUp h canvas (detectedFaces i)) = canvas) /\
    let colors := dominantColors a in
    (List.length colors <= 3)%nat /\
    Forall (fun c => isHexColor c = true) colors /\
    match Canvas.imageData (fst (markUp h canvas (detectedFaces i))) with
    | None => colors = [lit "#000000"]
    | Some data =>
        let sample := map hexOf (sampled data) in
        (forall k, nth_error sample k
                   = option_map hexOf (nth_error data (1000 * k))) /\
        (forall c, In c colors -> In c sample) /\
        StronglySorted (outranks sample) colors /\
        (forall c, In c sample -> ~ In c colors ->
                   List.length colors = 3%nat /\
                   Forall (fun top => outranks sample top c) colors) /\
        match colors with
        | top :: _ =>
            forall c, In c sample ->
                      (occurrences sample c <= occurrences sample top)%nat
        | [] => sample = []
        end
    end.
Proof.
  intros Ha.
  apply analyzeImageLocal_Fulfilled in Ha
    as (canvas & _ & Hc & _ & _ & _ & _ & Hcolors & _).
  exists canvas. split; [exact Hc|].
  split; [intros ->; reflexivity|].
  cbv zeta.
  exact (getDominantColors_ranked h
           (fst (markUp h canvas (detectedFaces i))) _ Hcolors).
Qed.

Lemma dominant_colors_ranked_witness :
  exists a,
    analyzeImageLocal Demo.host pl Demo.stripedImage = Fulfilled a /\
    map hexOf (sampled Demo.stripes)
    = [lit "#ff0000"; lit "#0000ff"; lit "#0000ff"; lit "#00ff00"] /\
    dominantColors a = [lit "#0000ff"; lit "#ff0000"; lit "#00ff00"] /\
    StronglySorted (outranks (map hexOf (sampled Demo.stripes)))
      (dominantColors a).
Proof.
  assert (Ha : exists a,
             analyzeImageLocal Demo.host pl Demo.stripedImage = Fulfilled a /\
             dominantColors a
             = [lit "#0000ff"; lit "#ff0000"; lit "#00ff00"]).
  { eexists. split; vm_compute; reflexivity. }
  destruct Ha as (a & Ha & Hcolors).
  destruct (dominant_colors_ranked Demo.host pl Demo.stripedImage a Ha)
    as (canvas & Hc & _ & _ & _ & Hranked).
  injection Hc as <-.
  exists a. split; [exact Ha|]. split; [vm_compute; reflexivity|].
  split; [exact Hcolors|].
  exact (proj1 (proj2 (proj2 Hranked))).
Defined.

Lemma ocrText_absent_or_filtered_witness :
  exists a b,
    analyzeImageLocal Demo.host pl Demo.noisyText = Fulfilled a /\
    ocrText a
    = Some (lit "EXIT 12" ++ [LF] ++ lit "Wyjście" ++ [LF] ++ lit "--ab--") /\
    Forall retained [lit "EXIT 12"; lit "Wyjście"; lit "--ab--"] /\
    analyzeImageLocal Demo.host pl Demo.recognitionFails = Fulfilled b /\
    ocrFails (textRecognizer Demo.recognitionFails pl) /\
    ocrText b = None.
Proof.
  assert (Ha : exists a,
             analyzeImageLocal Demo.host pl Demo.noisyText = Fulfilled a /\
             ocrText a
             = Some (lit "EXIT 12" ++ [LF] ++ lit "Wyjście" ++ [LF]
                     ++ lit "--ab--")).
  { eexists. split; vm_compute; reflexivity. }
  assert (Hb : exists b,
             analyzeImageLocal Demo.host pl Demo.recognitionFails
             = Fulfilled b).
  { eexists. vm_compute. reflexivity. }
  destruct Ha as (a & Ha & Hocr). destruct Hb as (b & Hb).
  assert (Hfails : ocrFails (textRecognizer Demo.recognitionFails pl)).
  { right. left. exists Demo.boom. reflexivity. }
  destruct (ocrText_absent_or_filtered Demo.host pl Demo.noisyText a Ha)
    as (_ & Hkept & _).
  destruct (ocrText_absent_or_filtered Demo.host pl Demo.recognitionFails
              b Hb) as (_ & _ & Habsent).
  exists a, b.
  split; [exact Ha|]. split; [exact Hocr|].
  split; [exact (proj2 (Hkept _ Hocr))|].
  split; [exact Hb|]. split; [exact Hfails|]. exact (Habsent Hfails).
Defined.

(* ------------------------------------------------------------------ *)
(** ** Further properties of the aggregator *)

Import More.

(** The faces are pushed unless a detection has an expression object
    without entries, which throws. *)
Lemma topEmotion_Rejected h fd e :
  topEmotion h (RawFace.expressions fd) = Rejected e ->
  hasNoExpression fd /\ e = typeError h.
Proof.
  unfold topEmotion, hasNoExpression.
  destruct (RawFace.expressions fd) as [entries|]; [|discriminate].
  destruct (sort byScoreDescending entries) as [|first rest] eqn:Es;
    [|discriminate].
  intros H. injection H as <-. split; [|reflexivity].
  pose proof (sort_perm byScoreDescending entries) as Hperm.
  rewrite Es in Hperm. apply Permutation_sym, Permutation_nil in Hperm.
  rewrite Hperm. reflexivity.
Qed.

Lemma topEmotion_no_expression h fd :
  hasNoExpression fd ->
  topEmotion h (RawFace.expressions fd) = Rejected (typeError h).
Proof. unfold hasNoExpression, topEmotion. intros ->. reflexivity. Qed.

Lemma collectFaces_outcome h w fds :
  (Forall (fun fd => ~ hasNoExpression fd) fds /\
   exists fs, collectFaces h w fds = Fulfilled fs) \/
  (Exists hasNoExpression fds /\
   collectFaces h w fds = Rejected (typeError h)).
Proof.
  induction fds as [|fd fds IH]; simpl.
  - left. split; [constructor|]. exists []. reflexivity.
  - unfold faceDetail.
    destruct (topEmotion h (RawFace.expressions fd)) as [top|e] eqn:Et; simpl.
    + assert (Hfd : ~ hasNoExpression fd).
      { intros Hno. rewrite (topEmotion_no_expression h fd Hno) in Et.
        discriminate. }
      destruct IH as [[Hall [fs Hfs]]|[Hex Hrej]].
      * left. split; [constructor; assumption|].
        rewrite Hfs. simpl. eexists. reflexivity.
      * right. split; [apply Exists_cons_tl; exact Hex|].
        rewrite Hrej. reflexivity.
    + apply topEmotion_Rejected in Et as [Hno ->].
      right. split; [apply Exists_cons_hd; exact Hno|reflexivity].
Qed.

(** The whole of a fulfilled call, field by field. *)
Lemma analyzeImageLocal_fields h lang i a :
  analyzeImageLocal h lang i = Fulfilled a ->
  exists u canvas detections scenePredictions pushed colors,
    modelsReady i = Fulfilled u /\
    mlCanvas i = Fulfilled canvas /\
    detectionsOf i = Fulfilled detections /\
    scenesOf i = Fulfilled scenePredictions /\
    collectFaces h (Canvas.width canvas) (detectedFaces i) = Fulfilled pushed /\
    (faceAnalyzer i = Task (Fulfilled (detectedFaces i)) /\
     getDominantColors h (fst (markUp h canvas (detectedFaces i)))
     = Fulfilled colors) /\
    let objs := map (fun d => translate categoryTranslations
                                 (Detection.class d)) detections in
    let scene := translate sceneTranslations
                   (topSceneOf h scenePredictions) in
    let fs := sort byBoxX pushed in
    a = {| objects := objs;
           labels := map (capitalize h) (fromSet (scene :: objs));
           description := describe lang scene detections objs fs;
           confidenceScore := confidenceOf scenePredictions;
           dominantColors := colors;
           ageEstimate := Some (ageSummary lang fs);
           emotionEstimate := Some (emotionSummary lang fs);
           faces := Some fs;
           markedUpImageUrl :=
             Some (snd (markUp h canvas (detectedFaces i)));
           scenery := Some (capitalize h scene);
           ocrText := if truthy (performOCR (textRecognizer i lang))
                      then Some (performOCR (textRecognizer i lang))
                      else None;
           exif := None;
           location := None |}.
Proof.
  intros Ha. apply analyzeImageLocal_inv in Ha
    as (u & canvas & detections & scenePredictions & Hu & Hc & Hd & Hs
        & Hf & Ha).
  apply assemble_Fulfilled in Ha as (pushed & colors & Hp & Hg & Ha).
  exists u, canvas, detections, scenePredictions, pushed, colors.
  do 4 (split; [assumption|]). split; [exact Hp|].
  split; [split; assumption|]. exact Ha.
Qed.

Lemma getDominantColors_outcome h canvas :
  (readable canvas /\ exists colors,
      getDominantColors h canvas = Fulfilled colors) \/
  (~ readable canvas /\
   getDominantColors h canvas = Rejected (indexSizeError h)).
Proof.
  unfold readable, getDominantColors.
  destruct (Canvas.imageData canvas) as [[|p data]|].
  - right. split; [intros H; apply H; reflexivity|reflexivity].
  - left. split; [discriminate|]. eexists. reflexivity.
  - left. split; [discriminate|]. eexists. reflexivity.
Qed.

(** The call once the four providers answer: what the face task and the
    part after [Promise.all] make of it. *)
Lemma analyzeImageLocal_answered h lang i u canvas detections scenes :
  modelsReady i = Fulfilled u ->
  mlCanvas i = Fulfilled canvas ->
  detectionsOf i = Fulfilled detections ->
  scenesOf i = Fulfilled scenes ->
  analyzeImageLocal h lang i
  = match faceAnalyzer i with
    | Throws e => Settled (Rejected e)
    | Task (Rejected _) => Pending
    | Task (Fulfilled fds) =>
        Settled (assemble h lang canvas detections scenes fds
                   (performOCR (textRecognizer i lang)))
    end.
Proof.
  unfold detectionsOf, scenesOf, analyzeImageLocal, promiseAll.
  intros -> -> -> ->. cbn [await].
  destruct (faceAnalyzer i) as [e|[fds|e]]; reflexivity.
Qed.

Lemma assemble_outcome h lang canvas detections scenes fds text :
  let drawn := fst (markUp h canvas fds) in
  (Forall (fun fd => ~ hasNoExpression fd) fds /\ readable drawn /\
   exists a,
     assemble h lang canvas detections scenes fds text = Fulfilled a) \/
  (Exists hasNoExpression fds /\
   assemble h lang canvas detections scenes fds text
   = Rejected (typeError h)) \/
  (Forall (fun fd => ~ hasNoExpression fd) fds /\ ~ readable drawn /\
   assemble h lang canvas detections scenes fds text
   = Rejected (indexSizeError h)).
Proof.
  cbv zeta. unfold assemble.
  destruct (markUp h canvas fds) as [drawn url]. cbn [fst].
  destruct (collectFaces_outcome h (Canvas.width canvas) fds)
    as [[Hall [fs Hfs]]|[Hex Hrej]].
  - rewrite Hfs. cbn [bind].
    destruct (getDominantColors_outcome h drawn)
      as [[Hr [colors Hg]]|[Hr Hg]]; rewrite Hg; cbn [bind].
    + left. split; [exact Hall|]. split; [exact Hr|]. eexists. reflexivity.
    + right. right. split; [exact Hall|]. split; [exact Hr|]. reflexivity.
  - right. left. split; [exact Hex|]. rewrite Hrej. reflexivity.
Qed.

Lemma Forall_not_Exists {A} (P : A -> Prop) l :
  Forall (fun x => ~ P x) l -> Exists P l -> False.
Proof.
  intros Hall Hex. apply Exists_exists in Hex as (x & Hin & Hx).
  rewrite Forall_forall in Hall. exact (Hall x Hin Hx).
Qed.

(** X1: how the call settles, and when it does not.  With the models
    loaded and the canvas made, the call is fulfilled exactly when neither
    the object detector nor the scene classifier rejects, the face task
    delivers detections none of which has an expression object without
    entries, and the canvas can be read.  It stays pending exactly when
    the face task fails while detector and classifier answer.  It rejects
    with the thrown value when the face task cannot be built, with the
    [TypeError] of the failed property access for a detection whose
    expression object has no entry, and otherwise with the
    [IndexSizeError] of [getImageData] for a canvas without pixels.  The
    text recognizer plays no part. *)
Theorem fulfilled_exactly_when h lang i :
  ((exists a, analyzeImageLocal h lang i = Fulfilled a) <->
   providersAnswer i /\
   (exists fds, faceAnalyzer i = Task (Fulfilled fds)) /\
   Forall (fun fd => ~ hasNoExpression fd) (detectedFaces i) /\
   (exists drawn, sampledCanvas h i = Some drawn /\ readable drawn))
  /\ (analyzeImageLocal h lang i = Pending <->
      (exists u, modelsReady i = Fulfilled u) /\
      (exists canvas, mlCanvas i = Fulfilled canvas) /\
      (exists detections, detectionsOf i = Fulfilled detections) /\
      (exists scenePredictions,
          scenesOf i = Fulfilled scenePredictions) /\
      (exists e, faceAnalyzer i = Task (Rejected e)))
  /\ (providersAnswer i ->
      (forall e, faceAnalyzer i = Throws e ->
                 analyzeImageLocal h lang i = Rejected e) /\
      (forall fds,
          faceAnalyzer i = Task (Fulfilled fds) ->
          (Exists hasNoExpression fds ->
           analyzeImageLocal h lang i = Rejected (typeError h)) /\
          (Forall (fun fd => ~ hasNoExpression fd) fds ->
           (forall drawn, sampledCanvas h i = Some drawn ->
                          ~ readable drawn) ->
           analyzeImageLocal h lang i = Rejected (indexSizeError h)))).
Proof.
  split; [split|split; [split|]].
  - intros [a Ha]. apply analyzeImageLocal_fields in Ha
      as (u & canvas & detections & scenes & pushed & colors & Hu & Hc & Hd
          & Hs & Hpushed & [Hf Hg] & _).
    split.
    { split; [exists u; exact Hu|]. split; [exists canvas; exact Hc|].
      split; [exists detections; exact Hd|]. exists scenes; exact Hs. }
    split; [eexists; exact Hf|]. split.
    + destruct (collectFaces_outcome h (Canvas.width canvas)
                  (detectedFaces i)) as [[Hall _]|[_ Hrej]]; [exact Hall|].
      rewrite Hrej in Hpushed. discriminate.
    + exists (fst (markUp h canvas (detectedFaces i))).
      unfold sampledCanvas. rewrite Hc. split; [reflexivity|].
      destruct (getDominantColors_outcome h
                  (fst (markUp h canvas (detectedFaces i))))
        as [[Hr _]|[_ Hrej]]; [exact Hr|].
      rewrite Hrej in Hg. discriminate.
  - intros (([u Hu] & [canvas Hc] & [detections Hd] & [scenes Hs])
            & [fds Hf] & Hall & (drawn & Hdrawn & Hr)).
    rewrite (analyzeImageLocal_answered h lang i u canvas detections scenes)
      by assumption.
    unfold sampledCanvas in Hdrawn. rewrite Hc in Hdrawn.
    injection Hdrawn as <-.
    unfold detectedFaces in Hall, Hr. rewrite Hf in *.
    destruct (assemble_outcome h lang canvas detections scenes fds
                (performOCR (textRecognizer i lang)))
      as [(_ & _ & a & Ha)|[(Hex & _)|(_ & Hnr & _)]].
    + exists a. rewrite Ha. reflexivity.
    + destruct (Forall_not_Exists _ _ Hall Hex).
    + contradiction.
  - unfold analyzeImageLocal, promiseAll, detectionsOf, scenesOf.
    destruct (modelsReady i) as [u|]; cbn [await]; [|discriminate].
    destruct (mlCanvas i) as [canvas|]; cbn [await]; [|discriminate].
    destruct (faceAnalyzer i) as [e|[fds|e]]; [discriminate| |];
      destruct (match objectModel i with
                | Some d => d | None => Fulfilled [] end) as [detections|];
      destruct (match sceneModel i with
                | Some c => c | None => Fulfilled [] end) as [scenes|];
      cbn [await]; try discriminate.
    intros _. repeat split; eexists; reflexivity.
  - intros ([u Hu] & [canvas Hc] & [detections Hd] & [scenes Hs] & [e Hf]).
    rewrite (analyzeImageLocal_answered h lang i u canvas detections scenes)
      by assumption.
    rewrite Hf. reflexivity.
  - intros ([u Hu] & [canvas Hc] & [detections Hd] & [scenes Hs]).
    rewrite (analyzeImageLocal_answered h lang i u canvas detections scenes)
      by assumption.
    split; [intros e ->; reflexivity|]. intros fds Hf. rewrite Hf.
    destruct (assemble_outcome h lang canvas detections scenes fds
                (performOCR (textRecognizer i lang)))
      as [(Hall & Hr & _)|[(Hex & Hrej)|(Hall & _ & Hrej)]].
    + split.
      * intros Hex. destruct (Forall_not_Exists _ _ Hall Hex).
      * intros _ Hnr. exfalso.
        apply (Hnr (fst (markUp h canvas fds))); [|exact Hr].
        unfold sampledCanvas, detectedFaces. rewrite Hc, Hf. reflexivity.
    + split; [intros _; rewrite Hrej; reflexivity|].
      intros Hall. destruct (Forall_not_Exists _ _ Hall Hex).
    + split; [|intros _ _; rewrite Hrej; reflexivity].
      intros Hex. destruct (Forall_not_Exists _ _ Hall Hex).
Qed.

Lemma fulfilled_exactly_when_witness :
  providersAnswer DemoMore.withBlankFace /\
  faceAnalyzer DemoMore.withBlankFace
  = Task (Fulfilled (detectedFaces DemoMore.withBlankFace)) /\
  Exists hasNoExpression (detectedFaces DemoMore.withBlankFace) /\
  analyzeImageLocal Demo.host pl DemoMore.withBlankFace
  = Rejected (typeError Demo.host).
Proof.
  assert (H1 : providersAnswer DemoMore.withBlankFace)
    by (repeat split; eexists; reflexivity).
  assert (H5 : Exists hasNoExpression (detectedFaces DemoMore.withBlankFace)).
  { apply Exists_cons_tl, Exists_cons_hd. reflexivity. }
  split; [exact H1|]. split; [reflexivity|]. split; [exact H5|].
  exact (proj1 (proj2 (proj2 (proj2
                  (fulfilled_exactly_when Demo.host pl
                     DemoMore.withBlankFace)) H1) _ eq_refl) H5).
Defined.

(** X2: where the language enters.  For the same inputs the Polish and the
    English call settle alike: both are fulfilled, or both are rejected with
    the same failure, or both stay pending.  When fulfilled they agree on
    every field but the description, the two legacy summaries and the
    recognized text, which comes from the worker of the language; they
    agree on the text as well when the two workers recognize the same.  In
    particular [objects] and [labels] hold the Polish names in an English
    analysis too. *)
Theorem language_only_changes_the_texts h i :
  match analyzeImageLocal h pl i, analyzeImageLocal h en i with
  | Settled (Fulfilled a), Settled (Fulfilled b) =>
      sameSignals a b /\
      (performOCR (textRecognizer i pl) = performOCR (textRecognizer i en) ->
       ocrText a = ocrText b)
  | Settled (Rejected e), Settled (Rejected e') => e = e'
  | Pending, Pending => True
  | _, _ => False
  end.
Proof.
  unfold analyzeImageLocal.
  destruct (modelsReady i); cbn [await]; [|reflexivity].
  destruct (mlCanvas i) as [canvas|]; cbn [await]; [|reflexivity].
  unfold promiseAll.
  destruct (faceAnalyzer i) as [e|[fds|e]]; [reflexivity| |];
    destruct (match objectModel i with
              | Some d => d | None => Fulfilled [] end) as [detections|];
    destruct (match sceneModel i with
              | Some c => c | None => Fulfilled [] end) as [scenes|];
    cbn [await catch resolveThenable]; try reflexivity; try exact I.
  unfold assemble.
  destruct (markUp h canvas fds) as [drawn url].
  destruct (collectFaces h (Canvas.width canvas) fds); cbn [bind];
    [|reflexivity].
  destruct (getDominantColors h drawn); cbn [bind]; [|reflexivity].
  split; [repeat split|].
  cbn [ocrText]. intros ->. reflexivity.
Qed.

Example objects_stay_polish :
  match analyzeImageLocal Demo.host en Demo.twoFaces with
  | Settled (Fulfilled a) =>
      objects a = [lit "pies"] /\ labels a = [lit "Park"; lit "Pies"] /\
      exists rest, description a = lit "Scene: park. Detected: dog. " ++ rest
  | _ => False
  end.
Proof. vm_compute. repeat split. eexists. reflexivity. Qed.

(** The worker of the language decides the text: two workers that read the
    same canvas differently give analyses that differ in [ocrText] only
    where the language enters. *)
Example recognition_follows_the_language :
  let i := {| modelsReady := Fulfilled tt;
              mlCanvas := Fulfilled (Demo.canvas 600);
              objectModel := Some (Fulfilled [Demo.dog]);
              sceneModel := Some (Fulfilled [Demo.park]);
              classifyRejectsFirst := false;
              faceAnalyzer := Demo.detects [];
              textRecognizer :=
                fun lang =>
                  match lang with
                  | pl => Demo.worker "Wyjście"
                  | en => Demo.worker "Wyjscie"
                  end |} in
  match analyzeImageLocal Demo.host pl i, analyzeImageLocal Demo.host en i with
  | Settled (Fulfilled a), Settled (Fulfilled b) =>
      ocrText a = Some (lit "Wyjście") /\ ocrText b = Some (lit "Wyjscie")
  | _, _ => False
  end.
Proof. vm_compute. split; reflexivity. Qed.

(** X3: the first label is the scenery.  A fulfilled call returns at least
    one label, the first label is the string of the [scenery] field, and so
    the badge of the card of a record that carries the analysis is its
    scenery; there is one object per detection. *)
Theorem first_label_is_the_scenery h lang i a :
  analyzeImageLocal h lang i = Fulfilled a ->
  (exists first rest, labels a = first :: rest /\ scenery a = Some first) /\
  (forall record, ImageRecord.analysis record = Some a ->
                  ImageCard.badge record = scenery a) /\
  (forall detections, detectionsOf i = Fulfilled detections ->
                      List.length (objects a) = List.length detections).
Proof.
  intros Ha. apply analyzeImageLocal_fields in Ha
    as (u & canvas & detections & scenes & pushed & colors & _ & _ & Hd & _ & _ & _ & Ha).
  cbv zeta in Ha. subst a. cbn [labels scenery objects].
  unfold fromSet. cbn [dedupe existsb map].
  split; [eexists; eexists; split; reflexivity|]. split.
  - intros record Hrecord. unfold ImageCard.badge. rewrite Hrecord.
    reflexivity.
  - intros detections' Hd'. rewrite Hd in Hd'. injection Hd' as <-.
    apply length_map.
Qed.

Lemma first_label_is_the_scenery_witness :
  exists a,
    analyzeImageLocal Demo.host pl DemoMore.orderedFaces = Fulfilled a /\
    detectionsOf DemoMore.orderedFaces = Fulfilled [Demo.dog; Demo.dog] /\
    labels a = [[]; lit "Pies"] /\
    scenery a = Some [] /\
    ImageCard.badge (Demo.record "a1" Status.completed (Some a)) = Some [] /\
    List.length (objects a) = 2%nat.
Proof.
  assert (Ha : exists a,
             analyzeImageLocal Demo.host pl DemoMore.orderedFaces
             = Fulfilled a /\
             labels a = [[]; lit "Pies"] /\ scenery a = Some []).
  { eexists. repeat split; vm_compute; reflexivity. }
  destruct Ha as (a & Ha & Hlabels & Hscenery).
  destruct (first_label_is_the_scenery Demo.host pl DemoMore.orderedFaces a Ha)
    as (_ & Hbadge & Hlen).
  exists a. split; [exact Ha|]. split; [reflexivity|].
  split; [exact Hlabels|]. split; [exact Hscenery|].
  split; [rewrite <- Hscenery; apply Hbadge; reflexivity|].
  exact (Hlen _ eq_refl).
Defined.

Lemma confidenceOf_nonzero scenePredictions :
  ~ (confidenceOf scenePredictions == 0)%Q.
Proof.
  unfold confidenceOf. destruct scenePredictions as [|first rest].
  - intros H. discriminate H.
  - destruct (Qeq_bool (ScenePrediction.probability first) 0) eqn:E.
    + intros H. discriminate H.
    + intros H. apply Qeq_bool_iff in H. congruence.
Qed.

(** X4: the confidence score is never zero.  It is the probability of the
    first scene prediction when that is not zero, and 0.8 when it is zero or
    when there is no prediction. *)
Theorem confidence_is_never_zero h lang i a :
  analyzeImageLocal h lang i = Fulfilled a ->
  ~ (confidenceScore a == 0)%Q /\
  (forall first rest,
      scenesOf i = Fulfilled (first :: rest) ->
      (~ (ScenePrediction.probability first == 0)%Q ->
       confidenceScore a = ScenePrediction.probability first) /\
      ((ScenePrediction.probability first == 0)%Q ->
       confidenceScore a = 0.8%Q)) /\
  (scenesOf i = Fulfilled [] -> confidenceScore a = 0.8%Q).
Proof.
  intros Ha. apply analyzeImageLocal_fields in Ha
    as (u & canvas & detections & scenes & pushed & colors & _ & _ & _ & Hs & _ & _ & Ha).
  cbv zeta in Ha. subst a. cbn [confidenceScore].
  split; [apply confidenceOf_nonzero|]. split.
  - intros first rest Hs'. rewrite Hs in Hs'. injection Hs' as ->.
    unfold confidenceOf.
    destruct (Qeq_bool (ScenePrediction.probability first) 0) eqn:E.
    + apply Qeq_bool_iff in E. split; [contradiction|reflexivity].
    + split; [reflexivity|]. intros H. apply Qeq_bool_iff in H. congruence.
  - intros Hs'. rewrite Hs in Hs'. injection Hs' as ->. reflexivity.
Qed.

Lemma confidence_is_never_zero_witness :
  exists a b,
    analyzeImageLocal Demo.host pl Demo.twoFaces = Fulfilled a /\
    scenesOf Demo.twoFaces = Fulfilled [Demo.park] /\
    confidenceScore a = 0.7%Q /\
    analyzeImageLocal Demo.host pl DemoMore.orderedFaces = Fulfilled b /\
    scenesOf DemoMore.orderedFaces = Fulfilled [] /\
    confidenceScore b = 0.8%Q.
Proof.
  assert (Ha : exists a,
             analyzeImageLocal Demo.host pl Demo.twoFaces = Fulfilled a)
    by (eexists; vm_compute; reflexivity).
  assert (Hb : exists b,
             analyzeImageLocal Demo.host pl DemoMore.orderedFaces
             = Fulfilled b)
    by (eexists; vm_compute; reflexivity).
  destruct Ha as (a & Ha). destruct Hb as (b & Hb).
  destruct (confidence_is_never_zero Demo.host pl Demo.twoFaces a Ha)
    as (_ & Hfirst & _).
  destruct (confidence_is_never_zero Demo.host pl DemoMore.orderedFaces b Hb)
    as (_ & _ & Hnone).
  exists a, b. split; [exact Ha|]. split; [reflexivity|].
  split.
  { apply (proj1 (Hfirst Demo.park [] eq_refl)). intros H. discriminate H. }
  split; [exact Hb|]. split; [reflexivity|]. exact (Hnone eq_refl).
Defined.

(** *** Faces that are reported in order *)

Lemma sort_sorted_same {A} (cmp : A -> A -> number) (l : list A) :
  StronglySorted (fun a b => (cmp a b <= 0)%Q) l -> sort cmp l = l.
Proof.
  induction 1 as [|a l Hl IH Hal]; simpl; [reflexivity|].
  rewrite IH. destruct l as [|b l']; [reflexivity|]. simpl.
  inversion Hal as [|? ? Hab _]; subst.
  apply gtb_le in Hab. rewrite Hab. reflexivity.
Qed.

Lemma collectFaces_leftOf h w fds fs :
  collectFaces h w fds = Fulfilled fs ->
  StronglySorted
    (fun a b => (Box.x (RawFace.box a) <= Box.x (RawFace.box b))%Q) fds ->
  StronglySorted leftOf fs.
Proof.
  intros H. apply collectFaces_Forall2 in H.
  induction H as [|fd f fds fs Hf Hrest IH]; intros Hsorted; [constructor|].
  inversion Hsorted as [|? ? Hs Hall]; subst.
  constructor; [apply IH; exact Hs|].
  apply faceDetail_fields in Hf as (Hbox & _).
  clear IH Hs Hsorted.
  induction Hrest as [|fd' f' fds fs Hf' _ IH]; [constructor|].
  inversion Hall; subst. constructor; [|apply IH; assumption].
  apply faceDetail_fields in Hf' as (Hbox' & _).
  unfold leftOf. rewrite Hbox, Hbox'. assumption.
Qed.

(** X5: detections that the face analyzer reports from left to right are
    returned in the order reported; detections with the same x keep their
    order among themselves. *)
Theorem ordered_detections_keep_their_order h lang i a fs :
  analyzeImageLocal h lang i = Fulfilled a ->
  faces a = Some fs ->
  StronglySorted
    (fun fd fd' => (Box.x (RawFace.box fd) <= Box.x (RawFace.box fd'))%Q)
    (detectedFaces i) ->
  Forall2 (fun fd f =>
             FaceDetail.box f = RawFace.box fd /\
             FaceDetail.age f = round (RawFace.age fd) /\
             FaceDetail.gender f = RawFace.gender fd)
    (detectedFaces i) fs.
Proof.
  intros Ha Hfs Hsorted.
  apply analyzeImageLocal_Fulfilled in Ha
    as (canvas & pushed & _ & Hpushed & Hfaces & _).
  rewrite Hfaces in Hfs. injection Hfs as <-.
  rewrite sort_sorted_same.
  - apply collectFaces_Forall2 in Hpushed.
    eapply Forall2_impl; [|exact Hpushed].
    intros fd f Hf. apply faceDetail_fields in Hf as (Hb & _ & Hage & Hg & _).
    repeat split; assumption.
  - eapply JSFacts.StronglySorted_weaken;
      [|exact (collectFaces_leftOf _ _ _ _ Hpushed Hsorted)].
    intros x y _ _ Hxy. unfold leftOf, byBoxX in *. lra.
Qed.

Lemma ordered_detections_keep_their_order_witness :
  exists a fs,
    analyzeImageLocal Demo.host pl DemoMore.orderedFaces = Fulfilled a /\
    faces a = Some fs /\
    StronglySorted
      (fun fd fd' => (Box.x (RawFace.box fd) <= Box.x (RawFace.box fd'))%Q)
      (detectedFaces DemoMore.orderedFaces) /\
    map (fun f => (Box.x (FaceDetail.box f), FaceDetail.age f)) fs
    = [(100%Q, 41); (250%Q, 30); (250%Q, 8)] /\
    Forall2 (fun fd f => FaceDetail.box f = RawFace.box fd /\
                         FaceDetail.age f = round (RawFace.age fd) /\
                         FaceDetail.gender f = RawFace.gender fd)
      (detectedFaces DemoMore.orderedFaces) fs.
Proof.
  assert (Ha : exists a fs,
             analyzeImageLocal Demo.host pl DemoMore.orderedFaces
             = Fulfilled a /\ faces a = Some fs /\
             map (fun f => (Box.x (FaceDetail.box f), FaceDetail.age f)) fs
             = [(100%Q, 41); (250%Q, 30); (250%Q, 8)]).
  { do 2 eexists. repeat split; vm_compute; reflexivity. }
  destruct Ha as (a & fs & Ha & Hfs & Hxs).
  assert (Hsorted :
            StronglySorted
              (fun fd fd' =>
                 (Box.x (RawFace.box fd) <= Box.x (RawFace.box fd'))%Q)
              (detectedFaces DemoMore.orderedFaces)).
  { repeat constructor; vm_compute; discriminate. }
  exists a, fs. split; [exact Ha|]. split; [exact Hfs|].
  split; [exact Hsorted|]. split; [exact Hxs|].
  exact (ordered_detections_keep_their_order Demo.host pl
           DemoMore.orderedFaces a fs Ha Hfs Hsorted).
Defined.

(** *** The sample of the colour summarizer *)

Lemma everyFrom_short skip data :
  (List.length data <= skip)%nat -> everyFrom skip data = [].
Proof.
  revert skip. induction data as [|p data IH]; intros skip H; [reflexivity|].
  simpl in H. destruct skip as [|skip]; [lia|].
  cbn [everyFrom]. apply IH. lia.
Qed.

Lemma everyFrom_length data :
  forall skip,
    (skip <= 999)%nat ->
    List.length (everyFrom skip data)
    = ((List.length data + 999 - skip) / 1000)%nat.
Proof.
  induction data as [|p data IH]; intros skip Hskip.
  - cbn [everyFrom List.length]. symmetry. apply Nat.div_small. lia.
  - destruct skip as [|skip]; cbn [everyFrom List.length].
    + rewrite IH by lia.
      replace (S (List.length data) + 999 - 0)%nat
        with (List.length data + 999 - 999 + 1 * 1000)%nat by lia.
      rewrite Nat.div_add; lia.
    + rewrite IH by lia. f_equal; lia.
Qed.

(** X6: the size of the colour sample.  A canvas of [n] pixels is sampled
    at [ceil(n / 1000)] pixels, so a canvas of one to a thousand pixels is
    summarized by the colour of its first pixel alone; for a canvas without
    pixels [getImageData] throws and there is no summary. *)
Theorem sample_size h width data :
  List.length (sampled data) = ((List.length data + 999) / 1000)%nat /\
  (forall first rest,
      data = first :: rest -> (List.length data <= 1000)%nat ->
      getDominantColors h
        {| Canvas.width := width; Canvas.imageData := Some data |}
      = Fulfilled [hexOf first]) /\
  (data = [] ->
   getDominantColors h
     {| Canvas.width := width; Canvas.imageData := Some data |}
   = Rejected (indexSizeError h)).
Proof.
  split; [|split].
  - unfold sampled. rewrite everyFrom_length by lia. f_equal. lia.
  - intros first rest -> Hlen. unfold getDominantColors, sampled.
    cbn [Canvas.imageData everyFrom].
    rewrite everyFrom_short by (simpl in Hlen; lia). reflexivity.
  - intros ->. reflexivity.
Qed.

Lemma sample_size_witness :
  List.length Demo.stripes = 3001%nat /\
  List.length (sampled Demo.stripes) = 4%nat /\
  getDominantColors Demo.host (Demo.canvas 600)
  = Fulfilled [lit "#ff0000"] /\
  getDominantColors Demo.host
    {| Canvas.width := 0; Canvas.imageData := Some [] |}
  = Rejected (indexSizeError Demo.host).
Proof.
  assert (Hlen : List.length Demo.stripes = 3001%nat)
    by (vm_compute; reflexivity).
  split; [exact Hlen|]. split; [|split].
  - rewrite (proj1 (sample_size Demo.host 3001 Demo.stripes)), Hlen.
    reflexivity.
  - unfold Demo.canvas.
    rewrite (proj1 (proj2 (sample_size Demo.host 600
                             [Demo.px Byte.xff Byte.x00 Byte.x00]))
               (Demo.px Byte.xff Byte.x00 Byte.x00) [] eq_refl).
    + vm_compute. reflexivity.
    + simpl. lia.
  - exact (proj2 (proj2 (sample_size Demo.host 0 [])) eq_refl).
Defined.

Lemma outranks_irreflexive sample c : ~ outranks sample c c.
Proof. unfold outranks. lia. Qed.

Lemma StronglySorted_NoDup {A} (R : A -> A -> Prop) l :
  (forall a, ~ R a a) -> StronglySorted R l -> NoDup l.
Proof.
  intros Hirr. induction 1 as [|a l Hl IH Hal]; constructor; [|exact IH].
  intros Hin. rewrite Forall_forall in Hal. exact (Hirr a (Hal a Hin)).
Qed.

(** X7: the dominant colours of a returned analysis are pairwise
    distinct. *)
Theorem dominant_colors_are_distinct h lang i a :
  analyzeImageLocal h lang i = Fulfilled a -> NoDup (dominantColors a).
Proof.
  intros Ha. apply analyzeImageLocal_Fulfilled in Ha
    as (canvas & _ & _ & _ & _ & _ & _ & Hcolors & _).
  pose proof (getDominantColors_ranked h
                (fst (markUp h canvas (detectedFaces i))) _ Hcolors)
    as Hranked.
  cbv zeta in Hranked. destruct Hranked as (_ & _ & Hranked).
  destruct (Canvas.imageData (fst (markUp h canvas (detectedFaces i))))
    as [data|].
  - destruct Hranked as (_ & _ & Hsorted & _).
    eapply StronglySorted_NoDup; [|exact Hsorted].
    intros c. apply outranks_irreflexive.
  - rewrite Hranked. repeat constructor. simpl. tauto.
Qed.

Lemma dominant_colors_are_distinct_witness :
  exists a,
    analyzeImageLocal Demo.host pl Demo.stripedImage = Fulfilled a /\
    List.length (dominantColors a) = 3%nat /\
    NoDup (dominantColors a).
Proof.
  assert (Ha : exists a,
             analyzeImageLocal Demo.host pl Demo.stripedImage = Fulfilled a /\
             List.length (dominantColors a) = 3%nat).
  { eexists. split; vm_compute; reflexivity. }
  destruct Ha as (a & Ha & Hlen).
  exists a. split; [exact Ha|]. split; [exact Hlen|].
  exact (dominant_colors_are_distinct Demo.host pl Demo.stripedImage a Ha).
Defined.

(** *** Colour strings read back *)

Lemma digitValue_hexDigit d : 0 <= d < 16 -> digitValue (hexDigit d) = d.
Proof.
  intros Hd. unfold digitValue, hexDigit.
  destruct (Z.ltb_spec d 10).
  - assert (H1 : (Z.to_N (48 + d) <= 57)%N) by lia.
    apply N.leb_le in H1. rewrite H1. lia.
  - assert (H1 : (57 < Z.to_N (87 + d))%N) by lia.
    apply N.leb_gt in H1. rewrite H1. lia.
Qed.

Lemma parseHex_from digits :
  forall init,
    fold_left (fun v c => 16 * v + digitValue c) digits init
    = init * 16 ^ Z.of_nat (List.length digits) + parseHex digits.
Proof.
  unfold parseHex.
  induction digits as [|c digits IH]; intros init.
  - simpl. lia.
  - cbn [fold_left List.length]. rewrite IH, (IH (16 * 0 + digitValue c)).
    rewrite Nat2Z.inj_succ, Z.pow_succ_r by lia. lia.
Qed.

Lemma parseHex_snoc digits c :
  parseHex (digits ++ [c]) = 16 * parseHex digits + digitValue c.
Proof. unfold parseHex. rewrite fold_left_app. reflexivity. Qed.

Lemma parseHex_bound digits :
  Forall isDigit digits ->
  0 <= parseHex digits < 16 ^ Z.of_nat (List.length digits).
Proof.
  induction digits as [|c digits IH] using rev_ind; intros Hall.
  - unfold parseHex. simpl. lia.
  - apply Forall_app in Hall as [Hall Hc]. inversion Hc as [|? ? Hc' _]; subst.
    specialize (IH Hall). unfold isDigit in Hc'.
    rewrite parseHex_snoc, length_app. cbn [List.length].
    rewrite Nat2Z.inj_add. change (Z.of_nat 1) with 1.
    rewrite Z.pow_add_r by lia. change (16 ^ 1) with 16. lia.
Qed.

(** The digits printed for a number of [k + 1] digits read back as that
    number. *)
Lemma toString16_aux_value (k : nat) :
  forall n fuel acc,
    16 ^ Z.of_nat k <= n < 16 ^ Z.of_nat (S k) ->
    (k < fuel)%nat ->
    exists digits,
      toString16_aux fuel n acc = digits ++ acc /\
      List.length digits = S k /\
      Forall isDigit digits /\
      parseHex digits = n.
Proof.
  assert (Hdigit : forall n, isDigit (hexDigit (n mod 16))).
  { intros n. unfold isDigit. rewrite digitValue_hexDigit;
      apply Z.mod_pos_bound; lia. }
  induction k as [|k IH]; intros n fuel acc Hn Hfuel;
    (destruct fuel as [|fuel]; [lia|]); simpl toString16_aux.
  - change (16 ^ Z.of_nat 0) with 1 in Hn.
    change (16 ^ Z.of_nat 1) with 16 in Hn.
    rewrite Z.div_small by lia. simpl.
    exists [hexDigit (n mod 16)]. split; [reflexivity|].
    split; [reflexivity|]. split; [repeat constructor; apply Hdigit|].
    unfold parseHex. simpl. rewrite digitValue_hexDigit;
      [apply Z.mod_small; lia|apply Z.mod_pos_bound; lia].
  - rewrite !Nat2Z.inj_succ in Hn. rewrite !Z.pow_succ_r in Hn by lia.
    assert (Hpow : 0 < 16 ^ Z.of_nat k) by (apply Z.pow_pos_nonneg; lia).
    assert (Hq : 16 ^ Z.of_nat k <= n / 16 < 16 ^ Z.of_nat (S k)).
    { rewrite Nat2Z.inj_succ, Z.pow_succ_r by lia. split.
      - apply Z.div_le_lower_bound; lia.
      - apply Z.div_lt_upper_bound; lia. }
    destruct (Z.eqb_spec (n / 16) 0) as [E|_]; [lia|].
    destruct (IH (n / 16) fuel (hexDigit (n mod 16) :: acc) Hq)
      as (digits & Hdigits & Hlen & Hall & Hvalue); [lia|].
    exists (digits ++ [hexDigit (n mod 16)]).
    split; [rewrite Hdigits, <- app_assoc; reflexivity|].
    split; [rewrite length_app, Hlen; simpl; lia|].
    split; [apply Forall_app; split;
            [exact Hall|repeat constructor; apply Hdigit]|].
    rewrite parseHex_snoc, Hvalue, digitValue_hexDigit
      by (apply Z.mod_pos_bound; lia).
    symmetry. apply Z.div_mod. lia.
Qed.

Lemma parseHex_hexOf p :
  parseHex (slice1 (hexOf p))
  = channel (red p) * 65536 + channel (green p) * 256 + channel (blue p).
Proof.
  unfold hexOf. pose proof (packed_range p) as Hn.
  pose proof (channel_range (red p)) as Hr.
  pose proof (channel_range (green p)) as Hg.
  pose proof (channel_range (blue p)) as Hb.
  assert (Hpacked :
            shl 1 24 + shl (channel (red p)) 16 + shl (channel (green p)) 8
            + channel (blue p)
            = 16777216 + channel (red p) * 65536 + channel (green p) * 256
              + channel (blue p)).
  { rewrite (shl_small (channel (red p)) 16) by lia.
    rewrite (shl_small (channel (green p)) 8) by lia.
    change (shl 1 24) with 16777216.
    change (2 ^ 16) with 65536. change (2 ^ 8) with 256. lia. }
  set (n := shl 1 24 + shl (channel (red p)) 16 + shl (channel (green p)) 8
            + channel (blue p)) in *.
  assert (Hlog : Z.log2 n = 24) by (apply Z.log2_unique; lia).
  unfold toString16. rewrite Hlog.
  destruct (toString16_aux_value 6 n (S (Z.to_nat 24)) [])
    as (digits & -> & Hlen & Hall & Hvalue).
  - change (16 ^ Z.of_nat 6) with 16777216.
    change (16 ^ Z.of_nat 7) with 268435456.
    change (2 ^ 24) with 16777216 in Hn. change (2 ^ 25) with 33554432 in Hn.
    lia.
  - change (Z.to_nat 24) with 24%nat. lia.
  - rewrite app_nil_r.
    destruct digits as [|d digits]; [discriminate|].
    simpl in Hlen. injection Hlen as Hlen.
    change (lit "#") with [35%N]. unfold slice1. cbn [skipn app].
    inversion Hall as [|? ? Hd Htail]; subst.
    pose proof (parseHex_bound digits Htail) as Hbound.
    rewrite Hlen in Hbound. change (16 ^ Z.of_nat 6) with 16777216 in Hbound.
    unfold parseHex in Hvalue. cbn [fold_left] in Hvalue.
    rewrite parseHex_from, Hlen in Hvalue.
    change (16 ^ Z.of_nat 6) with 16777216 in Hvalue.
    unfold isDigit in Hd.
    change (2 ^ 24) with 16777216 in Hn. change (2 ^ 25) with 33554432 in Hn.
    lia.
Qed.

Lemma to_N_injective (a b : Byte.byte) : Byte.to_N a = Byte.to_N b -> a = b.
Proof.
  intros H. pose proof (Byte.of_to_N a) as Ha.
  rewrite H, Byte.of_to_N in Ha. congruence.
Qed.

(** X8: a colour string stands for exactly one colour.  Reading the six
    digits back gives the red, green and blue channel of the pixel, so two
    pixels are counted under the same key exactly when they agree on these
    three channels; the alpha channel does not enter. *)
Theorem colour_string_round_trip p q :
  channelsOf (hexOf p)
  = (channel (red p), channel (green p), channel (blue p))
  /\ (hexOf p = hexOf q <->
      red p = red q /\ green p = green q /\ blue p = blue q).
Proof.
  assert (Hchannels : forall p,
             channelsOf (hexOf p)
             = (channel (red p), channel (green p), channel (blue p))).
  { intros p0. unfold channelsOf. cbv zeta. rewrite parseHex_hexOf.
    pose proof (channel_range (red p0)) as Hr.
    pose proof (channel_range (green p0)) as Hg.
    pose proof (channel_range (blue p0)) as Hb.
    repeat f_equal; Z.to_euclidean_division_equations; lia. }
  split; [apply Hchannels|]. split.
  - intros Heq. pose proof (Hchannels p) as Hp. rewrite Heq, Hchannels in Hp.
    injection Hp as Hr Hg Hb. unfold channel in *.
    repeat split; apply to_N_injective; lia.
  - intros (Hr & Hg & Hb). unfold hexOf. rewrite Hr, Hg, Hb. reflexivity.
Qed.

(* ------------------------------------------------------------------ *)
(** ** Further properties of the text filter *)

Lemma ratio_at_least_geb (n len : nat) :
  (0 < len)%nat -> (3 * len <= 10 * n)%nat ->
  geb (inject_Z (Z.of_nat n) / inject_Z (Z.of_nat len))%Q 0.3%Q = true.
Proof.
  intros Hlen H. apply geb_ge.
  assert (Hpos : (0 < inject_Z (Z.of_nat len))%Q).
  { change 0%Q with (inject_Z 0). rewrite <- Zlt_Qlt. lia. }
  apply Qle_shift_div_l; [exact Hpos|].
  unfold Qle, Qmult, inject_Z. cbn [Qnum Qden].
  rewrite Pos.mul_1_r. lia.
Qed.

Lemma keepLine_of_retained t : retained t -> keepLine t = Some t.
Proof.
  intros (Hne & Htrim & H2 & H30). unfold keepLine. rewrite Htrim.
  destruct t as [|c t']; [contradiction|]. cbn [truthy negb].
  unfold alphaNumCount in *.
  assert (E2 : geb (lengthOf (filter alphaNumeric (c :: t'))) 2%Q = true).
  { apply geb_ge. unfold lengthOf. change 2%Q with (inject_Z 2).
    rewrite <- Zle_Qle. lia. }
  rewrite E2. unfold lengthOf.
  rewrite ratio_at_least_geb; [reflexivity|simpl; lia|exact H30].
Qed.

Lemma filteredLines_of_retained kept :
  Forall retained kept -> filteredLines kept = kept.
Proof.
  induction 1 as [|t kept Ht _ IH]; simpl; [reflexivity|].
  rewrite (keepLine_of_retained t Ht), IH.
  destruct Ht as (Hne & _). destruct t; [contradiction|reflexivity].
Qed.

Lemma filteredLines_trimmed lines :
  Subsequence (filteredLines lines) (map trim lines).
Proof.
  induction lines as [|line lines IH]; simpl; [constructor|].
  unfold keepLine at 1.
  destruct (negb (truthy (trim line))); [apply sub_skip, IH|].
  destruct (_ && _); [|apply sub_skip, IH].
  destruct (truthy (trim line)); [apply sub_take, IH|apply sub_skip, IH].
Qed.

(** What the filter returns: nothing, or its kept lines joined. *)
Lemma cleanText_kept text :
  let kept := filteredLines (split LF text) in
  cleanText text = [] \/
  (cleanText text = join [LF] kept /\ kept <> [] /\
   Forall retained kept /\ Forall (fun l => ~ In LF l) kept /\
   geb (lengthOf (join [LF] kept)) 3%Q = true).
Proof.
  intros kept. unfold cleanText. fold kept.
  assert (Hret : Forall retained kept).
  { apply TextFacts.filteredLines_Forall. intros line t _.
    apply TextFacts.keepLine_retained. }
  assert (Hlf : Forall (fun l => ~ In LF l) kept).
  { apply TextFacts.filteredLines_Forall. intros line t Hin.
    apply TextFacts.keepLine_no_LF.
    pose proof (TextFacts.split_no_separator LF text) as H.
    rewrite Forall_forall in H. apply H. exact Hin. }
  destruct (geb (lengthOf (trim (join [LF] kept))) 3%Q) eqn:E;
    [|left; reflexivity].
  right. destruct kept as [|l ls] eqn:Ek; [discriminate E|].
  assert (Hclean : trim (join [LF] (l :: ls)) = join [LF] (l :: ls)).
  { apply TextFacts.trim_id; apply TextFacts.join_clean; try discriminate;
      (eapply Forall_impl; [|exact Hret]); intros t;
      apply TextFacts.retained_clean. }
  rewrite Hclean in *.
  split; [reflexivity|]. split; [discriminate|].
  split; [exact Hret|]. split; [exact Hlf|exact E].
Qed.

(** X9: filtering is idempotent: text that came out of the filter passes it
    unchanged. *)
Theorem cleanText_idempotent text :
  cleanText (cleanText text) = cleanText text.
Proof.
  destruct (cleanText_kept text) as [E|(E & Hne & Hret & Hlf & Hlen)].
  - rewrite E. reflexivity.
  - rewrite E. set (kept := filteredLines (split LF text)) in *.
    unfold cleanText.
    rewrite TextFacts.split_join by assumption.
    rewrite filteredLines_of_retained by exact Hret.
    assert (Hclean : trim (join [LF] kept) = join [LF] kept).
    { apply TextFacts.trim_id; apply TextFacts.join_clean; try assumption;
        (eapply Forall_impl; [|exact Hret]); intros t;
        apply TextFacts.retained_clean. }
    rewrite Hclean, Hlen. reflexivity.
Qed.

(** X10: the recognized text is only ever shortened.  The lines of the
    [ocrText] of a returned analysis are lines of the recognition, trimmed,
    in the order of the recognition; no line is changed inside, merged with
    another or moved. *)
Theorem ocrText_lines_come_from_the_recognition h lang i a text t :
  analyzeImageLocal h lang i = Fulfilled a ->
  TextRecognizer.recognize (textRecognizer i lang) = Fulfilled text ->
  ocrText a = Some t ->
  Subsequence (split LF t) (map trim (split LF text)).
Proof.
  intros Ha Htext Ht.
  apply analyzeImageLocal_Fulfilled in Ha
    as (_ & _ & _ & _ & _ & _ & _ & _ & Hocr).
  rewrite Hocr in Ht. clear Hocr.
  assert (Hperf : performOCR (textRecognizer i lang) = []
                  \/ performOCR (textRecognizer i lang) = cleanText text).
  { unfold performOCR. rewrite Htext.
    destruct (TextRecognizer.createWorker (textRecognizer i lang)); simpl;
      [|left; reflexivity].
    destruct (TextRecognizer.terminate (textRecognizer i lang)); simpl;
      [right|left]; reflexivity. }
  destruct Hperf as [E|E]; rewrite E in Ht; [discriminate|].
  destruct (cleanText_kept text) as [E'|(E' & Hne & _ & Hlf & _)].
  - rewrite E' in Ht. discriminate.
  - destruct (truthy (cleanText text)); [|discriminate].
    injection Ht as <-. rewrite E'.
    rewrite TextFacts.split_join by assumption.
    apply filteredLines_trimmed.
Qed.

Lemma ocrText_lines_come_from_the_recognition_witness :
  exists a,
    analyzeImageLocal Demo.host pl Demo.noisyText = Fulfilled a /\
    TextRecognizer.recognize (textRecognizer Demo.noisyText pl)
    = Fulfilled Demo.noisy /\
    ocrText a
    = Some (lit "EXIT 12" ++ [LF] ++ lit "Wyjście" ++ [LF] ++ lit "--ab--") /\
    map trim (split LF Demo.noisy)
    = [lit "EXIT 12"; lit "~~ | ~~"; lit "a"; lit "Wyjście"; [];
       lit "--ab--"] /\
    Subsequence [lit "EXIT 12"; lit "Wyjście"; lit "--ab--"]
      (map trim (split LF Demo.noisy)).
Proof.
  assert (Ha : exists a,
             analyzeImageLocal Demo.host pl Demo.noisyText = Fulfilled a /\
             ocrText a
             = Some (lit "EXIT 12" ++ [LF] ++ lit "Wyjście" ++ [LF]
                     ++ lit "--ab--")).
  { eexists. split; vm_compute; reflexivity. }
  destruct Ha as (a & Ha & Hocr).
  exists a. split; [exact Ha|]. split; [reflexivity|].
  split; [exact Hocr|]. split; [vm_compute; reflexivity|].
  exact (ocrText_lines_come_from_the_recognition Demo.host pl Demo.noisyText
           a Demo.noisy _ Ha eq_refl Hocr).
Defined.

(* ------------------------------------------------------------------ *)
(** ** Further properties of the metadata extraction *)

Lemma round_near_integer (r : number) (z : Z) :
  (inject_Z z - (1 # 4) <= r <= inject_Z z + (1 # 4))%Q -> round r = z.
Proof.
  intros [Hlo Hhi]. unfold round.
  apply Z.le_antisymm.
  - apply Z.lt_succ_r. rewrite Zlt_Qlt.
    apply Qle_lt_trans with (1 := Qfloor_le _).
    unfold Z.succ. rewrite inject_Z_plus. change (inject_Z 1) with 1%Q. lra.
  - rewrite <- (Qfloor_Z z). apply Qfloor_resp_le. lra.
Qed.

(** The reciprocal of the double nearest to [1 / n] rounds to [n]. *)
Lemma reciprocal_of_unit_fraction (n : positive) :
  (1 < n <= 4294967296)%positive ->
  ltb (nearest (1 # n)) 1%Q = true /\
  exists r,
    reciprocal (nearest (1 # n)) = Finite r /\ round r = Z.pos n.
Proof.
  intros [Hn1 Hn2].
  assert (Hz2 : Z.pos n <= 4294967296) by exact Hn2.
  clear Hn2.
  assert (Hz1 : 2 <= Z.pos n) by lia.
  clear Hn1.
  assert (HN1 : (2 <= inject_Z (Z.pos n))%Q).
  { change 2%Q with (inject_Z 2). rewrite <- Zle_Qle. exact Hz1. }
  assert (HN2 : (inject_Z (Z.pos n) <= 4294967296)%Q).
  { change 4294967296%Q with (inject_Z 4294967296).
    rewrite <- Zle_Qle. exact Hz2. }
  assert (HNq : (inject_Z (Z.pos n) * (1 # n) == 1)%Q).
  { unfold Qeq, Qmult. cbn [Qnum Qden inject_Z]. lia. }
  assert (Hq0 : (0 < 1 # n)%Q) by (unfold Qlt; cbn [Qnum Qden]; lia).
  assert (Hq2 : (1 # n <= 1 # 2)%Q) by (unfold Qle; cbn [Qnum Qden]; lia).
  clear Hz1 Hz2.
  set (q := (1 # n)%Q) in *. set (N := inject_Z (Z.pos n)) in *.
  pose proof (rounded_error q) as Hd. rewrite eps_pow2 in Hd.
  fold tiny in Hd. rewrite (Qabs_pos q) in Hd by lra.
  apply Qabs_Qle_condition in Hd. destruct Hd as [Hd1 Hd2].
  pose proof tiny_small as [Ht0 Ht].
  unfold nearest. fold q. set (d := rounded q) in *.
  (* u = N * d is within 2^-52 of 1 *)
  assert (Hu : (1 - (1 # 4503599627370496) <= N * d
                <= 1 + (1 # 4503599627370496))%Q).
  { assert (E : (N * d == 1 + N * (d - q))%Q) by (rewrite <- HNq; ring).
    assert (H1 : (N * (d - q) <= N * (q * eps + tiny))%Q)
      by (apply Qmult_le_l; lra).
    assert (H2 : (N * (- (q * eps + tiny)) <= N * (d - q))%Q)
      by (apply Qmult_le_l; lra).
    assert (E1 : (N * (q * eps + tiny) == eps + N * tiny)%Q).
    { transitivity (N * q * eps + N * tiny)%Q; [ring|].
      rewrite HNq. ring. }
    assert (E2 : (N * (- (q * eps + tiny)) == - (eps + N * tiny))%Q).
    { rewrite <- E1. ring. }
    assert (H3 : (N * tiny <= 4294967296 * tiny)%Q).
    { apply Qmult_le_compat_r; lra. }
    rewrite E, E1 in *. rewrite E2 in H2.
    set (nt := (N * tiny)%Q) in *. set (x := (N * (d - q))%Q) in *.
    clearbody nt x. unfold eps in *. clear - H1 H2 H3 Ht Ht0. split; lra. }
  assert (Hd0 : (0 < d)%Q).
  { apply Qnot_le_lt. intros Hle.
    assert (N * d <= N * 0)%Q by (apply Qmult_le_l; lra).
    assert (E0 : (N * 0 == 0)%Q) by ring. lra. }
  assert (Hd1' : (d < 1)%Q) by (unfold eps in *; lra).
  split.
  { unfold ltb. destruct (Qle_bool 1 d) eqn:E; [|reflexivity].
    apply Qle_bool_iff in E. lra. }
  unfold reciprocal.
  destruct (Qeq_bool d 0) eqn:E0.
  { apply Qeq_bool_iff in E0. lra. }
  set (y := (1 / d)%Q).
  assert (Hyd : (y * d == 1)%Q) by (unfold y; field; lra).
  assert (Hy0 : (0 < y)%Q).
  { unfold y, Qdiv. rewrite Qmult_1_l. apply Qinv_lt_0_compat. exact Hd0. }
  clearbody y.
  assert (HyN : (y * (N * d) == N)%Q).
  { transitivity (N * (y * d))%Q; [ring|]. rewrite Hyd. ring. }
  assert (Hy1 : (y * (1 - (1 # 4503599627370496)) <= N)%Q).
  { apply Qle_trans with (y * (N * d))%Q;
      [apply Qmult_le_l; [exact Hy0|apply Hu]|].
    rewrite HyN. apply Qle_refl. }
  assert (Hy2 : (N <= y * (1 + (1 # 4503599627370496)))%Q).
  { apply Qle_trans with (y * (N * d))%Q;
      [rewrite HyN; apply Qle_refl|].
    apply Qmult_le_l; [exact Hy0|apply Hu]. }
  assert (Hbig : (8589934592 <= pow2 1020)%Q).
  { apply Qle_trans with (pow2 33); [vm_compute; discriminate|].
    apply pow2_le. lia. }
  destruct (toBinary64_near y) as (r & Hr & Hnear).
  { rewrite Qabs_pos by lra. lra. }
  rewrite (Qabs_pos y) in Hnear by lra.
  exists r. split; [exact Hr|].
  apply round_near_integer. fold N.
  clear - Hnear Hy1 Hy2 HN1 HN2 Ht0 Ht Hy0.
  clearbody N. unfold eps in *. split; lra.
Qed.

(** X11: a shutter time of one n-th of a second, read as the double nearest
    to [1 / n] with [n] from 2 up to [2^32] (the range of an EXIF rational),
    is shown as [1/n], for every host: the reciprocal taken in binary64
    rounds back to [n]. *)
Theorem fast_exposure_is_shown_as_a_fraction h output (n : positive) parsed :
  parsed = Fulfilled (Some output) ->
  RawExif.ExposureTime output = Some (nearest (1 # n)) ->
  (1 < n <= 4294967296)%positive ->
  exists e l,
    extractExifData h parsed = Extracted e l /\
    Exif.exposureTime e = Some (lit "1/" ++ ofInteger (Z.pos n)).
Proof.
  intros -> He Hn. unfold extractExifData. do 2 eexists.
  split; [reflexivity|]. cbn [Exif.exposureTime]. rewrite He.
  cbn [option_map]. unfold exposureString.
  destruct (reciprocal_of_unit_fraction n Hn) as (Hlt & r & Hr & Hround).
  rewrite Hlt, Hr, Hround. unfold integerToString.
  replace (Z.abs (Z.pos n) <=? 2 ^ 53) with true; [reflexivity|].
  symmetry. apply Z.leb_le. cbn [Z.abs]. destruct Hn as [_ Hn].
  apply Z.le_trans with 4294967296; [exact Hn|]. vm_compute. discriminate.
Qed.

Lemma fast_exposure_is_shown_as_a_fraction_witness :
  RawExif.ExposureTime Demo.rawWithGps = Some (nearest (1 # 250)) /\
  (1 < 250 <= 4294967296)%positive /\
  exists e l,
    extractExifData Demo.host (Fulfilled (Some Demo.rawWithGps))
    = Extracted e l /\
    Exif.exposureTime e = Some (lit "1/250").
Proof.
  assert (Hn : (1 < 250 <= 4294967296)%positive)
    by (split; [reflexivity|vm_compute; discriminate]).
  split; [reflexivity|]. split; [exact Hn|].
  exact (fast_exposure_is_shown_as_a_fraction Demo.host Demo.rawWithGps 250
           _ eq_refl eq_refl Hn).
Defined.

(** Outside that range the fraction is not a plain integer: the reciprocal
    of the smallest double overflows and is shown as [1/Infinity], and from
    [2^53] on the host's printing of a double takes over, as for [2^70]. *)
Example slow_and_extreme_exposures (h : Host) :
  exposureString h (pow2 (-1074)) = lit "1/Infinity" /\
  exposureString h (pow2 (-70))
  = lit "1/" ++ numberToString h (pow2 70) /\
  exposureString h 2%Q = numberToString h 2%Q /\
  exposureString h (nearest 0.004%Q) = lit "1/250".
Proof. repeat split; vm_compute; reflexivity. Qed.

(** X12: what the extraction resolves to.  It never rejects; it resolves to
    the empty object exactly when parsing rejects or finds nothing.
    Otherwise it resolves to an [exif] block whose [dateTime] is a string
    (the empty one when the file has no date), together with a location
    exactly when latitude and longitude are both numbers; such a result
    always passes the test that guards the merge, even when the file has
    none of the fields that are read. *)
Theorem extraction_shape h parsed :
  (extractExifData h parsed = NoExif <->
   (exists e, parsed = Rejected e) \/ parsed = Fulfilled None) /\
  (forall output,
      parsed = Fulfilled (Some output) ->
      exists e l,
        extractExifData h parsed = Extracted e l /\
        hasMetadata (extractExifData h parsed) = true /\
        (exists date, Exif.dateTime e = Some date /\
                      (RawExif.DateTimeOriginal output = DateMissing ->
                       date = [])) /\
        (forall lat lng,
            l = Some {| Location.lat := lat; Location.lng := lng |} <->
            RawExif.latitude output = Some lat /\
            RawExif.longitude output = Some lng)).
Proof.
  split.
  - split.
    + destruct parsed as [[output|]|e]; simpl; intros H;
        [discriminate|right; reflexivity|left; eexists; reflexivity].
    + intros [[e ->]| ->]; reflexivity.
  - intros output ->. unfold extractExifData. do 2 eexists.
    split; [reflexivity|]. split; [reflexivity|]. split.
    + cbn [Exif.dateTime]. eexists. split; [reflexivity|].
      intros ->. reflexivity.
    + intros lat lng.
      destruct (RawExif.latitude output) as [la|],
               (RawExif.longitude output) as [lo|]; split;
        try (intros H; discriminate H);
        try (intros [H1 H2]; discriminate).
      * intros H. injection H as <- <-. split; reflexivity.
      * intros [H1 H2]. injection H1 as <-. injection H2 as <-.
        reflexivity.
Qed.

Lemma extraction_shape_witness :
  exists e,
    extractExifData Demo.host (Fulfilled (Some DemoMore.bare))
    = Extracted e None /\
    hasMetadata (extractExifData Demo.host (Fulfilled (Some DemoMore.bare)))
    = true /\
    Exif.dateTime e = Some [] /\ Exif.make e = None /\
    Exif.exposureTime e = None.
Proof.
  destruct (proj2 (extraction_shape Demo.host
                     (Fulfilled (Some DemoMore.bare)))
              DemoMore.bare eq_refl)
    as (e & l & He & Hguard & _ & _).
  vm_compute in He. injection He as <- <-.
  eexists. split; [vm_compute; reflexivity|].
  split; [exact Hguard|]. repeat split.
Defined.

(* ------------------------------------------------------------------ *)
(** ** Further properties of the record lifecycle *)

Lemma spread_last_wins a d1 d2 :
  d2 <> NoExif -> spread (spread a d1) d2 = spread a d2.
Proof.
  intros Hd2. destruct d2 as [|e2 l2]; [contradiction|].
  destruct d1; reflexivity.
Qed.

(** X13: of two merges the later one wins wholesale.  When two extraction
    results that are not empty are merged one after the other, the records
    are as if only the second had been merged: the [exif] block is replaced,
    not combined field by field. *)
Theorem later_merge_wins recordId d1 d2 images :
  d2 <> NoExif ->
  mergeExif recordId d2 (mergeExif recordId d1 images)
  = mergeExif recordId d2 images.
Proof.
  intros Hd2.
  induction images as [|img images IH].
  - unfold mergeExif. destruct (hasMetadata d2), (hasMetadata d1); reflexivity.
  - rewrite (mergeExif_cons recordId d1 img images).
    rewrite (mergeExif_cons recordId d2), IH.
    rewrite (mergeExif_cons recordId d2 img images). f_equal.
    rewrite !mergeExif_one. cbn [hd].
    assert (H2 : hasMetadata d2 = true)
      by (destruct d2; [contradiction|reflexivity]).
    rewrite H2. cbn [andb].
    destruct (ImageRecord.analysis img) as [a|] eqn:Ea.
    + destruct (hasMetadata d1 && sameId recordId img) eqn:E1.
      * apply andb_true_iff in E1 as [_ E1].
        unfold sameId in *. cbn [withStatus ImageRecord.analysis
                                   ImageRecord.id].
        rewrite E1. rewrite spread_last_wins by exact Hd2. reflexivity.
      * rewrite Ea. reflexivity.
    + rewrite Ea. reflexivity.
Qed.

Lemma later_merge_wins_witness :
  Demo.withoutGps <> NoExif /\
  map (fun img => option_map location (ImageRecord.analysis img))
      (mergeExif (lit "a1") Demo.withoutGps
         (mergeExif (lit "a1") Demo.withGps
            [Demo.record "a1" Status.completed (Some Demo.analysis)]))
  = [Some None] /\
  mergeExif (lit "a1") Demo.withoutGps
    (mergeExif (lit "a1") Demo.withGps
       [Demo.record "a1" Status.completed (Some Demo.analysis)])
  = mergeExif (lit "a1") Demo.withoutGps
      [Demo.record "a1" Status.completed (Some Demo.analysis)].
Proof.
  assert (Hd : Demo.withoutGps <> NoExif) by (vm_compute; discriminate).
  split; [exact Hd|]. split; [vm_compute; reflexivity|].
  exact (later_merge_wins (lit "a1") Demo.withGps Demo.withoutGps _ Hd).
Defined.

Lemma analyzeSingleRecord_map unknownError recordId result images :
  analyzeSingleRecord unknownError recordId result images
  = map (settled unknownError recordId result) images.
Proof.
  unfold analyzeSingleRecord, setCompleted, setError, setAnalyzing, settled.
  destruct result as [[a|e]|]; rewrite ?map_map; apply map_ext; intros img;
    destruct (sameId recordId img) eqn:E; try (rewrite E; reflexivity);
    try reflexivity;
    unfold sameId in *; cbn [withStatus ImageRecord.id]; rewrite E;
    reflexivity.
Qed.

Lemma settled_sameUpload unknownError recordId result img :
  sameUpload img (settled unknownError recordId result img).
Proof.
  unfold settled. destruct (sameId recordId img); [|apply sameUpload_refl].
  destruct result as [[a|e]|]; apply sameUpload_withStatus.
Qed.

Lemma mergeExif_map recordId d images :
  Forall2 (fun img img' =>
             sameUpload img img' /\
             ImageRecord.status img' = ImageRecord.status img /\
             (ImageRecord.id img <> recordId -> img' = img))
    images (mergeExif recordId d images).
Proof.
  induction images as [|img images IH].
  - unfold mergeExif. destruct (hasMetadata d); constructor.
  - rewrite mergeExif_cons, mergeExif_one. cbn [hd].
    constructor; [|exact IH].
    destruct (ImageRecord.analysis img) as [a|];
      [|split; [apply sameUpload_refl|split; [reflexivity|reflexivity]]].
    destruct (hasMetadata d && sameId recordId img) eqn:E.
    + apply andb_true_iff in E as [_ E]. apply sameId_true in E.
      split; [apply sameUpload_withStatus|]. split; [reflexivity|].
      intros Hne. contradiction.
    + split; [apply sameUpload_refl|split; reflexivity].
Qed.

(** X14: neither an attempt nor a background merge adds, removes or reorders
    records.  Both keep the identity, name, URL, type and size of every
    record and leave every record of another identity exactly as it was; for
    an identity that is not tracked they return the record list
    unchanged. *)
Theorem updates_keep_the_records unknownError recordId result d images :
  Forall2 (fun img img' =>
             sameUpload img img' /\
             (ImageRecord.id img <> recordId -> img' = img))
    images (analyzeSingleRecord unknownError recordId result images)
  /\ Forall2 (fun img img' =>
                sameUpload img img' /\
                ImageRecord.status img' = ImageRecord.status img /\
                (ImageRecord.id img <> recordId -> img' = img))
       images (mergeExif recordId d images)
  /\ ((forall img, In img images -> ImageRecord.id img <> recordId) ->
      analyzeSingleRecord unknownError recordId result images = images /\
      mergeExif recordId d images = images).
Proof.
  split; [|split; [apply mergeExif_map|]].
  - rewrite analyzeSingleRecord_map.
    induction images as [|img images IH]; simpl; constructor; [|exact IH].
    split; [apply settled_sameUpload|].
    intros Hne. unfold settled.
    destruct (sameId recordId img) eqn:E; [|reflexivity].
    apply sameId_true in E. contradiction.
  - intros Hnone. split.
    + rewrite analyzeSingleRecord_map.
      rewrite <- (map_id images) at 2. apply map_ext_in.
      intros img Hin. unfold settled.
      destruct (sameId recordId img) eqn:E; [|reflexivity].
      apply sameId_true in E. exfalso. exact (Hnone img Hin E).
    + pose proof (mergeExif_map recordId d images) as H.
      induction H as [|img img' imgs imgs' (_ & _ & Hsame) _ IH];
        [reflexivity|].
      f_equal.
      * apply Hsame. apply Hnone. left. reflexivity.
      * apply IH. intros x Hx. apply Hnone. right. exact Hx.
Qed.

Lemma updates_keep_the_records_witness :
  let images := [Demo.record "a1" Status.pending None;
                 Demo.record "b2" Status.completed (Some Demo.analysis)] in
  (forall img, In img images -> ImageRecord.id img <> lit "zz") /\
  analyzeSingleRecord Demo.unknownError (lit "zz") (Fulfilled Demo.analysis)
    images = images /\
  mergeExif (lit "zz") Demo.withGps images = images.
Proof.
  cbv zeta.
  assert (Hnone : forall img,
             In img [Demo.record "a1" Status.pending None;
                     Demo.record "b2" Status.completed (Some Demo.analysis)] ->
             ImageRecord.id img <> lit "zz").
  { intros img [<-|[<-|[]]]; vm_compute; discriminate. }
  split; [exact Hnone|].
  exact (proj2 (proj2 (updates_keep_the_records Demo.unknownError (lit "zz")
                         (Fulfilled Demo.analysis) Demo.withGps _)) Hnone).
Defined.

(** X15: a successful attempt replaces the analysis wholesale.  When the
    aggregator is fulfilled, every record of that identity ends completed,
    without error message, with exactly the returned analysis, which has
    neither [exif] nor [location]: metadata merged into an earlier analysis
    is gone until the next background extraction is merged. *)
Theorem success_replaces_the_analysis h lang i a unknownError recordId images :
  analyzeImageLocal h lang i = Fulfilled a ->
  exif a = None /\ location a = None /\
  Forall2 (fun img img' =>
             ImageRecord.id img = recordId ->
             ImageRecord.status img' = Status.completed /\
             ImageRecord.analysis img' = Some a /\
             ImageRecord.error img' = None /\
             AnalysisSidebar.showsMap a = false /\
             AnalysisSidebar.showsExif a = false)
    images
    (analyzeSingleRecord unknownError recordId (analyzeImageLocal h lang i)
       images).
Proof.
  intros Ha. rewrite Ha.
  apply analyzeImageLocal_fields in Ha
    as (u & canvas & detections & scenes & pushed & colors & _ & _ & _ & _ & _ & _ & Ha).
  cbv zeta in Ha.
  assert (He : exif a = None) by (subst a; reflexivity).
  assert (Hl : location a = None) by (subst a; reflexivity).
  split; [exact He|]. split; [exact Hl|].
  rewrite analyzeSingleRecord_map. clear Ha.
  induction images as [|img images IH]; simpl; constructor; [|exact IH].
  intros Hid. apply sameId_true in Hid. unfold settled. rewrite Hid.
  unfold AnalysisSidebar.showsMap, AnalysisSidebar.showsExif.
  rewrite He, Hl. repeat split.
Qed.

Lemma success_replaces_the_analysis_witness :
  exists a,
    analyzeImageLocal Demo.host pl Demo.twoFaces = Fulfilled a /\
    location Demo.located <> None /\
    map (fun img => (ImageRecord.status img,
                     option_map location (ImageRecord.analysis img),
                     ImageRecord.error img))
        (analyzeSingleRecord Demo.unknownError (lit "a1")
           (analyzeImageLocal Demo.host pl Demo.twoFaces)
           [Demo.record "a1" Status.error (Some Demo.located)])
    = [(Status.completed, Some None, None)].
Proof.
  assert (Ha : exists a,
             analyzeImageLocal Demo.host pl Demo.twoFaces = Fulfilled a)
    by (eexists; vm_compute; reflexivity).
  destruct Ha as (a & Ha).
  destruct (success_replaces_the_analysis Demo.host pl Demo.twoFaces a
              Demo.unknownError (lit "a1")
              [Demo.record "a1" Status.error (Some Demo.located)] Ha)
    as (_ & Hl & Hrec).
  exists a. split; [exact Ha|]. split; [vm_compute; discriminate|].
  rewrite Ha. simpl. rewrite Hl. reflexivity.
Defined.

(** X16: a merge is keyed by the identity alone.  A background extraction
    that resolves after a later attempt has completed is merged into the
    analysis of that later attempt; one that resolves while an attempt is
    running is merged into the analysis the record still carries, and the
    record stays in [analyzing]. *)
Theorem late_merge_lands_on_the_current_analysis
    unknownError recordId a d images :
  d <> NoExif ->
  Forall (fun img =>
            ImageRecord.id img = recordId ->
            ImageRecord.status img = Status.completed /\
            ImageRecord.analysis img = Some (spread a d))
    (mergeExif recordId d
       (analyzeSingleRecord unknownError recordId (Fulfilled a) images))
  /\ Forall2 (fun img img' =>
                ImageRecord.id img = recordId ->
                ImageRecord.status img' = Status.analyzing /\
                ImageRecord.analysis img'
                = option_map (fun old => spread old d)
                    (ImageRecord.analysis img))
       images (mergeExif recordId d (setAnalyzing recordId images)).
Proof.
  intros Hd.
  assert (Hguard : hasMetadata d = true)
    by (destruct d; [contradiction|reflexivity]).
  split.
  - rewrite analyzeSingleRecord_map.
    induction images as [|img images IH].
    + unfold mergeExif. simpl. rewrite Hguard. constructor.
    + cbn [map]. rewrite mergeExif_cons, mergeExif_one. cbn [hd].
      constructor; [|exact IH].
      assert (Hkept : forall s o e,
                 sameId recordId (withStatus img s o e) = sameId recordId img)
        by reflexivity.
      unfold settled. destruct (sameId recordId img) eqn:E.
      * cbn [ImageRecord.analysis withStatus]. rewrite Hguard, Hkept.
        intros _. split; reflexivity.
      * intros Hid. apply sameId_true in Hid.
        destruct (ImageRecord.analysis img); [|congruence].
        rewrite E, andb_false_r in Hid. congruence.
  - unfold setAnalyzing.
    induction images as [|img images IH].
    + unfold mergeExif. simpl. rewrite Hguard. constructor.
    + cbn [map]. rewrite mergeExif_cons, mergeExif_one. cbn [hd].
      constructor; [|exact IH].
      assert (Hkept : forall s o e,
                 sameId recordId (withStatus img s o e) = sameId recordId img)
        by reflexivity.
      intros Hid. apply sameId_true in Hid. rewrite Hid.
      cbn [withStatus ImageRecord.analysis]. rewrite Hkept, Hid, Hguard.
      destruct (ImageRecord.analysis img); split; reflexivity.
Qed.

Lemma late_merge_lands_on_the_current_analysis_witness :
  Demo.withGps <> NoExif /\
  map (fun img => (ImageRecord.status img,
                   option_map location (ImageRecord.analysis img)))
      (mergeExif (lit "a1") Demo.withGps
         (setAnalyzing (lit "a1")
            [Demo.record "a1" Status.completed (Some Demo.analysis)]))
  = [(Status.analyzing,
      Some (Some {| Location.lat := 521 # 10; Location.lng := 21%Q |}))] /\
  Forall (fun img =>
            ImageRecord.id img = lit "a1" ->
            ImageRecord.status img = Status.completed /\
            ImageRecord.analysis img
            = Some (spread Demo.analysis Demo.withGps))
    (mergeExif (lit "a1") Demo.withGps
       (analyzeSingleRecord Demo.unknownError (lit "a1")
          (Fulfilled Demo.analysis)
          [Demo.record "a1" Status.error (Some Demo.located)])).
Proof.
  assert (Hd : Demo.withGps <> NoExif) by (vm_compute; discriminate).
  split; [exact Hd|]. split; [vm_compute; reflexivity|].
  exact (proj1 (late_merge_lands_on_the_current_analysis Demo.unknownError
                  (lit "a1") Demo.analysis Demo.withGps _ Hd)).
Defined.

(** X17: what the sidebar shows for a merged extraction.  When the parser
    finds an object, the merged analysis carries an [exif] block, but the
    metadata section is rendered only if [Make] or [Model] is a non-empty
    string, whatever date, ISO, aperture or exposure the file has; the map
    is rendered exactly when latitude and longitude are both numbers. *)
Theorem metadata_is_shown_only_with_a_camera_name h output a :
  let merged := spread a (extractExifData h (Fulfilled (Some output))) in
  exif merged <> None /\
  AnalysisSidebar.showsExif merged
  = AnalysisSidebar.isShown (RawExif.Make output)
    || AnalysisSidebar.isShown (RawExif.Model output) /\
  (AnalysisSidebar.showsMap merged = true <->
   exists lat lng, RawExif.latitude output = Some lat /\
                   RawExif.longitude output = Some lng).
Proof.
  cbv zeta. unfold extractExifData, spread, AnalysisSidebar.showsExif,
    AnalysisSidebar.showsMap.
  cbn [exif location Exif.make Exif.model].
  split; [discriminate|]. split; [reflexivity|].
  destruct (RawExif.latitude output) as [la|],
           (RawExif.longitude output) as [lo|]; cbn; split;
    try (intros H; discriminate H);
    try (intros (lat & lng & H1 & H2); discriminate);
    try reflexivity.
  intros _. exists la, lo. split; reflexivity.
Qed.

Example settings_without_camera_name_stay_hidden :
  let merged :=
    spread Demo.analysis
      (extractExifData Demo.host
         (Fulfilled (Some {| RawExif.latitude := None;
                             RawExif.longitude := Some 21%Q;
                             RawExif.Make := Some [];
                             RawExif.Model := None;
                             RawExif.DateTimeOriginal :=
                               DateString (lit "2024:05:01 10:00:00");
                             RawExif.ISO := Some 200%Q;
                             RawExif.ExposureTime := Some (nearest (1 # 250));
                             RawExif.FNumber := Some (28 # 10)%Q |}))) in
  option_map Exif.iso (exif merged) = Some (Some 200%Q) /\
  AnalysisSidebar.showsExif merged = false /\
  AnalysisSidebar.showsMap merged = false.
Proof. vm_compute. repeat split. Qed.

(* ------------------------------------------------------------------ *)
(** ** What the sidebar shows for an analysis of the local service *)

Lemma sort_nil_inv {A} (cmp : A -> A -> number) l :
  JS.sort cmp l = [] -> l = [].
Proof.
  intros H. pose proof (sort_perm cmp l) as Hp. rewrite H in Hp.
  apply Permutation_sym, Permutation_nil in Hp. exact Hp.
Qed.

(** X18: for an analysis that [analyzeImageLocal] returned, the sidebar never
    falls back to the legacy age and emotion summaries: it shows the face
    cards when the face sequence is not empty and no face section at all
    otherwise.  With an empty face sequence there is no markup to toggle,
    and the image shown is the uploaded one whatever the toggle says. *)
Theorem sidebar_of_a_local_analysis h lang i a record showMarkup :
  analyzeImageLocal h lang i = Fulfilled a ->
  ImageRecord.analysis record = Some a ->
  (forall age emotion,
      AnalysisSidebar.faceSection a
      <> AnalysisSidebar.LegacySummaries age emotion) /\
  (faces a = Some [] ->
   AnalysisSidebar.faceSection a = AnalysisSidebar.NoFaceSection /\
   AnalysisSidebar.hasMarkup record = false /\
   AnalysisSidebar.displayUrl record showMarkup
   = Some (ImageRecord.url record)).
Proof.
  intros Ha Hrec.
  apply analyzeImageLocal_fields in Ha
    as (u & canvas & detections & scenes & pushed & colors & _ & _ & _ & _ & Hc & _ & Ha).
  cbv zeta in Ha.
  assert (Hempty : faces a = Some [] -> pushed = [] /\ detectedFaces i = []).
  { subst a. cbn [faces]. intros H. injection H as H.
    apply sort_nil_inv in H. split; [exact H|]. subst pushed.
    apply collectFaces_Forall2 in Hc. inversion Hc. reflexivity. }
  split.
  - intros age emotion. unfold AnalysisSidebar.faceSection.
    destruct (faces a) as [[|face rest]|] eqn:Ef; try discriminate.
    + destruct (Hempty eq_refl) as [-> _]. subst a.
      cbn [ageEstimate emotionEstimate]. discriminate.
    + subst a. discriminate.
  - intros Ef. destruct (Hempty Ef) as [-> Hnone].
    unfold AnalysisSidebar.displayUrl, AnalysisSidebar.hasMarkup,
      AnalysisSidebar.faceSection.
    rewrite Hrec, Ef. subst a.
    cbn [ageEstimate emotionEstimate markedUpImageUrl].
    rewrite Hnone. repeat split.
Qed.

Lemma sidebar_of_a_local_analysis_witness :
  exists a,
    analyzeImageLocal Demo.host en Demo.noisyText = Fulfilled a /\
    faces a = Some [] /\
    AnalysisSidebar.displayUrl
      (Demo.record "a1" Status.completed (Some a)) true
    = Some (ImageRecord.url (Demo.record "a1" Status.completed (Some a))).
Proof.
  assert (Ha : exists a,
             analyzeImageLocal Demo.host en Demo.noisyText = Fulfilled a /\
             faces a = Some [])
    by (eexists; split; vm_compute; reflexivity).
  destruct Ha as (a & Ha & Hf).
  exists a. split; [exact Ha|]. split; [exact Hf|].
  exact (proj2 (proj2 (proj2 (sidebar_of_a_local_analysis Demo.host en
                                Demo.noisyText a
                                (Demo.record "a1" Status.completed (Some a))
                                true Ha eq_refl) Hf))).
Defined.

(* ------------------------------------------------------------------ *)
(** ** The model loader *)

Section LoaderFacts.
Context {ObjectDetection MobileNet : Type}.
Implicit Types (st : Models.State ObjectDetection MobileNet)
               (l : Models.Loads ObjectDetection MobileNet).

Lemma initModels_cases st l :
  Models.modelsLoaded st = false ->
  (exists om sm u,
      Models.initModels st l
      = ({| Models.objectModel := Some om; Models.sceneModel := Some sm;
            Models.modelsLoaded := true |}, Fulfilled u)) \/
  (exists e, snd (Models.initModels st l) = Rejected e /\
             Models.modelsLoaded (fst (Models.initModels st l)) = false).
Proof.
  intros Hl. unfold Models.initModels. rewrite Hl.
  destruct (Models.tfReady l) as [[]|e];
    [|right; exists e; split; [reflexivity|exact Hl]].
  destruct (Models.cocoSsdLoad l) as [om|e];
    [|right; exists e; split; [reflexivity|exact Hl]].
  destruct (Models.mobilenetLoad l) as [sm|e];
    [|right; exists e; split; reflexivity].
  destruct (Models.faceNets l) as [[]|e];
    [|right; exists e; split; reflexivity].
  left. exists om, sm, tt. reflexivity.
Qed.

Lemma ensureModels_consistent st l :
  consistent st -> consistent (fst (Models.ensureModels st l)).
Proof.
  intros Hc. unfold Models.ensureModels.
  destruct (Models.modelsLoaded st) eqn:Hl; [exact Hc|]. cbn [negb].
  destruct (initModels_cases st l Hl)
    as [(om & sm & u & ->)|(e & _ & Hstill)].
  - intros _. split; discriminate.
  - intros H. congruence.
Qed.

Lemma afterCalls_consistent st ls :
  consistent st -> consistent (Models.afterCalls st ls).
Proof.
  revert st. induction ls as [|l ls IH]; intros st Hc; [exact Hc|].
  apply IH, ensureModels_consistent, Hc.
Qed.

Lemma afterCalls_loaded st ls :
  Models.modelsLoaded st = true -> Models.afterCalls st ls = st.
Proof.
  intros Hl. induction ls as [|l ls IH]; [reflexivity|].
  cbn [Models.afterCalls fold_left]. unfold Models.ensureModels at 2.
  rewrite Hl. exact IH.
Qed.

End LoaderFacts.

Lemma loader_ready_models {ObjectDetection MobileNet : Type}
    (ls : list (Models.Loads ObjectDetection MobileNet))
    (l : Models.Loads ObjectDetection MobileNet) :
  forall u,
    snd (Models.ensureModels (Models.afterCalls Models.initial ls) l)
    = Fulfilled u ->
    Models.objectModel
      (fst (Models.ensureModels (Models.afterCalls Models.initial ls) l))
    <> None /\
    Models.sceneModel
      (fst (Models.ensureModels (Models.afterCalls Models.initial ls) l))
    <> None.
Proof.
  intros u Hu.
  set (st := Models.afterCalls Models.initial ls) in *.
  assert (Hc : consistent st).
  { apply afterCalls_consistent. intros H. discriminate H. }
  unfold Models.ensureModels in *.
  destruct (Models.modelsLoaded st) eqn:Hl; cbn [negb] in *.
  - apply Hc, Hl.
  - destruct (initModels_cases st l Hl)
      as [(om & sm & u' & E')|(e & Er & _)].
    + rewrite E'. split; discriminate.
    + rewrite Er in Hu. discriminate Hu.
Qed.

(** X19: the loader across any number of calls, whatever the loads settle
    to.  The flag [modelsLoaded] is never set without both models being
    there; a call is fulfilled exactly when the flag is set afterwards, so a
    failed call is tried again by the next one; and once the flag is set, no
    later call loads or changes anything. *)
Theorem loader_is_consistent {ObjectDetection MobileNet : Type}
    (ls more : list (Models.Loads ObjectDetection MobileNet))
    (l : Models.Loads ObjectDetection MobileNet) :
  let st := Models.afterCalls Models.initial ls in
  let (st', result) := Models.ensureModels st l in
  consistent st' /\
  ((exists u, result = Fulfilled u) <-> Models.modelsLoaded st' = true) /\
  (Models.modelsLoaded st' = true -> Models.afterCalls st' more = st').
Proof.
  cbv zeta.
  set (st := Models.afterCalls Models.initial ls).
  assert (Hc : consistent st).
  { apply afterCalls_consistent. intros H. discriminate H. }
  pose proof (ensureModels_consistent st l Hc) as Hc'.
  destruct (Models.ensureModels st l) as [st' result] eqn:E.
  cbn [fst] in Hc'.
  split; [exact Hc'|]. split; [|apply afterCalls_loaded].
  unfold Models.ensureModels in E.
  destruct (Models.modelsLoaded st) eqn:Hl; cbn [negb] in E.
  - injection E as <- <-. split; [intros _; exact Hl|].
    intros _. exists tt. reflexivity.
  - destruct (initModels_cases st l Hl)
      as [(om & sm & u & E')|(e & Er & Hstill)]; rewrite E in *.
    + injection E' as -> ->. split; [reflexivity|].
      intros _. exists u. reflexivity.
    + cbn [fst snd] in *. subst result. rewrite Hstill. split.
      * intros (u & H). discriminate H.
      * intros H. discriminate H.
Qed.

Example a_failed_load_is_tried_again :
  Models.ensureModels Models.initial DemoMore.flaky
  = ({| Models.objectModel := Some 1; Models.sceneModel := Some 2;
        Models.modelsLoaded := false |}, Rejected Demo.boom) /\
  Models.afterCalls Models.initial
    [DemoMore.flaky; DemoMore.sound; DemoMore.flaky]
  = {| Models.objectModel := Some 3; Models.sceneModel := Some 4;
       Models.modelsLoaded := true |}.
Proof. split; reflexivity. Qed.

(** X20: the fall-backs for a missing model are never taken.  In a call of
    [analyzeImageLocal] whose inputs come from the loader, whenever the
    call gets past the loading step both models are there, so the empty
    detection and scene lists stand for a model that returned none, never
    for a model that is missing. *)
Theorem models_are_present_when_used ls l canvas first faceTask tr :
  let i := Models.inputsOf (Models.afterCalls Models.initial ls) l canvas
             first faceTask tr in
  (forall u, modelsReady i = Fulfilled u ->
             objectModel i <> None /\ sceneModel i <> None) /\
  (forall h lang a,
      analyzeImageLocal h lang i = Fulfilled a ->
      exists detect classify,
        objectModel i = Some detect /\ sceneModel i = Some classify /\
        detectionsOf i = detect /\ scenesOf i = classify).
Proof.
  cbv zeta. unfold Models.inputsOf.
  pose proof (loader_ready_models ls l) as H.
  destruct (Models.ensureModels (Models.afterCalls Models.initial ls) l)
    as [st' result].
  cbn [fst snd] in H.
  cbn [modelsReady objectModel sceneModel]. split.
  - intros u Hu. apply (H u Hu).
  - intros h lang a Ha.
    apply analyzeImageLocal_fields in Ha as (u & _ & _ & _ & _ & _ & Hu & _).
    cbn [modelsReady] in Hu. destruct (H u Hu) as [Ho Hs].
    unfold detectionsOf, scenesOf. cbn [objectModel sceneModel].
    destruct (Models.objectModel st') as [detect|]; [|contradiction].
    destruct (Models.sceneModel st') as [classify|]; [|contradiction].
    exists detect, classify. repeat split.
Qed.

(* ------------------------------------------------------------------ *)
(** ** The controller *)

Import Controller.

Lemma analyzeEach_map unknownError run records imgs :
  analyzeEach unknownError run records imgs
  = map (settledByAll unknownError run records) imgs.
Proof.
  unfold analyzeEach, settledByAll. revert imgs.
  induction records as [|r records IH]; intros imgs; cbn [fold_left].
  - symmetry. apply map_id.
  - rewrite IH, analyzeSingleRecord_map, map_map. reflexivity.
Qed.

Lemma settled_id unknownError recordId result img :
  ImageRecord.id (settled unknownError recordId result img)
  = ImageRecord.id img.
Proof. apply (settled_sameUpload unknownError recordId result img). Qed.

Lemma settledByAll_sameUpload unknownError run records img :
  sameUpload img (settledByAll unknownError run records img).
Proof.
  unfold settledByAll. revert img.
  induction records as [|r records IH]; intros img; cbn [fold_left].
  - apply sameUpload_refl.
  - pose proof (settled_sameUpload unknownError (ImageRecord.id r) (run r)
                  img) as H1.
    pose proof (IH (settled unknownError (ImageRecord.id r) (run r) img))
      as H2.
    unfold sameUpload in *. intuition congruence.
Qed.

Lemma settledByAll_other unknownError run records img :
  (forall r, In r records -> ImageRecord.id r <> ImageRecord.id img) ->
  settledByAll unknownError run records img = img.
Proof.
  unfold settledByAll.
  induction records as [|r records IH]; intros Hother; cbn [fold_left];
    [reflexivity|].
  assert (E : settled unknownError (ImageRecord.id r) (run r) img = img).
  { unfold settled. destruct (sameId (ImageRecord.id r) img) eqn:E;
      [|reflexivity].
    apply sameId_true in E. exfalso.
    apply (Hother r (or_introl eq_refl)). symmetry. exact E. }
  rewrite E. apply IH. intros r' Hr'. apply Hother. right. exact Hr'.
Qed.

Lemma settledByAll_own unknownError run records r :
  NoDup (map ImageRecord.id records) -> In r records ->
  settledByAll unknownError run records r = outcomeOf unknownError run r.
Proof.
  unfold settledByAll.
  induction records as [|r0 records IH]; intros Hnd Hin; [destruct Hin|].
  cbn [map] in Hnd. inversion Hnd as [|x xs Hfresh Hnd']. subst x xs.
  cbn [fold_left]. destruct Hin as [->|Hin].
  - fold (outcomeOf unknownError run r).
    apply (settledByAll_other unknownError run records).
    intros r' Hr' E. apply Hfresh.
    unfold outcomeOf in E. rewrite settled_id in E. rewrite <- E.
    apply in_map, Hr'.
  - assert (E : settled unknownError (ImageRecord.id r0) (run r0) r = r).
    { unfold settled. destruct (sameId (ImageRecord.id r0) r) eqn:E;
        [|reflexivity].
      apply sameId_true in E. exfalso. apply Hfresh. rewrite <- E.
      apply in_map, Hin. }
    rewrite E. apply IH; assumption.
Qed.

Lemma settledByAll_no_error unknownError run records img :
  (forall r, In r records -> exists a, run r = Fulfilled a) ->
  isError img = false \/
  (exists r, In r records /\ ImageRecord.id r = ImageRecord.id img) ->
  isError (settledByAll unknownError run records img) = false.
Proof.
  unfold settledByAll. revert img.
  induction records as [|r records IH]; intros img Hrun Himg;
    cbn [fold_left].
  - destruct Himg as [H|(r & [] & _)]. exact H.
  - apply IH; [intros r' Hr'; apply Hrun; right; exact Hr'|].
    unfold settled. destruct (sameId (ImageRecord.id r) img) eqn:E.
    + destruct (Hrun r (or_introl eq_refl)) as (a & ->). left. reflexivity.
    + destruct Himg as [H|(r' & [<-|Hr'] & Hid)].
      * left. exact H.
      * apply eqb_neq in E. exfalso. apply E. symmetry. exact Hid.
      * right. exists r'. split; assumption.
Qed.

Lemma Forall2_map_same {A B} (R : A -> B -> Prop) (f : A -> B) l :
  (forall x, R x (f x)) -> Forall2 R l (map f l).
Proof. intros H. induction l; simpl; constructor; auto. Qed.

Lemma newRecordsFrom_fields k supply files :
  map ImageRecord.name (newRecordsFrom k supply files) = map File.name files
  /\ map ImageRecord.mimeType (newRecordsFrom k supply files)
     = map File.type files
  /\ map ImageRecord.id (newRecordsFrom k supply files)
     = map (fun n => fst (supply n)) (seq k (List.length files))
  /\ map ImageRecord.url (newRecordsFrom k supply files)
     = map (fun n => snd (supply n)) (seq k (List.length files)).
Proof.
  revert k. induction files as [|file files IH]; intros k; simpl;
    [repeat split|].
  destruct (IH (S k)) as (-> & -> & -> & ->). repeat split.
Qed.

Lemma analyzeEach_fields unknownError run records imgs :
  map ImageRecord.name (analyzeEach unknownError run records imgs)
  = map ImageRecord.name imgs /\
  map ImageRecord.mimeType (analyzeEach unknownError run records imgs)
  = map ImageRecord.mimeType imgs /\
  map ImageRecord.id (analyzeEach unknownError run records imgs)
  = map ImageRecord.id imgs.
Proof.
  rewrite analyzeEach_map, !map_map.
  repeat split; apply map_ext; intros img;
    apply (settledByAll_sameUpload unknownError run records img).
Qed.

(** X21: a submission of files, once every attempt has settled.  With the
    models loaded, minted identifiers that are pairwise distinct and not in
    use, the new records stand before the old ones in the order of the
    files, each settled by its own attempt and by no other, the old records
    are exactly as they were, and the processing flag is down. *)
Theorem submission_settles_each_new_record
    unknownError run supply files st :
  isModelLoading st = false ->
  NoDup (map ImageRecord.id (newRecordsFrom 0 supply files)) ->
  (forall r img, In r (newRecordsFrom 0 supply files) ->
                 In img (images st) ->
                 ImageRecord.id r <> ImageRecord.id img) ->
  images (processFiles unknownError run supply files st)
  = map (outcomeOf unknownError run) (newRecordsFrom 0 supply files)
    ++ images st /\
  isProcessing (processFiles unknownError run supply files st) = false.
Proof.
  intros Hready Hnd Hfresh. unfold processFiles. rewrite Hready.
  cbv zeta. cbn [images isProcessing withProcessing withImages].
  split; [|reflexivity].
  rewrite analyzeEach_map, map_app. f_equal.
  - apply map_ext_in. intros r Hr. apply settledByAll_own; assumption.
  - rewrite <- (map_id (images st)) at 2. apply map_ext_in.
    intros img Himg. apply settledByAll_other.
    intros r Hr. apply Hfresh; assumption.
Qed.

Lemma submission_settles_each_new_record_witness :
  let files := [DemoMore.file "cat.png" "image/png";
                DemoMore.file "dog.jpg" "image/jpeg"] in
  isModelLoading DemoMore.ready = false /\
  map (fun img => (ImageRecord.name img, ImageRecord.status img,
                   ImageRecord.error img))
      (images (processFiles Demo.unknownError DemoMore.run DemoMore.supply
                 files DemoMore.ready))
  = [(lit "cat.png", Status.completed, None);
     (lit "dog.jpg", Status.error, Some (lit "detector failed"));
     (lit "photo.jpg", Status.error, None)].
Proof.
  cbv zeta. split; [reflexivity|].
  assert (Hnd : NoDup (map ImageRecord.id
                         (newRecordsFrom 0 DemoMore.supply
                            [DemoMore.file "cat.png" "image/png";
                             DemoMore.file "dog.jpg" "image/jpeg"]))).
  { vm_compute. constructor.
    - intros [H|[]]. discriminate H.
    - constructor; [intros []|constructor]. }
  assert (Hfresh : forall r img,
             In r (newRecordsFrom 0 DemoMore.supply
                     [DemoMore.file "cat.png" "image/png";
                      DemoMore.file "dog.jpg" "image/jpeg"]) ->
             In img (images DemoMore.ready) ->
             ImageRecord.id r <> ImageRecord.id img).
  { intros r img [<-|[<-|[]]] [<-|[]]; vm_compute; discriminate. }
  rewrite (proj1 (submission_settles_each_new_record Demo.unknownError
                    DemoMore.run DemoMore.supply _ DemoMore.ready
                    eq_refl Hnd Hfresh)).
  vm_compute. reflexivity.
Defined.

(** X22: only image files become records.  With the models loaded, a file
    selection adds one record for each file whose type starts with
    [image/], in the order of the files and before the records that were
    there, with the name and type of its file; other files leave no trace,
    and a selection without any image file changes nothing.  While the
    models are loading, or after loading has failed, every selection is
    dropped. *)
Theorem only_image_files_become_records
    unknownError run supply files st :
  let st' := handleFileSelection unknownError run supply files st in
  (isModelLoading st = true -> st' = st) /\
  (filter isImage files = [] -> st' = st) /\
  (isModelLoading st = false ->
   map ImageRecord.name (images st')
   = map File.name (filter isImage files)
     ++ map ImageRecord.name (images st) /\
   map ImageRecord.mimeType (images st')
   = map File.type (filter isImage files)
     ++ map ImageRecord.mimeType (images st)).
Proof.
  cbv zeta. unfold handleFileSelection.
  change (filter (fun f => startsWith (lit "image/") (File.type f)) files)
    with (filter isImage files).
  split; [|split].
  - intros Hl. destruct (filter isImage files); [reflexivity|].
    unfold processFiles. rewrite Hl. reflexivity.
  - intros ->. reflexivity.
  - intros Hl. destruct (filter isImage files) as [|f fs] eqn:E;
      [split; reflexivity|].
    unfold processFiles. rewrite Hl. cbv zeta.
    cbn [images withProcessing withImages].
    destruct (analyzeEach_fields unknownError run
                (newRecordsFrom 0 supply (f :: fs))
                (newRecordsFrom 0 supply (f :: fs) ++ images st))
      as (-> & -> & _).
    rewrite !map_app.
    destruct (newRecordsFrom_fields 0 supply (f :: fs)) as (-> & -> & _).
    split; reflexivity.
Qed.

Lemma only_image_files_become_records_witness :
  isModelLoading DemoMore.ready = false /\
  map ImageRecord.name
    (images (handleFileSelection Demo.unknownError DemoMore.run
               DemoMore.supply DemoMore.dropped DemoMore.ready))
  = [lit "cat.png"; lit "dog.jpg"; lit "photo.jpg"] /\
  handleFileSelection Demo.unknownError DemoMore.run DemoMore.supply
    DemoMore.dropped (loadAi (Rejected Demo.boom) initial)
  = loadAi (Rejected Demo.boom) initial.
Proof.
  split; [reflexivity|]. split.
  - rewrite (proj1 (proj2 (proj2 (only_image_files_become_records
                                    Demo.unknownError DemoMore.run
                                    DemoMore.supply DemoMore.dropped
                                    DemoMore.ready)) eq_refl)).
    vm_compute. reflexivity.
  - exact (proj1 (only_image_files_become_records Demo.unknownError
                    DemoMore.run DemoMore.supply DemoMore.dropped
                    (loadAi (Rejected Demo.boom) initial)) eq_refl).
Defined.

(** X23: retrying all failed records.  When every attempt for a failed
    record is fulfilled, no record is left in [error] afterwards, so the
    retry-all control disappears; the records stay the same uploads in the
    same order. *)
Theorem retry_all_clears_the_failures unknownError run st :
  (forall img, In img (images st) -> isError img = true ->
               exists a, run img = Fulfilled a) ->
  hasFailedItems (handleRetryAllFailed unknownError run st) = false /\
  Forall2 sameUpload (images st)
    (images (handleRetryAllFailed unknownError run st)).
Proof.
  intros Hrun. unfold handleRetryAllFailed, hasFailedItems.
  destruct (filter isError (images st)) as [|f fs] eqn:E.
  - split.
    + destruct (existsb isError (images st)) eqn:Ex; [|reflexivity].
      apply existsb_exists in Ex as (img & Hin & Herr).
      assert (H : In img (filter isError (images st)))
        by (apply filter_In; split; assumption).
      rewrite E in H. destruct H.
    + rewrite <- (map_id (images st)) at 2.
      apply Forall2_map_same. intros img. apply sameUpload_refl.
  - rewrite <- E. cbn [images withProcessing withImages].
    rewrite analyzeEach_map. split.
    + destruct (existsb isError _) eqn:Ex; [|reflexivity].
      apply existsb_exists in Ex as (img' & Hin & Herr).
      apply in_map_iff in Hin as (img & <- & Hin).
      rewrite settledByAll_no_error in Herr; [discriminate Herr| |].
      * intros r Hr. apply filter_In in Hr as [Hr Hre].
        apply Hrun; assumption.
      * destruct (isError img) eqn:Ei; [|left; reflexivity].
        right. exists img. split; [|reflexivity].
        apply filter_In. split; assumption.
    + apply Forall2_map_same. intros img. apply settledByAll_sameUpload.
Qed.

Lemma retry_all_clears_the_failures_witness :
  (forall img, In img (images DemoMore.ready) -> isError img = true ->
               exists a, DemoMore.run img = Fulfilled a) /\
  hasFailedItems DemoMore.ready = true /\
  hasFailedItems
    (handleRetryAllFailed Demo.unknownError DemoMore.run DemoMore.ready)
  = false.
Proof.
  assert (Hrun : forall img, In img (images DemoMore.ready) ->
                             isError img = true ->
                             exists a, DemoMore.run img = Fulfilled a).
  { intros img [<-|[]] _. eexists. vm_compute. reflexivity. }
  split; [exact Hrun|]. split; [reflexivity|].
  exact (proj1 (retry_all_clears_the_failures Demo.unknownError DemoMore.run
                  DemoMore.ready Hrun)).
Defined.

(* ------------------------------------------------------------------ *)
(** ** The remote analysis service *)

Lemma resultOf_None parsed :
  Gemini.resultOf parsed = None <-> parsed = Json.JNull.
Proof.
  split; [|intros ->; reflexivity].
  destruct parsed; try reflexivity; discriminate.
Qed.

(** X24: every failure of [analyzeImage] is the same failure.  The call
    rejects exactly when the request rejects, when the response text does
    not parse, or when it parses to [null]; the rejection then carries the
    fixed message, whatever the cause was, and that message, not the
    translated fallback, is what a caller using [error.message ||
    t.unknownError] shows.  Any other response, object or not, gives a
    result. *)
Theorem remote_failures_share_one_message response parse unknownError :
  (forall e,
      Gemini.analyzeImage response parse = Rejected e ->
      e = Gemini.failed /\
      App.messageOf unknownError e = lit "Failed to analyze image with AI.") /\
  ((exists e, Gemini.analyzeImage response parse = Rejected e) <->
   (exists e, response = Rejected e) \/
   (exists text, response = Fulfilled text /\
                 ((exists e, parse (Gemini.textOf text) = Rejected e) \/
                  parse (Gemini.textOf text) = Fulfilled Json.JNull))).
Proof.
  unfold Gemini.analyzeImage. split.
  - intros e He.
    assert (e = Gemini.failed).
    { destruct response as [text|]; [|congruence].
      destruct (parse (Gemini.textOf text)) as [parsed|]; [|congruence].
      destruct (Gemini.resultOf parsed); congruence. }
    subst e. split; [reflexivity|]. vm_compute. reflexivity.
  - destruct response as [text|e0].
    + destruct (parse (Gemini.textOf text)) as [parsed|e1] eqn:Ep.
      * destruct (Gemini.resultOf parsed) eqn:Er; split.
        -- intros (e & H). discriminate H.
        -- intros [(e & H)|(text' & H & [(e & H')|H'])];
             try discriminate H.
           ++ injection H as <-. congruence.
           ++ injection H as <-. rewrite Ep in H'. injection H' as ->.
              discriminate Er.
        -- intros _. right. exists text. split; [reflexivity|]. right.
           apply resultOf_None in Er. subst parsed. exact Ep.
        -- intros _. eexists. reflexivity.
      * split; [|intros _; eexists; reflexivity].
        intros _. right. exists text. split; [reflexivity|]. left.
        exists e1. exact Ep.
    + split; [|intros _; eexists; reflexivity].
      intros _. left. exists e0. reflexivity.
Qed.

Lemma remote_failures_share_one_message_witness :
  Gemini.analyzeImage (Fulfilled (Some (lit "null"))) DemoMore.parse
  = Rejected Gemini.failed /\
  Gemini.analyzeImage
    (Fulfilled (Some (lit "{ description: 7, labels: [1] }"))) DemoMore.parse
  = Rejected Gemini.failed /\
  App.messageOf Demo.unknownError Gemini.failed
  = lit "Failed to analyze image with AI.".
Proof.
  split; [reflexivity|].
  destruct (proj1 (remote_failures_share_one_message
                     (Fulfilled (Some (lit "{ description: 7, labels: [1] }")))
                     DemoMore.parse Demo.unknownError)
              Gemini.failed eq_refl) as [_ Hm].
  split; [reflexivity|exact Hm].
Defined.

(** X25: what [analyzeImage] makes of the parsed response.  A response
    object that has the six fields with the types of the schema is passed
    through field by field, empty strings and empty arrays included.  A
    missing response text, an empty one, or a response that parses to a
    number, a string, a boolean or an array gives the same result as the
    empty object: three empty arrays, two empty strings and confidence
    [0]. *)
Theorem remote_result_follows_the_schema parse text fields
    o l d c dc age :
  parse (Gemini.textOf text) = Fulfilled (Json.JObject fields) ->
  lookup (lit "objects") fields = Some (Json.JArray o) ->
  lookup (lit "labels") fields = Some (Json.JArray l) ->
  lookup (lit "description") fields = Some (Json.JString d) ->
  lookup (lit "confidenceScore") fields = Some (Json.JNumber c) ->
  lookup (lit "dominantColors") fields = Some (Json.JArray dc) ->
  lookup (lit "ageEstimate") fields = Some (Json.JString age) ->
  Gemini.analyzeImage (Fulfilled text) parse
  = Fulfilled {| Gemini.objects := o;
                 Gemini.labels := l;
                 Gemini.description := Json.JString d;
                 Gemini.confidenceScore := c;
                 Gemini.dominantColors := dc;
                 Gemini.ageEstimate := Json.JString age |}
  /\ (forall parsed,
         parsed <> Json.JNull ->
         (forall fs, parsed <> Json.JObject fs) ->
         Gemini.resultOf parsed = Gemini.resultOf (Json.JObject []))
  /\ Gemini.textOf None = lit "{}" /\ Gemini.textOf (Some []) = lit "{}".
Proof.
  intros Hp Ho Hl Hd Hc Hdc Hage. split; [|split; [|split; reflexivity]].
  - unfold Gemini.analyzeImage, Gemini.resultOf, Json.get.
    rewrite Hp, Ho, Hl, Hd, Hc, Hdc, Hage.
    cbn [Gemini.arrayOrEmpty Gemini.numberOrZero].
    unfold Gemini.orEmptyString, Json.truthy.
    destruct d, age; reflexivity.
  - intros parsed Hnull Hobj.
    destruct parsed; try reflexivity; [contradiction|].
    exfalso. exact (Hobj _ eq_refl).
Qed.

Lemma remote_result_follows_the_schema_witness :
  Gemini.analyzeImage (Fulfilled (Some (lit "{ conforming }"))) DemoMore.parse
  = Fulfilled
      {| Gemini.objects := [Json.JString (lit "dog")];
         Gemini.labels := [];
         Gemini.description := Json.JString [];
         Gemini.confidenceScore := 0.5%Q;
         Gemini.dominantColors := [Json.JString (lit "#ffffff")];
         Gemini.ageEstimate := Json.JString (lit "25-30") |}.
Proof.
  exact (proj1 (remote_result_follows_the_schema DemoMore.parse
                  (Some (lit "{ conforming }")) _ _ _ _ _ _ _
                  eq_refl eq_refl eq_refl eq_refl eq_refl eq_refl eq_refl)).
Defined.

(* ------------------------------------------------------------------ *)
(** ** A retry, as the sidebar shows it *)

Lemma messageOf_shown unknownError e :
  match AnalysisSidebar.shown (Some (messageOf unknownError e)) with
  | Some m => m
  | None => unknownError
  end = messageOf unknownError e.
Proof.
  unfold AnalysisSidebar.shown, messageOf.
  destruct (message e) as [m|].
  - unfold or_else. destruct m as [|c m]; cbn [truthy].
    + destruct unknownError; reflexivity.
    + reflexivity.
  - destruct unknownError; reflexivity.
Qed.

(** X26: a retry of a tracked record, as the sidebar shows it.  While the
    attempt runs the sidebar shows the scanning state, also for a record
    that has an analysis.  Afterwards it shows the new analysis when the
    attempt is fulfilled; when it is rejected it shows the message of the
    failure, or the fallback when there is none, and the record keeps the
    analysis it had, which is not shown. *)
Theorem retry_as_the_sidebar_shows_it unknownError run id st record :
  find id (images st) = Some record ->
  Forall (fun img =>
            ImageRecord.id img = id ->
            AnalysisSidebar.body unknownError img = AnalysisSidebar.Scanning)
    (setAnalyzing id (images st)) /\
  Forall2 (fun img img' =>
             ImageRecord.id img = id ->
             match run record with
             | Fulfilled a =>
                 AnalysisSidebar.body unknownError img'
                 = AnalysisSidebar.Results a
             | Rejected e =>
                 AnalysisSidebar.body unknownError img'
                 = AnalysisSidebar.Failure (messageOf unknownError e) /\
                 ImageRecord.analysis img' = ImageRecord.analysis img
             end)
    (images st) (images (handleRetry unknownError run id st)).
Proof.
  intros Hfind. split.
  - unfold setAnalyzing. apply Forall_map, Forall_forall.
    intros img _. destruct (sameId id img) eqn:E.
    + intros _. reflexivity.
    + intros Hid. cbn [ImageRecord.id] in Hid. apply sameId_true in Hid.
      congruence.
  - unfold handleRetry. rewrite Hfind.
    cbn [images withProcessing withImages].
    rewrite analyzeSingleRecord_map. apply Forall2_map_same.
    intros img Hid. apply sameId_true in Hid. unfold settled. rewrite Hid.
    destruct (run record) as [a|e].
    + reflexivity.
    + split; [|reflexivity].
      unfold AnalysisSidebar.body.
      cbn [withStatus ImageRecord.status ImageRecord.error].
      rewrite messageOf_shown. reflexivity.
Qed.

Lemma retry_as_the_sidebar_shows_it_witness :
  find (lit "a1") (images DemoMore.ready)
  = Some (Demo.record "a1" Status.error (Some Demo.located)) /\
  Forall2 (fun img img' =>
             ImageRecord.id img = lit "a1" ->
             AnalysisSidebar.body Demo.unknownError img'
             = AnalysisSidebar.Failure (lit "detector failed") /\
             ImageRecord.analysis img' = ImageRecord.analysis img)
    (images DemoMore.ready)
    (images (handleRetry Demo.unknownError (fun _ => Rejected Demo.boom)
               (lit "a1") DemoMore.ready)).
Proof.
  split; [reflexivity|].
  exact (proj2 (retry_as_the_sidebar_shows_it Demo.unknownError
                  (fun _ => Rejected Demo.boom) (lit "a1")
                  DemoMore.ready _ eq_refl)).
Defined.
